(** * playbattleship: the solving engine of [battleship.py]

    A shallow embedding of the classes [BattleshipBoard] and
    [BattleshipPlayer]: placement enumeration, the rejection sampler, the
    belief update after a move and the choice of the next tile.

    Python integers are [Z], tiles are pairs of integers, Python sets of
    tiles are [gset]s, the dictionaries keyed by ship name are [gmap]s, and
    lists are lists.  Exceptions are values of [res]; the calls of
    [random.random()] read a tape of draws that is threaded through the
    sampler; the retry loops, which have no bound in the source, take fuel. *)

From Stdlib Require Import ZArith Lia.
From stdpp Require Import gmap strings list fin_maps fin_sets sorting.

Local Open Scope Z_scope.

(** ** Values and errors *)

(** A tile [(x, y)]. *)
Definition cell : Type := Z * Z.

(** The exceptions the code can raise: indexing a list out of range,
    unpacking an empty sequence, a missing dictionary key, and
    [set.union()] called without arguments. *)
Inductive exn : Set := IndexError | ValueError | KeyError | TypeError.

(** The outcome of running a piece of code: a value, an exception, or the
    fuel of a retry loop used up before the loop ended. *)
Inductive res (A : Type) : Type :=
| Ok (a : A)
| Raise (e : exn)
| OutOfFuel.
Arguments Ok {A} a.
Arguments Raise {A} e.
Arguments OutOfFuel {A}.

Definition res_bind {A B} (m : res A) (f : A → res B) : res B :=
  match m with
  | Ok a => f a
  | Raise e => Raise e
  | OutOfFuel => OutOfFuel
  end.

Global Instance res_ret : MRet res := λ A a, Ok a.
Global Instance res_mbind : MBind res := λ A B f m, res_bind m f.

(** [d[k]] on a dictionary. *)
Definition getitem {V} (d : gmap string V) (k : string) : res V :=
  match d !! k with
  | Some v => Ok v
  | None => Raise KeyError
  end.

(** [l[i]] on a list; a negative index counts from the end. *)
Definition index {A} (l : list A) (i : Z) : res A :=
  let j := if decide (0 ≤ i) then i else Z.of_nat (length l) + i in
  if decide (0 ≤ j) then
    match l !! Z.to_nat j with
    | Some a => Ok a
    | None => Raise IndexError
    end
  else Raise IndexError.

(** [range(n)]: empty when [n] is not positive. *)
Definition range (n : Z) : list Z := seqZ 0 n.

(** [for x in xs: acc = body(acc, x)] where the body may raise. *)
Fixpoint for_each {A S} (xs : list A) (body : S → A → res S) (acc : S) : res S :=
  match xs with
  | [] => Ok acc
  | x :: xs' => acc' ← body acc x; for_each xs' body acc'
  end.

(** [set.union] applied to the unpacked list [sets]: it needs at least
    one argument. *)
Definition set_union_star (sets : list (gset cell)) : res (gset cell) :=
  match sets with
  | [] => Raise TypeError
  | s :: rest => Ok (s ∪ ⋃ rest)
  end.

(** ** BattleshipBoard *)

Definition ascii_lowercase : list string :=
  ["a"; "b"; "c"; "d"; "e"; "f"; "g"; "h"; "i"; "j"; "k"; "l"; "m";
   "n"; "o"; "p"; "q"; "r"; "s"; "t"; "u"; "v"; "w"; "x"; "y"; "z"]%string.

Record BattleshipBoard : Type := mkBoard {
  dim : Z;
  names : list string;
  shipLengths : gmap string Z;
  possShipsNumDict : gmap string Z;
  possShipsDict : gmap string (list (gset cell))
}.

(** The two list comprehensions of [generateComponentLayouts] for one ship
    of length [len]: runs along the first coordinate, then runs along the
    second one; [i] is the outer loop and [j] the inner one. *)
Definition layouts (d len : Z) : list (gset cell) :=
  let ship_length := range len in
  let dim_limit := range (d - len + 1) in
  let dim_range := range d in
  (i ← dim_limit; j ← dim_range;
     [list_to_set ((λ temp, (i + temp, j)) <$> ship_length)])
  ++
  (i ← dim_limit; j ← dim_range;
     [list_to_set ((λ temp, (j, i + temp)) <$> ship_length)]).

Definition generateComponentLayouts (b : BattleshipBoard) : res BattleshipBoard :=
  for_each (names b)
    (λ acc name,
       len ← getitem (shipLengths acc) name;
       let confs := layouts (dim acc) len in
       Ok (mkBoard (dim acc) (names acc) (shipLengths acc)
             (<[name := Z.of_nat (length confs)]> (possShipsNumDict acc))
             (<[name := confs]> (possShipsDict acc))))
    (mkBoard (dim b) (names b) (shipLengths b) ∅ ∅).

(** [BattleshipBoard.__init__]: [zip] stops at the shorter of the
    alphabet and the list of ships. *)
Definition BattleshipBoard_init (d : Z) (ships : list Z) : res BattleshipBoard :=
  let nms := take (length ships) ascii_lowercase in
  generateComponentLayouts
    (mkBoard d nms (list_to_map (zip nms ships)) ∅ ∅).

(** ** The random source *)

(** One value of [random.random()]: the fraction [num / (num + gap + 1)],
    which lies in the half-open interval from 0 to 1. *)
Record draw : Set := mkDraw { num : nat; gap : nat }.

(** The values the successive calls of [random.random()] return. *)
Definition rng : Type := nat → draw.

(** Code that reads the random source and may raise. *)
Definition M (A : Type) : Type := rng → res (A * rng).

Definition M_ret {A} (a : A) : M A := λ r, Ok (a, r).
Definition M_bind {A B} (m : M A) (f : A → M B) : M B :=
  λ r, match m r with
       | Ok (a, r') => f a r'
       | Raise e => Raise e
       | OutOfFuel => OutOfFuel
       end.
Global Instance M_mret : MRet M := @M_ret.
Global Instance M_mbind : MBind M := λ A B f m, M_bind m f.

(** Code that does not read the random source, run inside [M]. *)
Definition liftR {A} (m : res A) : M A :=
  λ r, match m with
       | Ok a => Ok (a, r)
       | Raise e => Raise e
       | OutOfFuel => OutOfFuel
       end.

(** [int(n * random.random())]; [int] truncates towards zero. *)
Definition random_index (n : Z) : M Z :=
  λ r, let d := r 0%nat in
       Ok ((n * Z.of_nat (num d)) `quot` Z.of_nat (num d + gap d + 1),
           λ i, r (S i)).

(** [while 1: ... if end: ...; break]: run [attempt] until it succeeds.
    The source has no bound on the number of attempts; here the loop gives
    up with [OutOfFuel] after [fuel] of them. *)
Fixpoint retry {A} (fuel : nat) (attempt : M (option A)) : M A :=
  match fuel with
  | O => λ _, OutOfFuel
  | S fuel' =>
      a ← attempt;
      match a with
      | Some v => mret v
      | None => retry fuel' attempt
      end
  end.

(** [while len_r < batch_size: results.append(one()); len_r += 1] with
    [n] iterations left. *)
Fixpoint collect {A} (n : nat) (one : M A) : M (list A) :=
  match n with
  | O => mret []
  | S n' => v ← one; vs ← collect n' one; mret (v :: vs)
  end.

(** [[f(x) for x in xs if cond(x)]] where [body] evaluates the condition
    and then the element, and either may raise. *)
Fixpoint comprehension {A B} (xs : list A) (body : A → res (option B)) : res (list B) :=
  match xs with
  | [] => Ok []
  | x :: xs' =>
      o ← body x;
      rest ← comprehension xs' body;
      Ok (match o with Some v => v :: rest | None => rest end)
  end.

(** ** The sampler: [BattleshipBoard.randomBoard] *)

(** [self.possShipsDict[name][int(self.possShipsNumDict[name]*random.random())]] *)
Definition draw_placement (b : BattleshipBoard) (name : string) : M (gset cell) :=
  confs ← liftR (getitem (possShipsDict b) name);
  n ← liftR (getitem (possShipsNumDict b) name);
  i ← random_index n;
  liftR (index confs i).

(** The loop [for name in rest_names] of one attempt: [None] when a drawn
    placement overlaps the tiles taken so far ([end = False; break]),
    otherwise the final [l] and [t]. *)
Fixpoint place_rest (b : BattleshipBoard) (rest_names : list string)
    (l : list (gset cell)) (t : gset cell) : M (option (list (gset cell) * gset cell)) :=
  match rest_names with
  | [] => mret (Some (l, t))
  | name :: rest =>
      k ← draw_placement b name;
      if decide (k ∩ t ≠ ∅) then mret None
      else place_rest b rest (l ++ [k]) (t ∪ k)
  end.

(** What one entry of [results] is: the list [l] of placements when
    [initial] holds, the set [t] of occupied tiles otherwise. *)
Definition layout (initial : bool) : Type :=
  if initial then list (gset cell) else gset cell.

(** [l if initial else t] *)
Definition l_if_initial_else_t (initial : bool)
    (lt : list (gset cell) * gset cell) : layout initial :=
  match initial return layout initial with
  | true => lt.1
  | false => lt.2
  end.

Definition randomBoard (fuel : nat) (b : BattleshipBoard) (initial : bool)
    (names_arg : option (list string)) (batch_size : Z) : M (list (layout initial)) :=
  let names0 := default [] names_arg in
  '(first_name, rest_names, names1) ← liftR
     (if initial || bool_decide (names0 = []) then
        match names b with
        | [] => Raise ValueError
        | first_name :: rest_names => Ok (first_name, rest_names, names b)
        end
      else
        match names0 with
        | [] => Raise ValueError
        | first_name :: rest_names => Ok (first_name, rest_names, names0)
        end);
  n_first ← liftR (getitem (possShipsNumDict b) first_name);
  if decide (n_first = 1) then
    start_l ← liftR (comprehension names1 (λ name,
      n ← getitem (possShipsNumDict b) name;
      if decide (n = 1) then
        confs ← getitem (possShipsDict b) name;
        k ← index confs 0;
        Ok (Some k)
      else Ok None));
    rest_names' ← liftR (comprehension names1 (λ name,
      n ← getitem (possShipsNumDict b) name;
      Ok (if decide (n ≠ 1) then Some name else None)));
    start_t ← liftR (set_union_star start_l);
    collect (Z.to_nat batch_size)
      (lt ← retry fuel (place_rest b rest_names' start_l start_t);
       mret (l_if_initial_else_t initial lt))
  else
    collect (Z.to_nat batch_size)
      (lt ← retry fuel
         (t ← draw_placement b first_name;
          place_rest b rest_names [t] t);
       mret (l_if_initial_else_t initial lt)).

(** ** BattleshipPlayer *)

(** One value of [enemy_ship_statuses]. *)
Record status : Type := mkStatus {
  sunk : bool;
  confirmed_pos : gset cell;
  hit_count : Z
}.

Record BattleshipPlayer : Type := mkPlayer {
  board : BattleshipBoard;
  enemy_ships : list (gset cell);
  enemy_board : gset cell;
  enemy_ship_statuses : gmap string status;
  n_boards : Z;
  hits : gset cell;
  misses : gset cell;
  random_boards : list (gset cell);
  name_order : list string;
  target_hits : Z;
  last_move : Z;
  num_hits : Z
}.

(** [sum(d.values())] *)
Definition sum_values (d : gmap string Z) : Z :=
  map_fold (λ _ v acc, acc + v) 0 d.

(** [{name: {'sunk': False, 'confirmed_pos': set(), 'hit_count': 0} for name in names}] *)
Definition fresh_statuses (nms : list string) : gmap string status :=
  list_to_map ((λ name, (name, mkStatus false ∅ 0)) <$> nms).

(** [self.board.randomBoard(initial=True)[0]] followed by
    [set.union] over the drawn fleet. *)
Definition draw_fleet (fuel : nat) (b : BattleshipBoard) : M (list (gset cell) * gset cell) :=
  fleets ← randomBoard fuel b true None 1;
  ships ← liftR (index fleets 0);
  eb ← liftR (set_union_star ships);
  mret (ships, eb).

(** [BattleshipPlayer.__init__] *)
Definition BattleshipPlayer_init (fuel : nat) (d : Z) (ships : list Z) (boards : Z)
  : M BattleshipPlayer :=
  b ← liftR (BattleshipBoard_init d ships);
  '(fleet, eb) ← draw_fleet fuel b;
  mret (mkPlayer b fleet eb (fresh_statuses (names b)) boards ∅ ∅ []
          (names b) (sum_values (shipLengths b)) 0 0).

(** [sorted] is stable: [insert_stable before x s] puts [x], which stood
    before every element of [s] in the input, in front of the first element
    that does not have to come [before] it. *)
Fixpoint insert_stable {A} (before : A → A → bool) (x : A) (s : list A) : list A :=
  match s with
  | [] => [x]
  | y :: s' => if before y x then y :: insert_stable before x s' else x :: s
  end.

Definition sorted_stable {A} (before : A → A → bool) (l : list A) : list A :=
  foldr (insert_stable before) [] l.

(** The sort key [possShipsNumDict.get(x, float('inf'))]: [None] is the
    infinite default, larger than every count. *)
Definition key_lt (k1 k2 : option Z) : bool :=
  match k1, k2 with
  | Some a, Some c => bool_decide (a < c)
  | Some _, None => true
  | None, _ => false
  end.

Definition generate_random_boards (fuel : nat) (p : BattleshipPlayer) : M BattleshipPlayer :=
  let kept :=
    if decide (last_move p = 1)
    then filter (λ b, b ∩ misses p = ∅) (random_boards p)
    else filter (λ b, hits p ∖ b = ∅) (random_boards p) in
  let order :=
    sorted_stable
      (λ y x, key_lt (possShipsNumDict (board p) !! y) (possShipsNumDict (board p) !! x))
      (name_order p) in
  let num_b := Z.of_nat (length kept) in
  fresh ← randomBoard fuel (board p) false (Some order) (n_boards p - num_b);
  mret (mkPlayer (board p) (enemy_ships p) (enemy_board p) (enemy_ship_statuses p)
          (n_boards p) (hits p) (misses p) (kept ++ fresh) order
          (target_hits p) (last_move p) (num_hits p)).

(** The body of the loop of [update_possible_ship_positions] for one
    ship, on the board [b] as the earlier iterations left it. *)
Definition update_ship (p : BattleshipPlayer) (b : BattleshipBoard) (name : string)
  : res BattleshipBoard :=
  confs ← getitem (possShipsDict b) name;
  if decide (length confs = 1%nat) then Ok b
  else
    st ← getitem (enemy_ship_statuses p) name;
    let necessary := confirmed_pos st in
    let confs' :=
      if decide (necessary ≠ ∅) then
        let len_necessity := hit_count st in
        if decide (last_move p = 1)
        then filter (λ conf, conf ∩ misses p = ∅) confs
        else filter (λ conf,
               Z.of_nat (size (necessary ∩ conf)) = len_necessity
               ∧ len_necessity = Z.of_nat (size (hits p ∩ conf))) confs
      else
        if decide (last_move p = 1)
        then filter (λ conf, conf ∩ misses p = ∅) confs
        else filter (λ conf, hits p ∩ conf = ∅) confs in
    Ok (mkBoard (dim b) (names b) (shipLengths b)
          (<[name := Z.of_nat (length confs')]> (possShipsNumDict b))
          (<[name := confs']> (possShipsDict b))).

Definition set_board (p : BattleshipPlayer) (b : BattleshipBoard) : BattleshipPlayer :=
  mkPlayer b (enemy_ships p) (enemy_board p) (enemy_ship_statuses p)
    (n_boards p) (hits p) (misses p) (random_boards p) (name_order p)
    (target_hits p) (last_move p) (num_hits p).

Definition update_possible_ship_positions (p : BattleshipPlayer) : res BattleshipPlayer :=
  b ← for_each (names (board p)) (update_ship p) (board p);
  Ok (set_board p b).

(** The loop over [zip(self.board.names, self.enemy_ships)] of
    [update_game_state], which stops at the first ship that holds the
    tile. *)
Fixpoint attribute_hit (coords : cell) (pairs : list (string * gset cell))
    (sts : gmap string status) : res (gmap string status) :=
  match pairs with
  | [] => Ok sts
  | (name, ship) :: rest =>
      if decide (coords ∈ ship) then
        st ← getitem sts name;
        let hc := hit_count st + 1 in
        let cp := confirmed_pos st ∪ {[coords]} in
        let sk := if decide (hc = Z.of_nat (size ship)) then true else sunk st in
        Ok (<[name := mkStatus sk cp hc]> sts)
      else attribute_hit coords rest sts
  end.

(** What a call of [update_game_state] evaluates to.  The method has no
    [return] statement, so every call evaluates to Python's [None];
    [Signal] stands for a value that would tell the caller how the move
    was classified. *)
Inductive move_class : Set := HIT | MISS | ALREADY_TRIED.
Inductive returned : Set := PyNone | Signal (s : move_class).

Definition update_game_state (p : BattleshipPlayer) (x y : Z)
  : res (returned * BattleshipPlayer) :=
  let coords := (x, y) in
  if decide (coords ∈ enemy_board p) then
    if decide (coords ∉ hits p) then
      sts ← attribute_hit coords (zip (names (board p)) (enemy_ships p))
              (enemy_ship_statuses p);
      p' ← update_possible_ship_positions
             (mkPlayer (board p) (enemy_ships p) (enemy_board p) sts
                (n_boards p) (hits p ∪ {[coords]}) (misses p) (random_boards p)
                (name_order p) (target_hits p) 2 (num_hits p + 1));
      Ok (PyNone, p')
    else Ok (PyNone, p)
  else if decide (coords ∉ misses p) then
    p' ← update_possible_ship_positions
           (mkPlayer (board p) (enemy_ships p) (enemy_board p) (enemy_ship_statuses p)
              (n_boards p) (hits p) (misses p ∪ {[coords]}) (random_boards p)
              (name_order p) (target_hits p) 1 (num_hits p));
    Ok (PyNone, p')
  else Ok (PyNone, p).

Definition check_all_sunk (p : BattleshipPlayer) : bool :=
  bool_decide (num_hits p = target_hits p).

(** [BattleshipPlayer.reset] *)
Definition reset (fuel : nat) (p : BattleshipPlayer) : M BattleshipPlayer :=
  b ← liftR (generateComponentLayouts (board p));
  '(fleet, eb) ← draw_fleet fuel b;
  mret (mkPlayer b fleet eb (fresh_statuses (names b)) (n_boards p) ∅ ∅ []
          (names b) (target_hits p) 0 0).

(** *** Choosing a tile *)

(** [Counter(xs)]: the counts in the order in which the keys were first
    met, which is the order [most_common] keeps among equal counts. *)
Fixpoint counter_incr (c : cell) (cnt : list (cell * Z)) : list (cell * Z) :=
  match cnt with
  | [] => [(c, 1)]
  | (c', n) :: rest =>
      if decide (c' = c) then (c', n + 1) :: rest
      else (c', n) :: counter_incr c rest
  end.

Definition Counter (xs : list cell) : list (cell * Z) :=
  foldl (λ cnt c, counter_incr c cnt) [] xs.

(** [cnt.most_common(n)]: the first [n] items of the stable sort by
    decreasing count. *)
Definition most_common (n : Z) (cnt : list (cell * Z)) : list (cell * Z) :=
  take (Z.to_nat n) (sorted_stable (λ y x, bool_decide (x.2 < y.2)) cnt).

(** The [for] loop of [take_turn] over the reversed window: the first
    tile that is not in [hits]; [None] when the loop runs off the end. *)
Definition first_untried (hs : gset cell) (window : list (cell * Z)) : option cell :=
  head (filter (λ tile, tile ∉ hs) (window.*1)).

Section Targeting.
(** The order in which a set hands out its elements when it is iterated.
    Python leaves it unspecified; every statement below holds for each
    order. *)
Variable set_iter : gset cell → list cell.

(** [chain.from_iterable(boards)] *)
Definition chain_from_iterable (boards : list (gset cell)) : list cell :=
  b ← boards; set_iter b.

(** The part of [take_turn] after [generate_random_boards]. *)
Definition choose_tile (p : BattleshipPlayer) : option cell :=
  first_untried (hits p)
    (reverse (most_common (Z.of_nat (size (hits p)) + 1)
                (Counter (chain_from_iterable (random_boards p))))).

Definition take_turn (fuel : nat) (p : BattleshipPlayer)
  : M (option cell * BattleshipPlayer) :=
  p' ← generate_random_boards fuel p;
  mret (choose_tile p', p').
End Targeting.

(** ** Sample runs *)

(** A random source that returns the fractions [p / (p + g + 1)] for the
    pairs [(p, g)] of [ps], and zero from then on. *)
Definition tape (ps : list (nat * nat)) : rng :=
  λ i, match ps !! i with
       | Some (p, g) => mkDraw p g
       | None => mkDraw 0 0
       end.

(** The board for dimension 3 with a ship of length 2 and a ship of
    length 1, and two draws that place the first ship on [(0,0), (1,0)]
    and the second one on [(2,2)]. *)
Definition small_board : BattleshipBoard :=
  Eval vm_compute in
    match BattleshipBoard_init 3 [2; 1] with
    | Ok b => b
    | _ => mkBoard 0 [] ∅ ∅ ∅
    end.

Definition small_tape : rng := tape [(0, 11); (8, 9)]%nat.

(** A player for the small board with a population of three boards, the
    same player after the hit at [(0,0)], and after the miss at [(1,1)]
    that follows. *)
Definition dummy_player : BattleshipPlayer :=
  mkPlayer (mkBoard 0 [] ∅ ∅ ∅) [] ∅ ∅ 0 ∅ ∅ [] [] 0 0 0.

Definition small_player : BattleshipPlayer :=
  Eval vm_compute in
    match BattleshipPlayer_init 5 3 [2; 1] 3 small_tape with
    | Ok (p, _) => p
    | _ => dummy_player
    end.

Definition small_player_hit : BattleshipPlayer :=
  Eval vm_compute in
    match update_game_state small_player 0 0 with
    | Ok (_, p) => p
    | _ => dummy_player
    end.

Definition small_player_miss : BattleshipPlayer :=
  Eval vm_compute in
    match update_game_state small_player_hit 1 1 with
    | Ok (_, p) => p
    | _ => dummy_player
    end.

(** A turn cycle on the small board: the first population of three
    boards, the hit at [(0,0)], and the population after the next
    refresh. *)
Definition cycle_tape : rng :=
  tape [(0, 11); (8, 9); (1, 10); (8, 9); (0, 11); (5, 12)]%nat.

Definition small_pop : BattleshipPlayer :=
  Eval vm_compute in
    match generate_random_boards 5 small_player cycle_tape with
    | Ok (p, _) => p
    | _ => dummy_player
    end.

Definition small_pop_hit : BattleshipPlayer :=
  Eval vm_compute in
    match update_game_state small_pop 0 0 with
    | Ok (_, p) => p
    | _ => dummy_player
    end.

Definition small_pop_next : BattleshipPlayer :=
  Eval vm_compute in
    match generate_random_boards 5 small_pop_hit (tape []) with
    | Ok (p, _) => p
    | _ => dummy_player
    end.

Definition small_reset : BattleshipPlayer :=
  Eval vm_compute in
    match reset 5 small_pop_next small_tape with
    | Ok (p, _) => p
    | _ => dummy_player
    end.

(** The board of dimension 1 with two ships of length 1, and the board of
    dimension 3 with one ship of length 5. *)
Definition tiny_board : BattleshipBoard :=
  Eval vm_compute in
    match BattleshipBoard_init 1 [1; 1] with
    | Ok b => b
    | _ => mkBoard 0 [] ∅ ∅ ∅
    end.

Definition tall_board : BattleshipBoard :=
  Eval vm_compute in
    match BattleshipBoard_init 3 [5] with
    | Ok b => b
    | _ => mkBoard 0 [] ∅ ∅ ∅
    end.

(** ** Specification predicates *)

Definition in_grid (d : Z) (c : cell) : Prop :=
  0 ≤ c.1 < d ∧ 0 ≤ c.2 < d.

(** [conf] is the run of [len] tiles that starts at [(x, y)] and goes
    along the first or along the second coordinate. *)
Definition contiguous_run (len : Z) (conf : gset cell) : Prop :=
  ∃ x y,
    (∀ c, c ∈ conf ↔ ∃ t, 0 ≤ t < len ∧ c = (x + t, y))
    ∨ (∀ c, c ∈ conf ↔ ∃ t, 0 ≤ t < len ∧ c = (x, y + t)).

Definition is_placement (d len : Z) (conf : gset cell) : Prop :=
  size conf = Z.to_nat len
  ∧ contiguous_run len conf
  ∧ ∀ c, c ∈ conf → in_grid d c.

(** ** The monads *)

Lemma res_bind_Ok {A B} (m : res A) (f : A → res B) (v : B) :
  m ≫= f = Ok v ↔ ∃ a, m = Ok a ∧ f a = Ok v.
Proof.
  destruct m as [a| |]; simpl; split; try (intros [? [? ?]]); try discriminate; eauto.
  congruence.
Qed.

Lemma M_bind_Ok {A B} (m : M A) (f : A → M B) r v r' :
  (m ≫= f) r = Ok (v, r') ↔ ∃ a r1, m r = Ok (a, r1) ∧ f a r1 = Ok (v, r').
Proof.
  unfold mbind, M_mbind, M_bind. destruct (m r) as [[a r1]| |]; split;
    try (intros (? & ? & ? & ?)); try discriminate; eauto.
  congruence.
Qed.

Lemma liftR_Ok {A} (m : res A) r v r' :
  liftR m r = Ok (v, r') ↔ m = Ok v ∧ r' = r.
Proof.
  unfold liftR. destruct m; split; try intros [? ?]; try discriminate; try congruence.
  intros [= -> ->]. done.
Qed.

Lemma M_ret_Ok {A} (a : A) r v r' :
  mret (M := M) a r = Ok (v, r') ↔ v = a ∧ r' = r.
Proof. unfold mret, M_mret, M_ret. split; [intros [= -> ->]|intros [-> ->]]; done. Qed.

Lemma getitem_Ok {V} (d : gmap string V) k v :
  getitem d k = Ok v ↔ d !! k = Some v.
Proof. unfold getitem. destruct (d !! k); split; congruence. Qed.

(** A loop invariant for [for_each]: [P done acc] holds after the
    iterations over [done]. *)
Lemma for_each_total {A S} (P : list A → S → Prop) (xs : list A)
    (body : S → A → res S) (acc : S) :
  P [] acc →
  (∀ done x a, P done a → x ∈ xs → ∃ a', body a x = Ok a' ∧ P (done ++ [x]) a') →
  ∃ acc', for_each xs body acc = Ok acc' ∧ P xs acc'.
Proof.
  intros H0 Hstep.
  assert (Hgen : ∀ todo done a, done ++ todo = xs → P done a →
            ∃ acc', for_each todo body a = Ok acc' ∧ P xs acc').
  { induction todo as [|x todo IH]; intros done a Heq HP.
    - rewrite app_nil_r in Heq. subst. simpl. eauto.
    - destruct (Hstep done x a HP) as (a' & Hb & HP').
      { rewrite <- Heq. set_solver. }
      simpl. rewrite Hb. simpl. apply (IH (done ++ [x])); [|done].
      rewrite <- app_assoc. done. }
  apply (Hgen xs []); done.
Qed.

Lemma for_each_inv {A S} (P : list A → S → Prop) (xs : list A)
    (body : S → A → res S) (acc acc' : S) :
  for_each xs body acc = Ok acc' →
  P [] acc →
  (∀ done x a a', P done a → x ∈ xs → body a x = Ok a' → P (done ++ [x]) a') →
  P xs acc'.
Proof.
  intros Hrun H0 Hstep.
  assert (Hgen : ∀ todo done a, done ++ todo = xs → P done a →
            for_each todo body a = Ok acc' → P xs acc').
  { induction todo as [|x todo IH]; intros done a Heq HP Hr.
    - rewrite app_nil_r in Heq. simpl in Hr. congruence.
    - simpl in Hr. apply res_bind_Ok in Hr as (a' & Hb & Hr).
      apply (IH (done ++ [x]) a'); [by rewrite <- app_assoc| |done].
      eapply Hstep; [done| |done]. rewrite <- Heq. set_solver. }
  apply (Hgen xs [] acc); done.
Qed.

(** ** The placement catalog *)

Lemma length_bind_pairs {A B C} (f : A → B → C) (xs : list A) (ys : list B) :
  length (i ← xs; j ← ys; [f i j]) = (length xs * length ys)%nat.
Proof.
  induction xs as [|x xs IH]; [done|].
  rewrite bind_cons, length_app, IH. simpl. f_equal.
  clear IH. induction ys as [|y ys IHy]; [done|].
  rewrite bind_cons. simpl. by rewrite IHy.
Qed.

Lemma elem_of_bind_pairs {A B C} (f : A → B → C) (xs : list A) (ys : list B) c :
  c ∈ (i ← xs; j ← ys; [f i j]) ↔ ∃ i j, i ∈ xs ∧ j ∈ ys ∧ c = f i j.
Proof.
  rewrite list_elem_of_bind. split.
  - intros (i & Hc & Hi). apply list_elem_of_bind in Hc as (j & Hc & Hj).
    apply list_elem_of_singleton in Hc. eauto.
  - intros (i & j & Hi & Hj & ->). exists i. split; [|done].
    apply list_elem_of_bind. exists j. split; [|done]. by apply list_elem_of_singleton.
Qed.

Lemma elem_of_range (n i : Z) : i ∈ range n ↔ 0 ≤ i < n.
Proof. unfold range. rewrite elem_of_seqZ. lia. Qed.

Lemma length_range (n : Z) : length (range n) = Z.to_nat n.
Proof. unfold range. by rewrite length_seqZ. Qed.

Lemma length_layouts (d len : Z) :
  length (layouts d len) = (2 * (Z.to_nat (d - len + 1) * Z.to_nat d))%nat.
Proof.
  unfold layouts. rewrite length_app, !length_bind_pairs, !length_range. lia.
Qed.

Lemma elem_of_layouts (d len : Z) (conf : gset cell) :
  conf ∈ layouts d len ↔
  ∃ i j, 0 ≤ i < d - len + 1 ∧ 0 ≤ j < d ∧
    (conf = list_to_set ((λ temp, (i + temp, j)) <$> range len)
     ∨ conf = list_to_set ((λ temp, (j, i + temp)) <$> range len)).
Proof.
  unfold layouts. rewrite elem_of_app, !elem_of_bind_pairs. split.
  - intros [(i & j & Hi & Hj & ->)|(i & j & Hi & Hj & ->)];
      apply elem_of_range in Hi, Hj; exists i, j; eauto.
  - intros (i & j & Hi & Hj & [->| ->]); apply elem_of_range in Hi, Hj;
      [left|right]; exists i, j; eauto.
Qed.

Lemma size_run (f : Z → cell) (len : Z) :
  Inj (=) (=) f → size (list_to_set (C := gset cell) (f <$> range len)) = Z.to_nat len.
Proof.
  intros Hf. rewrite size_list_to_set.
  - by rewrite length_fmap, length_range.
  - apply NoDup_fmap_2; [done|]. apply NoDup_seqZ.
Qed.

Lemma layouts_placement (d len : Z) (conf : gset cell) :
  0 ≤ len → conf ∈ layouts d len → is_placement d len conf.
Proof.
  intros Hlen (i & j & Hi & Hj & Hc)%elem_of_layouts.
  destruct Hc as [-> | ->]; (split; [|split]).
  - apply size_run. intros a c [= ?]. lia.
  - exists i, j. left. intros c. rewrite elem_of_list_to_set, list_elem_of_fmap.
    setoid_rewrite elem_of_range. naive_solver.
  - intros c. rewrite elem_of_list_to_set, list_elem_of_fmap.
    intros (t & -> & Ht%elem_of_range). unfold in_grid. simpl. lia.
  - apply size_run. intros a c [= ?]. lia.
  - exists j, i. right. intros c. rewrite elem_of_list_to_set, list_elem_of_fmap.
    setoid_rewrite elem_of_range. naive_solver.
  - intros c. rewrite elem_of_list_to_set, list_elem_of_fmap.
    intros (t & -> & Ht%elem_of_range). unfold in_grid. simpl. lia.
Qed.

Lemma layouts_size (d len : Z) (conf : gset cell) :
  conf ∈ layouts d len → size conf = Z.to_nat len.
Proof.
  intros (i & j & Hi & Hj & Hc)%elem_of_layouts.
  destruct Hc as [-> | ->]; apply size_run; intros a c [= ?]; lia.
Qed.

Lemma layouts_empty (d len : Z) : d < len → layouts d len = [].
Proof.
  intros H. apply length_zero_iff_nil. rewrite length_layouts. lia.
Qed.

(** ** Well-formed boards *)

(** What every board that the code builds satisfies: the three
    dictionaries have the ship names as keys, the count of a ship is the
    length of its candidate list, and every candidate was enumerated for
    the ship by [generateComponentLayouts]. *)
Record board_wf (b : BattleshipBoard) : Prop := {
  wf_nodup : NoDup (names b);
  wf_lengths : ∀ name, name ∈ names b → is_Some (shipLengths b !! name);
  wf_lengths_dom : ∀ name, is_Some (shipLengths b !! name) → name ∈ names b;
  wf_dict : ∀ name, name ∈ names b → is_Some (possShipsDict b !! name);
  wf_dict_dom : ∀ name, is_Some (possShipsDict b !! name) → name ∈ names b;
  wf_num : ∀ name, possShipsNumDict b !! name
                   = (λ confs, Z.of_nat (length confs)) <$> possShipsDict b !! name;
  wf_within : ∀ name confs len,
      possShipsDict b !! name = Some confs → shipLengths b !! name = Some len →
      confs ⊆ layouts (dim b) len
}.

(** The catalog is the one [generateComponentLayouts] leaves behind. *)
Definition fresh_catalog (b : BattleshipBoard) : Prop :=
  ∀ name,
    possShipsDict b !! name
    = if decide (name ∈ names b) then layouts (dim b) <$> shipLengths b !! name else None.

Lemma generateComponentLayouts_spec (b : BattleshipBoard) :
  (∀ name, name ∈ names b → is_Some (shipLengths b !! name)) →
  ∃ b', generateComponentLayouts b = Ok b'
    ∧ dim b' = dim b ∧ names b' = names b ∧ shipLengths b' = shipLengths b
    ∧ fresh_catalog b'
    ∧ ∀ name, possShipsNumDict b' !! name
              = (λ confs, Z.of_nat (length confs)) <$> possShipsDict b' !! name.
Proof.
  intros Hdom. unfold generateComponentLayouts.
  destruct (for_each_total
    (λ done acc, dim acc = dim b ∧ names acc = names b ∧ shipLengths acc = shipLengths b
       ∧ (∀ name, possShipsDict acc !! name
           = if decide (name ∈ done) then layouts (dim b) <$> shipLengths b !! name else None)
       ∧ (∀ name, possShipsNumDict acc !! name
           = (λ confs, Z.of_nat (length confs)) <$> possShipsDict acc !! name))
    (names b)
    (λ acc name,
       len ← getitem (shipLengths acc) name;
       let confs := layouts (dim acc) len in
       Ok (mkBoard (dim acc) (names acc) (shipLengths acc)
             (<[name := Z.of_nat (length confs)]> (possShipsNumDict acc))
             (<[name := confs]> (possShipsDict acc))))
    (mkBoard (dim b) (names b) (shipLengths b) ∅ ∅)) as (b' & Hrun & HP).
  - simpl. repeat split; try done.
  - intros done x a (Hd & Hn & Hs & Hdict & Hnum) Hx.
    destruct (Hdom x Hx) as [len Hlen].
    exists (mkBoard (dim a) (names a) (shipLengths a)
              (<[x := Z.of_nat (length (layouts (dim a) len))]> (possShipsNumDict a))
              (<[x := layouts (dim a) len]> (possShipsDict a))).
    split.
    { rewrite Hs. unfold getitem. rewrite Hlen. done. }
    simpl. repeat split; try done.
    + intros name. destruct (decide (x = name)) as [->|Hne].
      * rewrite lookup_insert_eq, decide_True by set_solver. by rewrite Hlen, Hd.
      * rewrite lookup_insert_ne, Hdict by done.
        destruct (decide (name ∈ done)).
        -- by rewrite decide_True by set_solver.
        -- by rewrite decide_False by set_solver.
    + intros name. destruct (decide (x = name)) as [->|Hne].
      * by rewrite !lookup_insert_eq.
      * by rewrite !lookup_insert_ne.
  - destruct HP as (Hd & Hn & Hs & Hdict & Hnum).
    exists b'. repeat split; try done.
    intros name. rewrite Hdict, Hn, Hd, Hs. done.
Qed.

Lemma fresh_catalog_wf (b : BattleshipBoard) :
  NoDup (names b) →
  (∀ name, name ∈ names b → is_Some (shipLengths b !! name)) →
  (∀ name, is_Some (shipLengths b !! name) → name ∈ names b) →
  fresh_catalog b →
  (∀ name, possShipsNumDict b !! name
           = (λ confs, Z.of_nat (length confs)) <$> possShipsDict b !! name) →
  board_wf b.
Proof.
  intros Hnd Hdom Hdom' Hfresh Hnum. split; try done.
  - intros name Hin. rewrite Hfresh, decide_True by done.
    destruct (Hdom name Hin) as [len ->]. by eexists.
  - intros name [confs Hc]. rewrite Hfresh in Hc.
    by destruct (decide (name ∈ names b)).
  - intros name confs len Hc Hl. rewrite Hfresh in Hc.
    destruct (decide (name ∈ names b)); [|done].
    rewrite Hl in Hc. simpl in Hc. by injection Hc as <-.
Qed.

Lemma NoDup_ascii_lowercase : NoDup ascii_lowercase.
Proof. apply (bool_decide_unpack _). by vm_compute. Qed.

Lemma NoDup_take_alphabet (n : nat) : NoDup (take n ascii_lowercase).
Proof.
  pose proof NoDup_ascii_lowercase as H.
  rewrite <- (take_drop n ascii_lowercase) in H.
  by apply NoDup_app in H as (? & _ & _).
Qed.

Lemma init_shipLengths_dom (ships : list Z) (name : string) :
  name ∈ take (length ships) ascii_lowercase →
  is_Some ((list_to_map (zip (take (length ships) ascii_lowercase) ships)
            : gmap string Z) !! name).
Proof.
  intros Hin. apply not_eq_None_Some. intros Hnone.
  apply not_elem_of_list_to_map in Hnone. apply Hnone.
  rewrite fst_zip; [done|]. rewrite length_take. lia.
Qed.

(** [BattleshipBoard.__init__] raises nothing, whatever the dimension and
    the ship lengths are. *)
Lemma BattleshipBoard_init_spec (d : Z) (ships : list Z) :
  ∃ b, BattleshipBoard_init d ships = Ok b
    ∧ dim b = d
    ∧ names b = take (length ships) ascii_lowercase
    ∧ shipLengths b = list_to_map (zip (take (length ships) ascii_lowercase) ships)
    ∧ fresh_catalog b
    ∧ board_wf b.
Proof.
  unfold BattleshipBoard_init.
  destruct (generateComponentLayouts_spec
    (mkBoard d (take (length ships) ascii_lowercase)
       (list_to_map (zip (take (length ships) ascii_lowercase) ships)) ∅ ∅))
    as (b & Hrun & Hd & Hn & Hs & Hfresh & Hnum).
  { simpl. apply init_shipLengths_dom. }
  simpl in *. exists b. do 5 (split; [done|]).
  apply fresh_catalog_wf; try done.
  - rewrite Hn. apply NoDup_take_alphabet.
  - rewrite Hn, Hs. apply init_shipLengths_dom.
  - rewrite Hn, Hs. intros name [len Hlen].
    apply elem_of_list_to_map_2 in Hlen. by apply elem_of_zip_l in Hlen.
Qed.

(** C4.  On a board of dimension [d], a ship of length [len] with
    [0 <= len <= d] gets a catalog of exactly [2*d*(d-len+1)] placements
    (and that number is recorded as its count); each one has exactly [len]
    tiles, which form one run along a row or a column, all inside the
    grid. *)
Theorem catalog_count_and_shape (d : Z) (ships : list Z) (b : BattleshipBoard)
    (name : string) (len : Z) :
  BattleshipBoard_init d ships = Ok b →
  shipLengths b !! name = Some len →
  0 ≤ len ≤ d →
  ∃ confs,
    possShipsDict b !! name = Some confs
    ∧ Z.of_nat (length confs) = 2 * d * (d - len + 1)
    ∧ possShipsNumDict b !! name = Some (2 * d * (d - len + 1))
    ∧ Forall (is_placement d len) confs.
Proof.
  intros Hinit Hlen Hrange.
  destruct (BattleshipBoard_init_spec d ships) as (b' & Hb' & Hd & Hn & Hs & Hfresh & Hwf).
  rewrite Hinit in Hb'. injection Hb' as <-.
  assert (Hin : name ∈ names b).
  { rewrite Hn. rewrite Hs in Hlen. apply elem_of_list_to_map_2 in Hlen.
    by apply elem_of_zip_l in Hlen. }
  exists (layouts d len).
  assert (Hdict : possShipsDict b !! name = Some (layouts d len)).
  { rewrite Hfresh, decide_True, Hlen, Hd by done. done. }
  assert (Hcount : Z.of_nat (length (layouts d len)) = 2 * d * (d - len + 1)).
  { rewrite length_layouts, !Nat2Z.inj_mul, !Z2Nat.id by lia. lia. }
  do 2 (split; [done|]).
  split.
  - rewrite (wf_num b Hwf), Hdict. simpl. by rewrite Hcount.
  - apply Forall_forall. intros conf Hconf. apply layouts_placement; [lia|done].
Qed.

(** ** Reasoning about code in [M] *)

(** Every value [m] returns satisfies [P]. *)
Definition post {A} (m : M A) (P : A → Prop) : Prop :=
  ∀ r v r', m r = Ok (v, r') → P v.

(** Every exception [m] raises satisfies [E]. *)
Definition only_raises {A} (E : exn → Prop) (m : M A) : Prop :=
  ∀ r e, m r = Raise e → E e.

Lemma post_ret {A} (a : A) (P : A → Prop) : P a → post (mret a) P.
Proof. intros HP r v r' [-> _]%M_ret_Ok. done. Qed.

Lemma post_liftR {A} (m : res A) (P : A → Prop) :
  (∀ v, m = Ok v → P v) → post (liftR m) P.
Proof. intros HP r v r' [-> _]%liftR_Ok. by apply HP. Qed.

Lemma post_bind {A B} (m : M A) (f : A → M B) (P : A → Prop) (Q : B → Prop) :
  post m P → (∀ a, P a → post (f a) Q) → post (m ≫= f) Q.
Proof.
  intros Hm Hf r v r' (a & r1 & Ha & Hv)%M_bind_Ok.
  eapply Hf; [|done]. by eapply Hm.
Qed.

Lemma post_weaken {A} (m : M A) (P Q : A → Prop) :
  post m P → (∀ a, P a → Q a) → post m Q.
Proof. intros Hm HPQ r v r' Hr. apply HPQ. by eapply Hm. Qed.

Lemma post_and {A} (m : M A) (P Q : A → Prop) :
  post m P → post m Q → post m (λ a, P a ∧ Q a).
Proof. intros HP HQ r v r' Hr. split; [by eapply HP|by eapply HQ]. Qed.

Lemma post_retry {A} (fuel : nat) (attempt : M (option A)) (P : A → Prop) :
  post attempt (λ o, ∀ v, o = Some v → P v) → post (retry fuel attempt) P.
Proof.
  intros Ha. induction fuel as [|fuel IH]; [intros r v r' [=]|].
  simpl. eapply post_bind; [exact Ha|].
  intros [v|] Hv; [apply post_ret; by apply Hv|exact IH].
Qed.

Lemma post_collect {A} (n : nat) (one : M A) (P : A → Prop) :
  post one P → post (collect n one) (λ vs, length vs = n ∧ Forall P vs).
Proof.
  intros Hone. induction n as [|n IH]; simpl.
  - apply post_ret. by split.
  - eapply post_bind; [exact Hone|]. intros v Hv.
    eapply post_bind; [exact IH|]. intros vs [Hlen Hvs].
    apply post_ret. simpl. split; [by rewrite Hlen|by constructor].
Qed.

Lemma only_raises_ret {A} E (a : A) : only_raises E (mret a).
Proof. intros r e [=]. Qed.

Lemma only_raises_liftR {A} E (m : res A) :
  (∀ e, m = Raise e → E e) → only_raises E (liftR m).
Proof. intros Hm r e Hr. apply Hm. unfold liftR in Hr. destruct m; congruence. Qed.

Lemma only_raises_bind {A B} E (m : M A) (f : A → M B) (P : A → Prop) :
  only_raises E m → post m P → (∀ a, P a → only_raises E (f a)) →
  only_raises E (m ≫= f).
Proof.
  intros Hm HP Hf r e Hr. unfold mbind, M_mbind, M_bind in Hr.
  destruct (m r) as [[a r1]|e'|] eqn:Hmr; [| |done].
  - eapply Hf; [|done]. by eapply HP.
  - injection Hr as <-. by eapply Hm.
Qed.

Lemma only_raises_retry {A} E (fuel : nat) (attempt : M (option A)) :
  only_raises E attempt → only_raises E (retry fuel attempt).
Proof.
  intros Ha. induction fuel as [|fuel IH]; [intros r e [=]|].
  simpl. apply (only_raises_bind E attempt _ (λ _, True)).
  - exact Ha.
  - intros r v r' _. exact I.
  - intros [v|] _; [apply only_raises_ret|exact IH].
Qed.

Lemma only_raises_collect {A} E (n : nat) (one : M A) :
  only_raises E one → only_raises E (collect n one).
Proof.
  intros Hone. induction n as [|n IH]; simpl; [apply only_raises_ret|].
  apply (only_raises_bind E one _ (λ _, True)); [exact Hone|by intros r v r' _|].
  intros v _.
  apply (only_raises_bind E (collect n one) _ (λ _, True)); [exact IH|by intros r w r' _|].
  intros vs _. apply only_raises_ret.
Qed.

(** A loop whose attempts never succeed never returns. *)
Lemma retry_never {A} (fuel : nat) (attempt : M (option A)) r :
  post attempt (λ o, o = None) → only_raises (λ _, False) attempt →
  retry fuel attempt r = OutOfFuel.
Proof.
  intros Hnone Hraise. revert r. induction fuel as [|fuel IH]; intros r; [done|].
  simpl. unfold mbind, M_mbind, M_bind.
  destruct (attempt r) as [[o r1]|e|] eqn:Ha; [| |done].
  - rewrite (Hnone _ _ _ Ha). apply IH.
  - destruct (Hraise _ _ Ha).
Qed.

(** ** Indexing and drawing *)

Lemma index_elem_of {A} (l : list A) (i : Z) (a : A) : index l i = Ok a → a ∈ l.
Proof.
  unfold index. repeat case_decide; try done;
    destruct (l !! _) eqn:Hl; try done; intros [= ->]; by eapply list_elem_of_lookup_2.
Qed.

Lemma index_in_range {A} (l : list A) (i : Z) :
  0 ≤ i < Z.of_nat (length l) → ∃ a, index l i = Ok a.
Proof.
  intros Hi. unfold index. destruct (decide (0 ≤ i)); [|lia].
  destruct (decide (0 ≤ i)); [|lia].
  destruct (lookup_lt_is_Some_2 l (Z.to_nat i)) as [a ->]; [lia|]. by eexists.
Qed.

Lemma index_raises {A} (l : list A) (i : Z) (e : exn) :
  index l i = Raise e → e = IndexError.
Proof.
  unfold index. repeat case_decide; try destruct (l !! _); congruence.
Qed.

Lemma index_nil {A} (i : Z) : index (@nil A) i = Raise IndexError.
Proof. unfold index. repeat case_decide; done. Qed.

Lemma random_index_range (n : Z) r i r' :
  0 < n → random_index n r = Ok (i, r') → 0 ≤ i < n.
Proof.
  unfold random_index. intros Hn [= <- _].
  set (p := Z.of_nat (num (r 0%nat))).
  set (q := Z.of_nat (num (r 0%nat) + gap (r 0%nat) + 1)).
  assert (0 ≤ p < q) by lia.
  rewrite Z.quot_div_nonneg by lia. split.
  - apply Z.div_pos; lia.
  - apply Z.div_lt_upper_bound; [lia|]. nia.
Qed.

Lemma random_index_zero r i r' : random_index 0 r = Ok (i, r') → i = 0.
Proof. unfold random_index. intros [= <- _]. done. Qed.

(** A drawn placement comes from the candidate list of its ship. *)
Definition candidate_of (b : BattleshipBoard) (name : string) (k : gset cell) : Prop :=
  ∃ confs, possShipsDict b !! name = Some confs ∧ k ∈ confs.

Lemma draw_placement_post (b : BattleshipBoard) (name : string) :
  post (draw_placement b name) (candidate_of b name).
Proof.
  intros r k r'. unfold draw_placement.
  intros (confs & r1 & [Hc%getitem_Ok ->]%liftR_Ok & Hr)%M_bind_Ok.
  apply M_bind_Ok in Hr as (n & r2 & _ & Hr).
  apply M_bind_Ok in Hr as (i & r3 & _ & [Hk _]%liftR_Ok).
  exists confs. split; [done|by eapply index_elem_of].
Qed.

Lemma draw_placement_raises (b : BattleshipBoard) (name : string) :
  board_wf b → name ∈ names b →
  only_raises (λ e, e = IndexError ∧ possShipsDict b !! name = Some []) (draw_placement b name).
Proof.
  intros Hwf Hin r e. unfold draw_placement, mbind, M_mbind, M_bind.
  destruct (wf_dict b Hwf name Hin) as [confs Hc].
  pose proof (wf_num b Hwf name) as Hn. rewrite Hc in Hn. simpl in Hn.
  unfold getitem. rewrite Hc, Hn. simpl.
  unfold liftR. destruct (index confs _) as [k|e'|] eqn:Hk; [done| |done].
  intros [= <-]. split; [by eapply index_raises|].
  destruct confs as [|c confs]; [done|]. exfalso.
  edestruct (index_in_range (c :: confs)) as [a Ha]; [|rewrite Ha in Hk; done].
  eapply (random_index_range _ r); [simpl; lia|reflexivity].
Qed.

Lemma draw_placement_empty (b : BattleshipBoard) (name : string) r :
  board_wf b → possShipsDict b !! name = Some [] →
  draw_placement b name r = Raise IndexError.
Proof.
  intros Hwf Hc. unfold draw_placement, mbind, M_mbind, M_bind.
  pose proof (wf_num b Hwf name) as Hn. rewrite Hc in Hn. simpl in Hn.
  unfold getitem. rewrite Hc, Hn. done.
Qed.

(** ** Disjoint placements *)

Fixpoint pairwise_disjoint (ks : list (gset cell)) : Prop :=
  match ks with
  | [] => True
  | k :: ks' => k ## ⋃ ks' ∧ pairwise_disjoint ks'
  end.

Lemma pairwise_disjoint_app (l1 l2 : list (gset cell)) :
  pairwise_disjoint (l1 ++ l2)
  ↔ pairwise_disjoint l1 ∧ pairwise_disjoint l2 ∧ ⋃ l1 ## ⋃ l2.
Proof.
  induction l1 as [|k l1 IH]; simpl.
  - set_solver.
  - rewrite IH, union_list_app_L. set_solver.
Qed.

Lemma pairwise_disjoint_lookup (ks : list (gset cell)) :
  pairwise_disjoint ks ↔
  ∀ i j a c, i ≠ j → ks !! i = Some a → ks !! j = Some c → a ## c.
Proof.
  induction ks as [|k ks IH]; simpl.
  - split; [|done]. intros _ i j a c _ Hi. by rewrite lookup_nil in Hi.
  - rewrite IH. split.
    + intros [Hk Hks] [|i] [|j] a c Hij Hi Hj; simpl in *; simplify_eq.
      * apply list_elem_of_lookup_2 in Hj. intros x Hx Hc. apply (Hk x Hx).
        apply elem_of_union_list. eauto.
      * apply list_elem_of_lookup_2 in Hi. intros x Hx Hc. apply (Hk x Hc).
        apply elem_of_union_list. eauto.
      * eapply (Hks i j); eauto.
    + intros H. split.
      * intros x Hx (c & Hc & Hxc)%elem_of_union_list.
        apply list_elem_of_lookup in Hc as [j Hj].
        by apply (H 0%nat (S j) k c ltac:(lia) eq_refl Hj x).
      * intros i j a c Hij Hi Hj. apply (H (S i) (S j)); auto.
Qed.

Lemma size_union_list (ks : list (gset cell)) :
  pairwise_disjoint ks → size (⋃ ks) = sum_list (size <$> ks).
Proof.
  induction ks as [|k ks IH]; [intros _; apply size_empty|].
  intros [Hk Hks]. rewrite union_list_cons, fmap_cons, size_union by done.
  simpl. by rewrite IH.
Qed.

Lemma pairwise_disjoint_perm (l1 l2 : list (gset cell)) :
  l1 ≡ₚ l2 → pairwise_disjoint l1 → pairwise_disjoint l2.
Proof.
  induction 1 as [|k l1 l2 Hp IH|k1 k2 l|l1 l2 l3 H1 IH1 H2 IH2]; simpl; auto.
  - intros [Hk Hl]. split; [|auto]. by rewrite <- Hp.
  - set_solver.
Qed.

(** ** One attempt of the sampler *)

Lemma place_rest_post (b : BattleshipBoard) (rest : list string)
    (l : list (gset cell)) (t : gset cell) :
  post (place_rest b rest l t)
    (λ o, ∀ lt, o = Some lt →
       ∃ ks, lt.1 = l ++ ks ∧ lt.2 = t ∪ ⋃ ks
         ∧ Forall2 (candidate_of b) rest ks
         ∧ pairwise_disjoint ks ∧ t ## ⋃ ks).
Proof.
  revert l t. induction rest as [|name rest IH]; intros l t; simpl.
  - apply post_ret. intros lt [= <-]. exists []. simpl.
    rewrite app_nil_r. repeat split; [set_solver|constructor|set_solver].
  - eapply post_bind; [apply draw_placement_post|]. intros k Hk.
    case_decide as Hov; [apply post_ret; by intros ? [=]|].
    eapply post_weaken; [apply IH|]. simpl.
    intros o Ho [l' t'] ->.
    destruct (Ho (l', t') eq_refl) as (ks & Hl & Ht & Hks & Hd & Hdt). simpl in *. subst.
    exists (k :: ks). rewrite union_list_cons, <- app_assoc. simpl.
    repeat split; [set_solver|by constructor|set_solver|done|].
    set_solver.
Qed.

Lemma place_rest_raises (b : BattleshipBoard) (rest : list string)
    (l : list (gset cell)) (t : gset cell) :
  board_wf b → Forall (λ name, name ∈ names b) rest →
  only_raises (λ e, e = IndexError ∧ ∃ name, name ∈ rest ∧ possShipsDict b !! name = Some [])
    (place_rest b rest l t).
Proof.
  intros Hwf. revert l t. induction rest as [|name rest IH]; intros l t Hin; simpl.
  - intros r e [=].
  - apply Forall_cons in Hin as [Hname Hrest].
    apply (only_raises_bind _ _ _ (λ _, True)).
    + intros r e He. apply draw_placement_raises in He as [-> Hc]; [|done..].
      split; [done|]. exists name. split; [set_solver|done].
    + by intros r v r' _.
    + intros k _. case_decide; [intros r e [=]|].
      intros r e He. apply IH in He as [-> (n & Hn & Hc)]; [|done].
      split; [done|]. exists n. split; [set_solver|done].
Qed.

(** An attempt cannot succeed when one of the ships has no candidate
    left. *)
Lemma place_rest_stuck (b : BattleshipBoard) (rest : list string)
    (l : list (gset cell)) (t : gset cell) (name : string) :
  name ∈ rest → possShipsDict b !! name = Some [] →
  post (place_rest b rest l t) (λ o, o = None).
Proof.
  intros Hin Hc r o r' Hr. destruct o as [[l' t']|]; [|done].
  destruct (place_rest_post b rest l t r _ r' Hr (l', t') eq_refl)
    as (ks & _ & _ & Hks & _).
  apply list_elem_of_lookup in Hin as [i Hi].
  destruct (Forall2_lookup_l _ _ _ _ _ Hks Hi) as (k & _ & confs & Hconfs & Hk).
  rewrite Hc in Hconfs. injection Hconfs as <-. by apply elem_of_nil in Hk.
Qed.

(** ** List comprehensions *)

Lemma comprehension_post {A B} (xs : list A) (body : A → res (option B))
    (P : A → Prop) `{!∀ x, Decision (P x)} (g : A → B → Prop) (ys : list B) :
  comprehension xs body = Ok ys →
  (∀ x o, x ∈ xs → body x = Ok o →
     match o with Some v => P x ∧ g x v | None => ¬ P x end) →
  Forall2 g (filter P xs) ys.
Proof.
  revert ys. induction xs as [|x xs IH]; intros ys Hrun Hbody; simpl in Hrun.
  - injection Hrun as <-. constructor.
  - apply res_bind_Ok in Hrun as (o & Ho & Hrun).
    apply res_bind_Ok in Hrun as (rest & Hrest & [= <-]).
    specialize (IH rest Hrest (λ x' o' Hx', Hbody x' o' (list_elem_of_further _ _ _ Hx'))).
    specialize (Hbody x o (list_elem_of_here _ _) Ho).
    destruct o as [v|].
    + destruct Hbody as [HP Hg]. rewrite filter_cons_True by done. by constructor.
    + by rewrite filter_cons_False.
Qed.

Lemma comprehension_raises {A B} (xs : list A) (body : A → res (option B)) (e : exn) :
  comprehension xs body = Raise e → ∃ x, x ∈ xs ∧ body x = Raise e.
Proof.
  induction xs as [|x xs IH]; simpl; [done|].
  destruct (body x) as [o|e'|] eqn:Hb; simpl; [| |done].
  - destruct (comprehension xs body) as [rest|e'|]; simpl; [done| |done].
    intros [= ->]. destruct IH as (x' & Hx' & Hb'); [done|].
    exists x'. split; [by right|done].
  - intros [= ->]. exists x. split; [by left|done].
Qed.

Lemma comprehension_fuel {A B} (xs : list A) (body : A → res (option B)) :
  (∀ x, body x ≠ OutOfFuel) → comprehension xs body ≠ OutOfFuel.
Proof.
  intros Hb. induction xs as [|x xs IH]; simpl; [done|].
  specialize (Hb x). destruct (body x) as [o|e'|]; simpl; [|done..].
  destruct (comprehension xs body); done.
Qed.

(** ** The sampler *)

(** The names [randomBoard] works with: the ships of the board when
    [initial] holds or no names are passed, the passed names otherwise. *)
Definition chosen_names (b : BattleshipBoard) (initial : bool)
    (names_arg : option (list string)) : list string :=
  if initial || bool_decide (default [] names_arg = []) then names b
  else default [] names_arg.

(** The ships with a single candidate left do not overlap. *)
Definition fixed_disjoint (b : BattleshipBoard) : Prop :=
  ∀ n1 n2 k1 k2, n1 ≠ n2 →
    possShipsDict b !! n1 = Some [k1] → possShipsDict b !! n2 = Some [k2] → k1 ## k2.

(** A successful draw: one candidate per chosen ship, no two of them
    overlapping, [t] their union; the placements stand in the order of the
    names unless the sampler moved the fixed ships to the front. *)
Definition sample_ok (b : BattleshipBoard) (chosen : list string)
    (l : list (gset cell)) (t : gset cell) : Prop :=
  ∃ nms, nms ≡ₚ chosen
    ∧ Forall2 (candidate_of b) nms l
    ∧ pairwise_disjoint l
    ∧ t = ⋃ l
    ∧ ((∀ name n, name ∈ chosen → possShipsNumDict b !! name = Some n → n ≠ 1) → nms = chosen).

Lemma randomBoard_preamble (b : BattleshipBoard) (initial : bool)
    (names_arg : option (list string)) :
  (if initial || bool_decide (default [] names_arg = []) then
     match names b with
     | [] => Raise ValueError
     | first_name :: rest_names => Ok (first_name, rest_names, names b)
     end
   else
     match default [] names_arg with
     | [] => Raise ValueError
     | first_name :: rest_names => Ok (first_name, rest_names, default [] names_arg)
     end)
  = match chosen_names b initial names_arg with
    | [] => Raise ValueError
    | first_name :: rest_names =>
        Ok (first_name, rest_names, chosen_names b initial names_arg)
    end.
Proof. unfold chosen_names. by destruct (initial || _). Qed.

Lemma randomBoard_length (fuel : nat) (b : BattleshipBoard) (initial : bool)
    (names_arg : option (list string)) (batch_size : Z) :
  post (randomBoard fuel b initial names_arg batch_size)
    (λ results, length results = Z.to_nat batch_size).
Proof.
  unfold randomBoard.
  apply (post_bind _ _ (λ _, True)); [by intros ????|]. intros [[first rest] names1] _.
  apply (post_bind _ _ (λ _, True)); [by intros ????|]. intros n_first _.
  case_decide.
  - apply (post_bind _ _ (λ _, True)); [by intros ????|]. intros start_l _.
    apply (post_bind _ _ (λ _, True)); [by intros ????|]. intros rest' _.
    apply (post_bind _ _ (λ _, True)); [by intros ????|]. intros start_t _.
    eapply post_weaken; [apply (post_collect _ _ (λ _, True)); by intros ????|].
    by intros results [? _].
  - eapply post_weaken; [apply (post_collect _ _ (λ _, True)); by intros ????|].
    by intros results [? _].
Qed.

Lemma fixed_start (b : BattleshipBoard) (chosen : list string) (start_l : list (gset cell)) :
  board_wf b →
  comprehension chosen (λ name,
      n ← getitem (possShipsNumDict b) name;
      if decide (n = 1) then
        confs ← getitem (possShipsDict b) name;
        k ← index confs 0;
        Ok (Some k)
      else Ok None) = Ok start_l →
  Forall2 (λ name k, possShipsDict b !! name = Some [k])
    (filter (λ name, possShipsNumDict b !! name = Some 1) chosen) start_l.
Proof.
  intros Hwf Hrun. eapply comprehension_post; [exact Hrun|].
  intros name o _ Hbody.
  apply res_bind_Ok in Hbody as (n & Hn%getitem_Ok & Hbody).
  case_decide as Hn1.
  - apply res_bind_Ok in Hbody as (confs & Hc%getitem_Ok & Hbody).
    apply res_bind_Ok in Hbody as (k & Hk & [= <-]).
    subst n. split; [done|].
    pose proof (wf_num b Hwf name) as Hnum. rewrite Hn, Hc in Hnum. simpl in Hnum.
    destruct confs as [|c [|c' confs]]; simpl in Hnum; [done| |injection Hnum; lia].
    unfold index in Hk. simpl in Hk. by injection Hk as ->.
  - injection Hbody as <-. congruence.
Qed.

Lemma fixed_rest (b : BattleshipBoard) (chosen rest' : list string) :
  comprehension chosen (λ name,
      n ← getitem (possShipsNumDict b) name;
      Ok (if decide (n ≠ 1) then Some name else None)) = Ok rest' →
  rest' = filter (λ name, ¬ possShipsNumDict b !! name = Some 1) chosen.
Proof.
  intros Hrun.
  assert (Forall2 eq (filter (λ name, ¬ possShipsNumDict b !! name = Some 1) chosen) rest')
    as H; [|by apply list_eq_Forall2 in H].
  apply (comprehension_post _ _ _ _ _ Hrun).
  intros name o _ Hbody.
  apply res_bind_Ok in Hbody as (n & Hn%getitem_Ok & [= <-]).
  case_decide; [split; [congruence|done]|]. intros Hne. apply Hne. congruence.
Qed.

Lemma fixed_start_disjoint (b : BattleshipBoard) (nms : list string)
    (start_l : list (gset cell)) :
  fixed_disjoint b → NoDup nms →
  Forall2 (λ name k, possShipsDict b !! name = Some [k]) nms start_l →
  pairwise_disjoint start_l.
Proof.
  intros Hfd Hnd Hall. apply pairwise_disjoint_lookup.
  intros i j a c Hij Hi Hj.
  destruct (Forall2_lookup_r _ _ _ _ _ Hall Hi) as (n1 & Hn1 & Ha).
  destruct (Forall2_lookup_r _ _ _ _ _ Hall Hj) as (n2 & Hn2 & Hc).
  apply (Hfd n1 n2); [|done..].
  intros ->. apply Hij. by eapply NoDup_lookup.
Qed.

(** What the loop [while 1] of the second branch is retried on. *)
Lemma first_attempt_post (b : BattleshipBoard) (first : string) (rest : list string) :
  post (t ← draw_placement b first; place_rest b rest [t] t)
    (λ o, ∀ lt, o = Some lt →
       Forall2 (candidate_of b) (first :: rest) lt.1
       ∧ pairwise_disjoint lt.1 ∧ lt.2 = ⋃ lt.1).
Proof.
  eapply post_bind; [apply draw_placement_post|]. intros t Ht.
  eapply post_weaken; [apply place_rest_post|]. simpl.
  intros o Ho [l' t'] ->.
  destruct (Ho (l', t') eq_refl) as (ks & Hl & Hu & Hks & Hd & Hdt). simpl in *. subst.
  repeat split; [by constructor|done..].
Qed.

Lemma randomBoard_post (fuel : nat) (b : BattleshipBoard) (initial : bool)
    (names_arg : option (list string)) (batch_size : Z) :
  board_wf b → fixed_disjoint b → NoDup (chosen_names b initial names_arg) →
  post (randomBoard fuel b initial names_arg batch_size)
    (Forall (λ out, ∃ lt, out = l_if_initial_else_t initial lt
                     ∧ sample_ok b (chosen_names b initial names_arg) lt.1 lt.2)).
Proof.
  intros Hwf Hfd Hnd. unfold randomBoard. rewrite randomBoard_preamble.
  remember (chosen_names b initial names_arg) as chosen eqn:Hchosen. clear Hchosen.
  eapply post_bind; [apply post_liftR; intros v Hv; exact Hv|].
  intros [[first rest] names1] Hpre. simpl.
  assert (names1 = chosen ∧ chosen = first :: rest) as [-> Hch].
  { destruct chosen; [done|]. by injection Hpre as <- <- <-. }
  clear Hpre.
  eapply post_bind; [apply post_liftR; intros v Hv; exact Hv|].
  intros n_first Hnf%getitem_Ok. simpl. case_decide as Hn1.
  - subst n_first.
    eapply post_bind; [apply post_liftR; intros v Hv; exact Hv|]. intros start_l Hstart.
    simpl in Hstart. apply fixed_start in Hstart; [|done].
    eapply post_bind; [apply post_liftR; intros v Hv; exact Hv|]. intros rest'' Hrest.
    simpl in Hrest. apply fixed_rest in Hrest. subst rest''.
    eapply post_bind; [apply post_liftR; intros v Hv; exact Hv|]. intros start_t Hst.
    simpl in Hst.
    assert (start_t = ⋃ start_l) as ->.
    { destruct start_l; simpl in Hst; [done|]. by injection Hst as <-. }
    assert (Hpd : pairwise_disjoint start_l).
    { eapply fixed_start_disjoint; [done| |done]. by apply NoDup_filter. }
    eapply post_weaken; [apply post_collect|by intros results [_ ?]].
    eapply post_bind; [apply post_retry, place_rest_post|]. simpl.
    intros [l' t'] Hlt. apply post_ret. exists (l', t'). split; [done|].
    destruct Hlt as (ks & Hl & Hu & Hks & Hd & Hdt). simpl in *. subst l' t'.
    exists (filter (λ name, possShipsNumDict b !! name = Some 1) chosen
            ++ filter (λ name, ¬ possShipsNumDict b !! name = Some 1) chosen).
    split; [apply filter_app_complement|]. split.
    { apply Forall2_app; [|done]. eapply Forall2_impl; [exact Hstart|].
      intros name k Hk. exists [k]. split; [done|by left]. }
    split; [by apply pairwise_disjoint_app|]. split; [by rewrite union_list_app_L|].
    intros Hno. exfalso. eapply (Hno first); [rewrite Hch; by left|done|done].
  - eapply post_weaken; [apply post_collect|by intros results [_ ?]].
    eapply post_bind; [apply post_retry, first_attempt_post|]. simpl.
    intros lt Hlt. apply post_ret. exists lt. split; [done|].
    destruct Hlt as (Hall & Hpd & Hu). exists chosen.
    rewrite <- Hch in Hall. by repeat split.
Qed.

Lemma post_collect_never {A} (n : nat) (one : M A) :
  post one (λ _, False) → (0 < n)%nat → post (collect n one) (λ _, False).
Proof.
  intros Hone Hn r vs r' Hr.
  destruct (post_collect n one _ Hone r vs r' Hr) as [Hlen Hall].
  destruct vs as [|v vs]; [simpl in Hlen; lia|]. by apply Forall_cons in Hall as [? _].
Qed.

(** The sampler cannot return a layout when one of the chosen ships has
    no candidate. *)
Lemma randomBoard_stuck (fuel : nat) (b : BattleshipBoard) (initial : bool)
    (names_arg : option (list string)) (batch_size : Z) (name : string) :
  board_wf b → name ∈ chosen_names b initial names_arg →
  possShipsDict b !! name = Some [] → 0 < batch_size →
  post (randomBoard fuel b initial names_arg batch_size) (λ _, False).
Proof.
  intros Hwf Hin Hempty Hbs. unfold randomBoard. rewrite randomBoard_preamble.
  remember (chosen_names b initial names_arg) as chosen eqn:Hchosen. clear Hchosen.
  eapply post_bind; [apply post_liftR; intros v Hv; exact Hv|].
  intros [[first rest] names1] Hpre. simpl.
  assert (names1 = chosen ∧ chosen = first :: rest) as [-> Hch].
  { destruct chosen; [done|]. by injection Hpre as <- <- <-. }
  clear Hpre.
  eapply post_bind; [apply post_liftR; intros v Hv; exact Hv|].
  intros n_first Hnf%getitem_Ok. simpl. case_decide as Hn1.
  - eapply post_bind; [apply post_liftR; intros v Hv; exact Hv|]. intros start_l _.
    eapply post_bind; [apply post_liftR; intros v Hv; exact Hv|]. intros rest'' Hrest.
    simpl in Hrest. apply fixed_rest in Hrest. subst rest''.
    eapply post_bind; [apply post_liftR; intros v Hv; exact Hv|]. intros start_t _.
    apply post_collect_never; [|lia].
    apply (post_bind _ _ (λ _, False)); [|by intros ? []].
    apply post_retry. eapply post_weaken; [eapply (place_rest_stuck _ _ _ _ name)|].
    + apply list_elem_of_filter. split; [|done].
      pose proof (wf_num b Hwf name) as Hn. rewrite Hempty in Hn. simpl in Hn.
      rewrite Hn. by intros [=].
    + done.
    + by intros o -> v.
  - apply post_collect_never; [|lia].
    apply (post_bind _ _ (λ _, False)); [|by intros ? []].
    apply post_retry.
    eapply post_bind; [apply draw_placement_post|]. intros t (confs & Hc & Ht).
    rewrite Hch in Hin. apply elem_of_cons in Hin as [->|Hin].
    + rewrite Hempty in Hc. injection Hc as <-. by apply elem_of_nil in Ht.
    + eapply post_weaken; [by eapply (place_rest_stuck _ _ _ _ name)|]. by intros o -> v.
Qed.

Lemma randomBoard_raises (fuel : nat) (b : BattleshipBoard) (initial : bool)
    (names_arg : option (list string)) (batch_size : Z) :
  board_wf b → Forall (λ name, name ∈ names b) (chosen_names b initial names_arg) →
  only_raises
    (λ e, (e = ValueError ∧ chosen_names b initial names_arg = [])
          ∨ (e = IndexError ∧ ∃ name, name ∈ chosen_names b initial names_arg
                                ∧ possShipsDict b !! name = Some []))
    (randomBoard fuel b initial names_arg batch_size).
Proof.
  intros Hwf Hsub. unfold randomBoard. rewrite randomBoard_preamble.
  remember (chosen_names b initial names_arg) as chosen eqn:Hchosen. clear Hchosen.
  assert (Hkeys : ∀ name, name ∈ chosen →
            ∃ confs, possShipsDict b !! name = Some confs
              ∧ possShipsNumDict b !! name = Some (Z.of_nat (length confs))).
  { intros name Hin. rewrite Forall_forall in Hsub.
    destruct (wf_dict b Hwf name (Hsub name Hin)) as [confs Hc].
    exists confs. split; [done|]. by rewrite (wf_num b Hwf), Hc. }
  eapply only_raises_bind;
    [|apply post_liftR; intros v Hv; exact Hv|].
  { apply only_raises_liftR. intros e He. left. destruct chosen; [|done].
    by injection He as <-. }
  intros [[first rest] names1] Hpre. simpl.
  assert (names1 = chosen ∧ chosen = first :: rest) as [-> Hch].
  { destruct chosen; [done|]. by injection Hpre as <- <- <-. }
  clear Hpre.
  destruct (Hkeys first) as (confs1 & Hc1 & Hn1); [rewrite Hch; by left|].
  eapply only_raises_bind; [|apply post_liftR; intros v Hv; exact Hv|].
  { apply only_raises_liftR. unfold getitem. by rewrite Hn1. }
  intros n_first Hnf%getitem_Ok. simpl. case_decide as Hone.
  - eapply only_raises_bind; [|apply post_liftR; intros v Hv; exact Hv|].
    { apply only_raises_liftR. intros e (name & Hin & He)%comprehension_raises.
      exfalso. destruct (Hkeys name Hin) as (confs & Hc & Hn).
      unfold getitem in He. rewrite Hn, Hc in He. simpl in He.
      case_decide as Hlen; [|done]. simpl in He.
      destruct confs as [|c confs]; [simpl in Hlen; lia|]. done. }
    intros start_l Hstart. simpl in Hstart. apply fixed_start in Hstart; [|done].
    eapply only_raises_bind; [|apply post_liftR; intros v Hv; exact Hv|].
    { apply only_raises_liftR. intros e (name & Hin & He)%comprehension_raises.
      exfalso. destruct (Hkeys name Hin) as (confs & Hc & Hn).
      unfold getitem in He. rewrite Hn in He. done. }
    intros rest'' Hrest. simpl in Hrest. apply fixed_rest in Hrest. subst rest''.
    eapply only_raises_bind; [|apply post_liftR; intros v Hv; exact Hv|].
    { apply only_raises_liftR. intros e He. exfalso.
      destruct start_l; [|done]. apply Forall2_nil_inv_r in Hstart.
      assert (first ∈ filter (λ name, possShipsNumDict b !! name = Some 1) chosen) as Hf.
      { apply list_elem_of_filter. split; [congruence|rewrite Hch; by left]. }
      rewrite Hstart in Hf. by apply elem_of_nil in Hf. }
    intros start_t _. apply only_raises_collect.
    eapply (only_raises_bind _ _ _ (λ _, True)); [|by intros ????|intros; apply only_raises_ret].
    apply only_raises_retry. intros r e He.
    apply place_rest_raises in He as [-> (name & Hin & Hc)]; [|done|].
    + right. split; [done|]. exists name. split; [|done].
      by apply list_elem_of_filter in Hin as [_ ?].
    + apply Forall_forall. intros name [_ Hin]%list_elem_of_filter.
      rewrite Forall_forall in Hsub. by apply Hsub.
  - apply only_raises_collect.
    eapply (only_raises_bind _ _ _ (λ _, True)); [|by intros ????|intros; apply only_raises_ret].
    apply only_raises_retry.
    rewrite Forall_forall in Hsub.
    eapply (only_raises_bind _ _ _ (λ _, True)); [|by intros ????|].
    + intros r e He. apply draw_placement_raises in He as [-> Hc]; [|done|].
      * right. split; [done|]. exists first. split; [rewrite Hch; by left|done].
      * apply Hsub. rewrite Hch. by left.
    + intros t _ r e He. apply place_rest_raises in He as [-> (name & Hin & Hc)]; [|done|].
      * right. split; [done|]. exists name. split; [rewrite Hch; by right|done].
      * apply Forall_forall. intros name Hin. apply Hsub. rewrite Hch. by right.
Qed.

(** ** Ship lengths and occupied tiles *)

Definition sum_lengths (b : BattleshipBoard) (nms : list string) : Z :=
  foldr (λ name acc, acc + default 0 (shipLengths b !! name)) 0 nms.

Definition lengths_nonneg (b : BattleshipBoard) : Prop :=
  map_Forall (λ _ len, 0 ≤ len) (shipLengths b).

Lemma sum_lengths_perm (b : BattleshipBoard) (l1 l2 : list string) :
  l1 ≡ₚ l2 → sum_lengths b l1 = sum_lengths b l2.
Proof.
  intros Hp. unfold sum_lengths.
  apply (foldr_permutation_proper (=)); [solve_proper|intros; lia|done].
Qed.

Lemma sum_values_names (b : BattleshipBoard) :
  board_wf b → sum_values (shipLengths b) = sum_lengths b (names b).
Proof.
  intros Hwf. unfold sum_values, sum_lengths. rewrite map_fold_foldr.
  assert (Hperm : map_to_list (shipLengths b)
            ≡ₚ (λ name, (name, default 0 (shipLengths b !! name))) <$> names b).
  { apply NoDup_Permutation.
    - apply NoDup_map_to_list.
    - apply NoDup_fmap_2; [by intros ?? [= ?]|apply (wf_nodup b Hwf)].
    - intros [k v]. rewrite elem_of_map_to_list, list_elem_of_fmap. split.
      + intros Hk. exists k. rewrite Hk. split; [done|].
        apply (wf_lengths_dom b Hwf). by eexists.
      + intros (name & [= -> ->] & Hin).
        by destruct (wf_lengths b Hwf name Hin) as [len ->]. }
  etrans.
  { apply (foldr_permutation_proper (=)); [solve_proper|intros [??] [??] ?; simpl; lia|].
    exact Hperm. }
  by rewrite foldr_fmap.
Qed.

Lemma candidates_cells (b : BattleshipBoard) (nms : list string) (ks : list (gset cell)) :
  board_wf b → lengths_nonneg b → Forall (λ name, name ∈ names b) nms →
  Forall2 (candidate_of b) nms ks →
  Z.of_nat (sum_list (size <$> ks)) = sum_lengths b nms.
Proof.
  intros Hwf Hnn Hsub Hall. induction Hall as [|name k nms ks Hk Hall IH]; [done|].
  apply Forall_cons in Hsub as [Hin Hsub]. specialize (IH Hsub).
  rewrite fmap_cons. change (Z.of_nat (size k + sum_list (size <$> ks))
    = sum_lengths b nms + default 0 (shipLengths b !! name)).
  rewrite Nat2Z.inj_add, IH.
  destruct Hk as (confs & Hc & Hk).
  destruct (wf_lengths b Hwf name Hin) as [len Hlen].
  rewrite Hlen. simpl.
  rewrite (layouts_size (dim b) len k); [|by eapply (wf_within b Hwf)].
  specialize (Hnn name len Hlen). simpl in Hnn. lia.
Qed.

Lemma sample_ok_size (b : BattleshipBoard) (chosen : list string)
    (l : list (gset cell)) (t : gset cell) :
  board_wf b → lengths_nonneg b → Forall (λ name, name ∈ names b) chosen →
  sample_ok b chosen l t → Z.of_nat (size t) = sum_lengths b chosen.
Proof.
  intros Hwf Hnn Hsub (nms & Hperm & Hall & Hpd & -> & _).
  rewrite size_union_list by done.
  rewrite (candidates_cells b nms) by (try done; by rewrite Hperm).
  by apply sum_lengths_perm.
Qed.

(** ** Fresh boards *)

Lemma fresh_even (b : BattleshipBoard) (name : string) (confs : list (gset cell)) :
  fresh_catalog b → possShipsDict b !! name = Some confs → length confs ≠ 1%nat.
Proof.
  intros Hfresh Hc. rewrite Hfresh in Hc. case_decide; [|done].
  destruct (shipLengths b !! name) as [len|]; [|done].
  injection Hc as <-. rewrite length_layouts. lia.
Qed.

Lemma fresh_fixed_disjoint (b : BattleshipBoard) : fresh_catalog b → fixed_disjoint b.
Proof.
  intros Hfresh n1 n2 k1 k2 _ H1 _. by apply fresh_even in H1.
Qed.

Lemma fresh_no_single (b : BattleshipBoard) (name : string) (n : Z) :
  board_wf b → fresh_catalog b → possShipsNumDict b !! name = Some n → n ≠ 1.
Proof.
  intros Hwf Hfresh Hn. rewrite (wf_num b Hwf) in Hn.
  destruct (possShipsDict b !! name) as [confs|] eqn:Hc; [|done].
  injection Hn as <-. apply fresh_even in Hc; [|done]. lia.
Qed.

Lemma fresh_too_long (b : BattleshipBoard) (name : string) (len : Z) :
  board_wf b → fresh_catalog b → shipLengths b !! name = Some len → dim b < len →
  possShipsDict b !! name = Some [].
Proof.
  intros Hwf Hfresh Hlen Hd. rewrite Hfresh, decide_True, Hlen.
  - simpl. by rewrite layouts_empty.
  - apply (wf_lengths_dom b Hwf). by eexists.
Qed.

(** The fleets that [randomBoard(initial=True)] draws on a fresh board. *)
Lemma fresh_fleets (fuel : nat) (b : BattleshipBoard) (names_arg : option (list string))
    (batch_size : Z) :
  board_wf b → fresh_catalog b →
  post (randomBoard fuel b true names_arg batch_size)
    (Forall (λ fleet, Forall2 (candidate_of b) (names b) fleet ∧ pairwise_disjoint fleet)).
Proof.
  intros Hwf Hfresh. eapply post_weaken.
  - apply randomBoard_post; [done|by apply fresh_fixed_disjoint|apply (wf_nodup b Hwf)].
  - intros fleets Hall. eapply Forall_impl; [exact Hall|]. simpl.
    intros fleet ([l t] & -> & nms & Hperm & Hcand & Hpd & _ & Hsame). simpl in *.
    rewrite Hsame in Hcand; [done|].
    intros name n _ Hn. by eapply fresh_no_single.
Qed.

(** C3.  On a freshly enumerated board whose ship lengths are not
    negative, every fleet that [randomBoard(initial=True)] returns holds
    one placement for each ship of the board, in the order of the ships;
    no two of them share a tile, and together they cover as many tiles as
    the ship lengths add up to. *)
Theorem fleet_disjoint_and_full (d : Z) (ships : list Z) (b : BattleshipBoard)
    (fuel : nat) (names_arg : option (list string)) (batch_size : Z)
    (rnd rnd' : rng) (fleets : list (list (gset cell))) :
  BattleshipBoard_init d ships = Ok b →
  lengths_nonneg b →
  randomBoard fuel b true names_arg batch_size rnd = Ok (fleets, rnd') →
  Forall (λ fleet,
      Forall2 (λ name k, ∃ len, shipLengths b !! name = Some len ∧ is_placement d len k)
        (names b) fleet
      ∧ (∀ i j a c, i ≠ j → fleet !! i = Some a → fleet !! j = Some c → a ## c)
      ∧ Z.of_nat (size (⋃ fleet)) = sum_values (shipLengths b))
    fleets.
Proof.
  intros Hinit Hnn Hrun.
  destruct (BattleshipBoard_init_spec d ships) as (b' & Hb' & Hd & Hn & Hs & Hfresh & Hwf).
  rewrite Hinit in Hb'. injection Hb' as <-.
  pose proof (fresh_fleets fuel b names_arg batch_size Hwf Hfresh _ _ _ Hrun) as Hall.
  eapply Forall_impl; [exact Hall|]. simpl. intros fleet [Hcand Hpd].
  split; [|split].
  - assert (Hsub : Forall (λ name, name ∈ names b) (names b)) by by apply Forall_forall.
    revert Hsub Hcand. generalize (names b) at 2 3 4. intros nms Hsub Hcand.
    clear Hpd. induction Hcand as [|name k nms fleet (confs & Hc & Hk) Hcand IH]; [constructor|].
    apply Forall_cons in Hsub as [Hin Hsub]. constructor; [|by apply IH].
    destruct (wf_lengths b Hwf name Hin) as [len Hlen]. exists len. split; [done|].
    rewrite <- Hd. apply layouts_placement; [by apply (Hnn name len)|].
    by eapply (wf_within b Hwf).
  - by apply pairwise_disjoint_lookup.
  - rewrite size_union_list by done. rewrite sum_values_names by done.
    apply candidates_cells; try done. by apply Forall_forall.
Qed.

(** One candidate placement for each of the [chosen] ships, no two of
    them sharing a tile. *)
Definition consistent_layout (b : BattleshipBoard) (chosen : list string)
    (l : list (gset cell)) : Prop :=
  Forall2 (candidate_of b) chosen l ∧ pairwise_disjoint l.

Lemma sample_ok_layout (b : BattleshipBoard) (chosen : list string)
    (l : list (gset cell)) (t : gset cell) :
  sample_ok b chosen l t → ∃ l', consistent_layout b chosen l'.
Proof.
  intros (nms & Hperm & Hcand & Hpd & _).
  destruct (Permutation_Forall2 Hperm Hcand) as (l' & Hl & Hcand').
  exists l'. split; [done|]. by apply (pairwise_disjoint_perm l).
Qed.

(** C8, as the code has it.  The sampler has no attempt bound and no
    way to report that it gave up.  Whenever [randomBoard] returns, it
    returns exactly [batch_size] layouts (none when [batch_size] is not
    positive), never fewer.  On a well-formed board, with the chosen
    names among the ships of the board, the only exceptions it raises are
    [ValueError], when no ship is chosen, and [IndexError], when a chosen
    ship has no candidate placement.  And when at least one layout is
    asked for, the chosen ships are distinct and each has a candidate
    placement, the ships with a single candidate do not overlap, and no
    choice of one candidate per ship is free of overlaps, it neither
    returns nor raises: however many attempts it is given, it is still
    retrying. *)
Theorem sampler_outcomes (fuel : nat) (b : BattleshipBoard) (initial : bool)
    (names_arg : option (list string)) (batch_size : Z) (rnd : rng) :
  (∀ results rnd',
     randomBoard fuel b initial names_arg batch_size rnd = Ok (results, rnd') →
     length results = Z.to_nat batch_size)
  ∧ (board_wf b →
     Forall (λ name, name ∈ names b) (chosen_names b initial names_arg) →
     (∀ e, randomBoard fuel b initial names_arg batch_size rnd = Raise e →
        (e = ValueError ∧ chosen_names b initial names_arg = [])
        ∨ (e = IndexError ∧ ∃ name, name ∈ chosen_names b initial names_arg
                              ∧ possShipsDict b !! name = Some []))
     ∧ (0 < batch_size →
        chosen_names b initial names_arg ≠ [] →
        NoDup (chosen_names b initial names_arg) →
        (∀ name, name ∈ chosen_names b initial names_arg →
           possShipsDict b !! name ≠ Some []) →
        fixed_disjoint b →
        (¬ ∃ l, consistent_layout b (chosen_names b initial names_arg) l) →
        randomBoard fuel b initial names_arg batch_size rnd = OutOfFuel)).
Proof.
  split; [intros results rnd'; apply randomBoard_length|].
  intros Hwf Hsub. split.
  - intros e He. by apply randomBoard_raises in He.
  - intros Hbs Hne Hnd Hcands Hfd Hno.
    destruct (randomBoard fuel b initial names_arg batch_size rnd)
      as [[results rnd']|e|] eqn:Hrun; [| |done]; exfalso.
    + pose proof (randomBoard_length _ _ _ _ _ _ _ _ Hrun) as Hlen.
      pose proof (randomBoard_post fuel b initial names_arg batch_size Hwf Hfd Hnd
                    _ _ _ Hrun) as Hall.
      destruct results as [|out results]; [simpl in Hlen; lia|].
      apply Forall_cons in Hall as [([l t] & _ & Hok) _].
      apply Hno. by eapply sample_ok_layout.
    + destruct (randomBoard_raises fuel b initial names_arg batch_size Hwf Hsub rnd e Hrun)
        as [[_ Hnil]|[_ (name & Hin & Hempty)]]; [done|].
      by apply (Hcands name).
Qed.

Lemma small_board_init : BattleshipBoard_init 3 [2; 1] = Ok small_board.
Proof. vm_compute. reflexivity. Qed.

Lemma small_board_fleet :
  randomBoard 5 small_board true None 1 small_tape
  = Ok ([[{[ (0, 0); (1, 0) ]}; {[ (2, 2) ]}]], λ i, small_tape (S (S i))).
Proof. vm_compute. reflexivity. Qed.

Lemma catalog_count_and_shape_witness :
  ∃ b, BattleshipBoard_init 3 [2; 1] = Ok b
    ∧ ∃ confs, possShipsDict b !! "a"%string = Some confs
        ∧ Z.of_nat (length confs) = 2 * 3 * (3 - 2 + 1)
        ∧ possShipsNumDict b !! "a"%string = Some (2 * 3 * (3 - 2 + 1))
        ∧ Forall (is_placement 3 2) confs.
Proof.
  exists small_board. split; [exact small_board_init|].
  apply (catalog_count_and_shape 3 [2; 1] small_board "a"%string 2);
    [exact small_board_init|vm_compute; reflexivity|lia].
Defined.

Lemma fleet_disjoint_and_full_witness :
  ∃ b fleets rnd',
    BattleshipBoard_init 3 [2; 1] = Ok b
    ∧ randomBoard 5 b true None 1 (tape [(0, 11); (8, 9)]%nat) = Ok (fleets, rnd')
    ∧ fleets = [[{[ (0, 0); (1, 0) ]}; {[ (2, 2) ]}]]
    ∧ Forall (λ fleet,
          Forall2 (λ name k, ∃ len, shipLengths b !! name = Some len ∧ is_placement 3 len k)
            (names b) fleet
          ∧ (∀ i j a c, i ≠ j → fleet !! i = Some a → fleet !! j = Some c → a ## c)
          ∧ Z.of_nat (size (⋃ fleet)) = sum_values (shipLengths b))
        fleets.
Proof.
  exists small_board, [[{[ (0, 0); (1, 0) ]}; {[ (2, 2) ]}]], (λ i, small_tape (S (S i))).
  split; [exact small_board_init|].
  split; [exact small_board_fleet|].
  split; [reflexivity|].
  apply (fleet_disjoint_and_full 3 [2; 1] small_board 5 None 1 small_tape
           (λ i, small_tape (S (S i)))).
  - exact small_board_init.
  - apply (bool_decide_unpack _). vm_compute. reflexivity.
  - exact small_board_fleet.
Defined.

Lemma elem_of_twice {A} (x a : A) : x ∈ [a; a] → x = a.
Proof.
  intros [->|H]%elem_of_cons; [done|].
  apply elem_of_cons in H as [->|H]; [done|]. by apply elem_of_nil in H.
Qed.

Lemma tiny_board_init : BattleshipBoard_init 1 [1; 1] = Ok tiny_board.
Proof. vm_compute. reflexivity. Qed.

Lemma tall_board_init : BattleshipBoard_init 3 [5] = Ok tall_board.
Proof. vm_compute. reflexivity. Qed.

Lemma board_init_wf (d : Z) (ships : list Z) (b : BattleshipBoard) :
  BattleshipBoard_init d ships = Ok b → board_wf b ∧ fresh_catalog b.
Proof.
  destruct (BattleshipBoard_init_spec d ships) as (b' & Hb & _ & _ & _ & Hfresh & Hwf).
  rewrite Hb. by intros [= <-].
Qed.

Lemma tall_board_raises :
  randomBoard 1 tall_board true None 1 (tape []) = Raise IndexError.
Proof. vm_compute. reflexivity. Qed.

Lemma tiny_board_catalog (name : string) (confs : list (gset cell)) :
  possShipsDict tiny_board !! name = Some confs →
  name ∈ names tiny_board ∧ confs = [ {[ (0, 0) ]}; {[ (0, 0) ]} ].
Proof.
  intros Hc.
  destruct (board_init_wf _ _ _ tiny_board_init) as [Hwf _].
  assert (Hin : name ∈ names tiny_board) by (apply (wf_dict_dom _ Hwf); by eexists).
  split; [done|]. change (names tiny_board) with ["a"; "b"]%string in Hin.
  apply elem_of_cons in Hin as [->|Hin];
    [|apply elem_of_cons in Hin as [->|Hin]; [|by apply elem_of_nil in Hin]];
    vm_compute in Hc; by injection Hc as <-.
Qed.

Lemma tiny_board_no_layout :
  ¬ ∃ l, consistent_layout tiny_board (chosen_names tiny_board true None) l.
Proof.
  intros (l & Hcand & Hpd). change (chosen_names tiny_board true None)
    with ["a"; "b"]%string in Hcand.
  apply Forall2_cons_inv_l in Hcand as (k1 & rest1 & (c1 & Hc1 & Hk1) & Hcand & ->).
  apply Forall2_cons_inv_l in Hcand as (k2 & rest2 & (c2 & Hc2 & Hk2) & Hcand & ->).
  apply tiny_board_catalog in Hc1 as [_ ->]. apply tiny_board_catalog in Hc2 as [_ ->].
  apply elem_of_twice in Hk1 as ->. apply elem_of_twice in Hk2 as ->.
  destruct Hpd as [Hd _]. set_solver.
Qed.

Lemma sampler_outcomes_witness :
  length [[ ({[ (0, 0); (1, 0) ]} : gset cell); {[ (2, 2) ]} ]] = Z.to_nat 1
  ∧ ((IndexError = ValueError ∧ chosen_names tall_board true None = [])
     ∨ (IndexError = IndexError ∧ ∃ name, name ∈ chosen_names tall_board true None
                                    ∧ possShipsDict tall_board !! name = Some []))
  ∧ randomBoard 7 tiny_board true None 1 (tape []) = OutOfFuel.
Proof.
  split; [|split].
  - apply (proj1 (sampler_outcomes 5 small_board true None 1 small_tape)
             _ (λ i, small_tape (S (S i)))).
    exact small_board_fleet.
  - apply (proj2 (sampler_outcomes 1 tall_board true None 1 (tape []))).
    + apply (board_init_wf _ _ _ tall_board_init).
    + apply (bool_decide_unpack _). vm_compute. reflexivity.
    + exact tall_board_raises.
  - apply (proj2 (sampler_outcomes 7 tiny_board true None 1 (tape []))).
    + apply (board_init_wf _ _ _ tiny_board_init).
    + apply (bool_decide_unpack _). vm_compute. reflexivity.
    + lia.
    + discriminate.
    + apply (bool_decide_unpack _). vm_compute. reflexivity.
    + intros name _ Hc. by apply tiny_board_catalog in Hc as [_ [=]].
    + intros n1 n2 k1 k2 _ Hc1 _. by apply tiny_board_catalog in Hc1 as [_ [=]].
    + exact tiny_board_no_layout.
Defined.

(** ** Running out of attempts *)

(** A result that is neither a value nor an exception is [OutOfFuel]. *)
Lemma neither_value_nor_exception {A} (m : M A) (r : rng) (E : exn → Prop) :
  post m (λ _, False) → only_raises E m → (∀ e, ¬ E e) → m r = OutOfFuel.
Proof.
  intros Hpost Hraise HE. destruct (m r) as [[v r']|e|] eqn:Hm; [| |done].
  - destruct (Hpost r v r' Hm).
  - destruct (HE e (Hraise r e Hm)).
Qed.

(** On the board of dimension 1 with two ships of length 1 both ships
    have the single tile as their only placement, so no attempt of the
    sampler succeeds: whatever the draws and however many attempts it is
    given, it is still retrying. *)
Lemma sampler_retries_without_bound :
  ∃ b, BattleshipBoard_init 1 [1; 1] = Ok b
    ∧ ∀ fuel rnd, randomBoard fuel b true None 1 rnd = OutOfFuel.
Proof.
  destruct (BattleshipBoard_init_spec 1 [1; 1]) as (b & Hb & Hd & Hn & Hs & Hfresh & Hwf).
  exists b. split; [done|]. intros fuel rnd.
  assert (Hcat : ∀ name, name ∈ names b →
            possShipsDict b !! name = Some [ {[ (0, 0) ]}; {[ (0, 0) ]} ]).
  { intros name Hin. rewrite Hfresh, decide_True, Hs, Hd by done.
    rewrite Hn in Hin. simpl in Hin.
    apply elem_of_cons in Hin as [->|Hin]; [by vm_compute|].
    apply elem_of_cons in Hin as [->|Hin]; [by vm_compute|].
    by apply elem_of_nil in Hin. }
  apply (neither_value_nor_exception _ _
    (λ e, (e = ValueError ∧ chosen_names b true None = [])
          ∨ (e = IndexError ∧ ∃ name, name ∈ chosen_names b true None
                                ∧ possShipsDict b !! name = Some []))).
  - intros r fleets r' Hrun.
    pose proof (randomBoard_length _ _ _ _ _ _ _ _ Hrun) as Hlen.
    pose proof (fresh_fleets _ _ _ _ Hwf Hfresh _ _ _ Hrun) as Hall.
    destruct fleets as [|fleet fleets]; [done|].
    apply Forall_cons in Hall as [[Hcand Hpd] _].
    rewrite Hn in Hcand. simpl in Hcand.
    apply Forall2_cons_inv_l in Hcand as (k1 & rest1 & (c1 & Hc1 & Hk1) & Hcand & ->).
    apply Forall2_cons_inv_l in Hcand as (k2 & rest2 & (c2 & Hc2 & Hk2) & Hcand & ->).
    rewrite Hcat in Hc1, Hc2 by (rewrite Hn; set_solver).
    injection Hc1 as <-. injection Hc2 as <-.
    assert (k1 = {[ (0, 0) ]}) as -> by set_solver.
    assert (k2 = {[ (0, 0) ]}) as -> by set_solver.
    destruct Hpd as [Hdis _]. set_solver.
  - apply randomBoard_raises; [done|]. by apply Forall_forall.
  - intros e [[_ Hnil]|[_ (name & Hin & Hempty)]].
    + unfold chosen_names in Hnil. simpl in Hnil. by rewrite Hn in Hnil.
    + unfold chosen_names in Hin. simpl in Hin. by rewrite Hcat in Hempty.
Qed.

(** ** Construction of the player *)

Lemma draw_fleet_unfold (fuel : nat) (b : BattleshipBoard) (r : rng) :
  draw_fleet fuel b r =
  match randomBoard fuel b true None 1 r with
  | Ok (fleets, r') =>
      match index fleets 0 with
      | Ok ships =>
          match set_union_star ships with
          | Ok eb => Ok ((ships, eb), r')
          | Raise e => Raise e
          | OutOfFuel => OutOfFuel
          end
      | Raise e => Raise e
      | OutOfFuel => OutOfFuel
      end
  | Raise e => Raise e
  | OutOfFuel => OutOfFuel
  end.
Proof.
  unfold draw_fleet, mbind, M_mbind, M_bind.
  destruct (randomBoard fuel b true None 1 r) as [[fleets r']| |]; [|done..].
  unfold liftR, layout in *. destruct (index fleets 0) as [ships| |]; [|done..].
  by destruct (set_union_star ships).
Qed.

Lemma BattleshipPlayer_init_unfold (fuel : nat) (d : Z) (ships : list Z) (boards : Z)
    (b : BattleshipBoard) (r : rng) :
  BattleshipBoard_init d ships = Ok b →
  BattleshipPlayer_init fuel d ships boards r =
  match draw_fleet fuel b r with
  | Ok ((fleet, eb), r') =>
      Ok (mkPlayer b fleet eb (fresh_statuses (names b)) boards ∅ ∅ []
            (names b) (sum_values (shipLengths b)) 0 0, r')
  | Raise e => Raise e
  | OutOfFuel => OutOfFuel
  end.
Proof.
  intros Hb. unfold BattleshipPlayer_init, mbind, M_mbind, M_bind, liftR. rewrite Hb.
  by destruct (draw_fleet fuel b r) as [[[fleet eb] r']| |].
Qed.

(** A ship that is longer than the board is wide has no placement: the
    sampler cannot return a fleet, and the only exception it can raise
    is the [IndexError] of drawing from the empty candidate list. *)
Lemma too_long_no_fleet (fuel : nat) (b : BattleshipBoard) (name : string) (len : Z)
    (r : rng) :
  board_wf b → fresh_catalog b → shipLengths b !! name = Some len → dim b < len →
  randomBoard fuel b true None 1 r = Raise IndexError
  ∨ randomBoard fuel b true None 1 r = OutOfFuel.
Proof.
  intros Hwf Hfresh Hlen Hd.
  pose proof (fresh_too_long b name len Hwf Hfresh Hlen Hd) as Hempty.
  assert (Hin : name ∈ names b) by (apply (wf_lengths_dom b Hwf); by eexists).
  destruct (randomBoard fuel b true None 1 r) as [[fleets r']|e|] eqn:Hrun; [| |by right].
  - exfalso. by eapply (randomBoard_stuck fuel b true None 1 name).
  - left. apply randomBoard_raises in Hrun; [|done|by apply Forall_forall].
    destruct Hrun as [[_ Hnil]|[-> _]]; [|done].
    unfold chosen_names in Hnil. simpl in Hnil. rewrite Hnil in Hin.
    by apply elem_of_nil in Hin.
Qed.

(** X23.  Nothing validates the configuration.
    [BattleshipBoard.__init__] returns a board for every dimension and
    every list of ship lengths.  [BattleshipPlayer.__init__] raises
    [ValueError] when the list of ships is empty; when one of the ships of
    the board is longer than the dimension it never returns a player:
    it raises [IndexError], unless the sampler is still retrying. *)
Theorem construction_without_validation (fuel : nat) (d : Z) (ships : list Z)
    (boards : Z) (rnd : rng) :
  (∃ b, BattleshipBoard_init d ships = Ok b)
  ∧ (ships = [] → BattleshipPlayer_init fuel d ships boards rnd = Raise ValueError)
  ∧ (∀ b name len,
       BattleshipBoard_init d ships = Ok b →
       shipLengths b !! name = Some len → d < len →
       BattleshipPlayer_init fuel d ships boards rnd = Raise IndexError
       ∨ BattleshipPlayer_init fuel d ships boards rnd = OutOfFuel).
Proof.
  destruct (BattleshipBoard_init_spec d ships) as (b & Hb & Hd & Hn & Hs & Hfresh & Hwf).
  split; [by exists b|]. split.
  - intros ->. rewrite (BattleshipPlayer_init_unfold _ _ _ _ b) by done.
    rewrite draw_fleet_unfold. unfold randomBoard, mbind, M_mbind, M_bind. simpl.
    by rewrite Hn.
  - intros b' name len Hb' Hlen Hlong. rewrite Hb in Hb'. injection Hb' as <-.
    rewrite (BattleshipPlayer_init_unfold _ _ _ _ b) by done.
    rewrite draw_fleet_unfold.
    destruct (too_long_no_fleet fuel b name len rnd) as [-> | ->]; auto.
    by rewrite Hd.
Qed.

Lemma construction_without_validation_witness :
  (∃ b, BattleshipBoard_init 3 [5] = Ok b)
  ∧ BattleshipPlayer_init 4 10 [] 100 (tape []) = Raise ValueError
  ∧ (BattleshipPlayer_init 4 3 [5] 100 (tape []) = Raise IndexError
     ∨ BattleshipPlayer_init 4 3 [5] 100 (tape []) = OutOfFuel).
Proof.
  split; [|split].
  - apply (construction_without_validation 4 3 [5] 100 (tape [])).
  - by apply (construction_without_validation 4 10 [] 100 (tape [])).
  - destruct (BattleshipBoard_init 3 [5]) as [b| |] eqn:Hb; [|by vm_compute in Hb..].
    apply (construction_without_validation 4 3 [5] 100 (tape [])) with b "a"%string 5.
    + exact Hb.
    + vm_compute in Hb. injection Hb as <-. by vm_compute.
    + lia.
Defined.

Lemma randomBoard_second_branch (fuel : nat) (b : BattleshipBoard) (initial : bool)
    (names_arg : option (list string)) (batch_size : Z)
    (first : string) (rest : list string) (n : Z) :
  chosen_names b initial names_arg = first :: rest →
  possShipsNumDict b !! first = Some n → n ≠ 1 →
  randomBoard fuel b initial names_arg batch_size
  = collect (Z.to_nat batch_size)
      (lt ← retry fuel (t ← draw_placement b first; place_rest b rest [t] t);
       mret (l_if_initial_else_t initial lt)).
Proof.
  intros Hch Hn Hn1. unfold randomBoard. rewrite randomBoard_preamble, Hch.
  unfold mbind at 1, M_mbind at 1, M_bind at 1, liftR at 1. simpl.
  unfold mbind at 1, M_mbind at 1, M_bind at 1, liftR at 1, getitem at 1. rewrite Hn.
  by rewrite decide_False by done.
Qed.

Lemma collect_out_of_fuel {A} (n : nat) (one : M A) (r : rng) :
  one r = OutOfFuel → collect (S n) one r = OutOfFuel.
Proof. intros H. simpl. unfold mbind, M_mbind, M_bind. by rewrite H. Qed.

(** A configuration with a ship longer than the board whose
    construction neither fails nor returns: with dimension 1 and ships
    [1, 1, 2] the first two ships always collide, so the sampler never
    gets to draw the third one. *)
Lemma player_construction_retries_forever (fuel : nat) (rnd : rng) :
  BattleshipPlayer_init fuel 1 [1; 1; 2] 100 rnd = OutOfFuel.
Proof.
  destruct (BattleshipBoard_init_spec 1 [1; 1; 2]) as (b & Hb & Hd & Hn & Hs & Hfresh & Hwf).
  rewrite (BattleshipPlayer_init_unfold _ _ _ _ b) by done.
  rewrite draw_fleet_unfold.
  assert (Ha : possShipsDict b !! "a"%string = Some [ {[ (0, 0) ]}; {[ (0, 0) ]} ]).
  { rewrite Hfresh, decide_True, Hs, Hd; [by vm_compute|]. rewrite Hn. set_solver. }
  assert (Hbb : possShipsDict b !! "b"%string = Some [ {[ (0, 0) ]}; {[ (0, 0) ]} ]).
  { rewrite Hfresh, decide_True, Hs, Hd; [by vm_compute|]. rewrite Hn. set_solver. }
  assert (Hc : possShipsDict b !! "c"%string = Some []).
  { rewrite Hfresh, decide_True, Hs, Hd; [by vm_compute|]. rewrite Hn. set_solver. }
  rewrite (randomBoard_second_branch fuel b true None 1 "a"%string ["b"; "c"]%string 2).
  - change (Z.to_nat 1) with 1%nat. rewrite collect_out_of_fuel; [done|].
    unfold mbind at 1, M_mbind at 1, M_bind at 1.
    rewrite retry_never; [done| |].
    + eapply post_bind; [apply draw_placement_post|]. intros t _.
      apply (place_rest_stuck b _ _ _ "c"%string); [set_solver|done].
    + apply (only_raises_bind _ _ _ (candidate_of b "a"%string)).
      * intros r e He. apply draw_placement_raises in He as [_ He]; [|done|].
        -- by rewrite Ha in He.
        -- rewrite Hn. set_solver.
      * apply draw_placement_post.
      * intros t (confs & Hconfs & Ht). rewrite Ha in Hconfs. injection Hconfs as <-.
        apply elem_of_twice in Ht as ->.
        simpl. apply (only_raises_bind _ _ _ (candidate_of b "b"%string)).
        -- intros r e He. apply draw_placement_raises in He as [_ He]; [|done|].
           ++ by rewrite Hbb in He.
           ++ rewrite Hn. set_solver.
        -- apply draw_placement_post.
        -- intros k (confs & Hconfs & Hk). rewrite Hbb in Hconfs. injection Hconfs as <-.
           apply elem_of_twice in Hk as ->.
           rewrite decide_True by set_solver. apply only_raises_ret.
  - unfold chosen_names. simpl. by rewrite Hn.
  - rewrite (wf_num b Hwf), Ha. done.
  - done.
Qed.

(** The claim that a bad configuration is refused with a configuration
    error fails: the board for dimension 3 and a ship of length 5 is
    built without complaint (the ship just has no placement); building
    the player then raises [IndexError], and with no ships [ValueError],
    both from deep inside the sampler; and with dimension 1 and ships
    [1, 1, 2] the construction does not fail at all. *)
Lemma configuration_is_not_validated :
  (∃ b, BattleshipBoard_init 3 [5] = Ok b ∧ possShipsDict b !! "a"%string = Some [])
  ∧ BattleshipPlayer_init 1 3 [5] 100 (tape []) = Raise IndexError
  ∧ BattleshipPlayer_init 1 10 [] 100 (tape []) = Raise ValueError
  ∧ ∀ fuel rnd, BattleshipPlayer_init fuel 1 [1; 1; 2] 100 rnd = OutOfFuel.
Proof.
  split; [|split; [|split]].
  - eexists. split; by vm_compute.
  - by vm_compute.
  - by vm_compute.
  - apply player_construction_retries_forever.
Qed.

(** ** Game states *)

(** [name] is the ship whose secret placement is [ship]: both stand at
    the same position of [self.board.names] and [self.enemy_ships]. *)
Definition paired (p : BattleshipPlayer) (name : string) (ship : gset cell) : Prop :=
  ∃ i, names (board p) !! i = Some name ∧ enemy_ships p !! i = Some ship.

(** What the code keeps true of the board, the secret fleet, the move
    history and the ship statuses. *)
Record core_inv (p : BattleshipPlayer) : Prop := {
  inv_board : board_wf (board p);
  inv_names : names (board p) ≠ [];
  inv_fleet : Forall2 (candidate_of (board p)) (names (board p)) (enemy_ships p);
  inv_disjoint : pairwise_disjoint (enemy_ships p);
  inv_enemy_board : enemy_board p = ⋃ enemy_ships p;
  inv_hits : hits p ⊆ enemy_board p;
  inv_misses : misses p ## enemy_board p;
  inv_num_hits : num_hits p = Z.of_nat (size (hits p));
  inv_status : ∀ name ship, paired p name ship →
      ∃ st, enemy_ship_statuses p !! name = Some st
        ∧ confirmed_pos st = hits p ∩ ship
        ∧ hit_count st = Z.of_nat (size (hits p ∩ ship))
        ∧ (sunk st = true ↔ 0 < hit_count st ∧ hit_count st = Z.of_nat (size ship));
  inv_order : name_order p ≡ₚ names (board p);
  inv_target : target_hits p = sum_values (shipLengths (board p));
  inv_boards : lengths_nonneg (board p) →
      ∀ t, t ∈ random_boards p → Z.of_nat (size t) = target_hits p;
  inv_population : (length (random_boards p) ≤ Z.to_nat (n_boards p))%nat
}.

(** Every candidate placement agrees with the history: it holds no
    missed tile, and for a ship that was hit it holds exactly the hits
    attributed to that ship and no other hit. *)
Record catalog_inv (p : BattleshipPlayer) : Prop := {
  inv_no_miss : ∀ name confs conf,
      possShipsDict (board p) !! name = Some confs → conf ∈ confs →
      conf ∩ misses p = ∅;
  inv_explains : ∀ name confs conf st,
      possShipsDict (board p) !! name = Some confs → conf ∈ confs →
      enemy_ship_statuses p !! name = Some st → confirmed_pos st ≠ ∅ →
      Z.of_nat (size (confirmed_pos st ∩ conf)) = hit_count st
      ∧ hit_count st = Z.of_nat (size (hits p ∩ conf))
}.

(** The states a client can bring a player into by calling its methods;
    [take_turn] changes the state the way [generate_random_boards]
    does. *)
Inductive reachable : BattleshipPlayer → Prop :=
| reach_init fuel d ships boards rnd p rnd' :
    BattleshipPlayer_init fuel d ships boards rnd = Ok (p, rnd') → reachable p
| reach_refresh fuel p rnd p' rnd' :
    reachable p → generate_random_boards fuel p rnd = Ok (p', rnd') → reachable p'
| reach_move p x y v p' :
    reachable p → update_game_state p x y = Ok (v, p') → reachable p'
| reach_reset fuel p rnd p' rnd' :
    reachable p → reset fuel p rnd = Ok (p', rnd') → reachable p'.

Lemma paired_name (p : BattleshipPlayer) name ship :
  paired p name ship → name ∈ names (board p).
Proof. intros (i & Hi & _). by eapply list_elem_of_lookup_2. Qed.

Lemma paired_ship (p : BattleshipPlayer) name ship :
  paired p name ship → ship ∈ enemy_ships p.
Proof. intros (i & _ & Hi). by eapply list_elem_of_lookup_2. Qed.

Lemma paired_candidate (p : BattleshipPlayer) name ship :
  core_inv p → paired p name ship → candidate_of (board p) name ship.
Proof.
  intros Hinv (i & Hi & Hs).
  destruct (Forall2_lookup_l _ _ _ _ _ (inv_fleet p Hinv) Hi) as (ship' & Hs' & Hc).
  congruence.
Qed.

Lemma paired_of_name (p : BattleshipPlayer) name :
  core_inv p → name ∈ names (board p) → ∃ ship, paired p name ship.
Proof.
  intros Hinv (i & Hi)%list_elem_of_lookup.
  destruct (Forall2_lookup_l _ _ _ _ _ (inv_fleet p Hinv) Hi) as (ship & Hs & _).
  exists ship, i. done.
Qed.

Lemma paired_of_ship (p : BattleshipPlayer) ship :
  core_inv p → ship ∈ enemy_ships p → ∃ name, paired p name ship.
Proof.
  intros Hinv (i & Hi)%list_elem_of_lookup.
  destruct (Forall2_lookup_r _ _ _ _ _ (inv_fleet p Hinv) Hi) as (name & Hn & _).
  exists name, i. done.
Qed.

Lemma paired_functional (p : BattleshipPlayer) name s1 s2 :
  core_inv p → paired p name s1 → paired p name s2 → s1 = s2.
Proof.
  intros Hinv (i & Hi & Hs1) (j & Hj & Hs2).
  assert (i = j) as -> by (eapply NoDup_lookup; [apply (wf_nodup _ (inv_board p Hinv))|done..]).
  congruence.
Qed.

Lemma paired_disjoint (p : BattleshipPlayer) n1 n2 s1 s2 :
  core_inv p → paired p n1 s1 → paired p n2 s2 → n1 ≠ n2 → s1 ## s2.
Proof.
  intros Hinv (i & Hi & Hs1) (j & Hj & Hs2) Hne.
  eapply (proj1 (pairwise_disjoint_lookup _) (inv_disjoint p Hinv) i j); [|done..].
  intros ->. congruence.
Qed.

Lemma paired_subset (p : BattleshipPlayer) name ship :
  core_inv p → paired p name ship → ship ⊆ enemy_board p.
Proof.
  intros Hinv Hp x Hx. rewrite (inv_enemy_board p Hinv).
  apply elem_of_union_list. exists ship. split; [by eapply paired_ship|done].
Qed.

Lemma enemy_board_paired (p : BattleshipPlayer) (c : cell) :
  core_inv p → c ∈ enemy_board p → ∃ name ship, paired p name ship ∧ c ∈ ship.
Proof.
  intros Hinv Hc. rewrite (inv_enemy_board p Hinv) in Hc.
  apply elem_of_union_list in Hc as (ship & Hship & Hc).
  destruct (paired_of_ship p ship Hinv Hship) as [name Hp]. eauto.
Qed.

(** A ship with a single candidate left has its secret placement as
    that candidate. *)
Lemma single_candidate (p : BattleshipPlayer) name ship conf :
  core_inv p → paired p name ship →
  possShipsDict (board p) !! name = Some [conf] → conf = ship.
Proof.
  intros Hinv Hp Hc. destruct (paired_candidate p name ship Hinv Hp) as (confs & Hc' & Hin).
  rewrite Hc in Hc'. injection Hc' as <-. apply list_elem_of_singleton in Hin. done.
Qed.

Lemma core_fixed_disjoint (p : BattleshipPlayer) : core_inv p → fixed_disjoint (board p).
Proof.
  intros Hinv n1 n2 k1 k2 Hne H1 H2.
  assert (Hn1 : n1 ∈ names (board p))
    by (apply (wf_dict_dom _ (inv_board p Hinv)); by eexists).
  assert (Hn2 : n2 ∈ names (board p))
    by (apply (wf_dict_dom _ (inv_board p Hinv)); by eexists).
  destruct (paired_of_name p n1 Hinv Hn1) as [s1 Hp1].
  destruct (paired_of_name p n2 Hinv Hn2) as [s2 Hp2].
  rewrite (single_candidate p n1 s1 k1), (single_candidate p n2 s2 k2) by done.
  by eapply paired_disjoint.
Qed.

Lemma core_no_empty_catalog (p : BattleshipPlayer) name :
  core_inv p → possShipsDict (board p) !! name ≠ Some [].
Proof.
  intros Hinv Hc.
  assert (Hn : name ∈ names (board p))
    by (apply (wf_dict_dom _ (inv_board p Hinv)); by eexists).
  destruct (paired_of_name p name Hinv Hn) as [ship Hp].
  destruct (paired_candidate p name ship Hinv Hp) as (confs & Hc' & Hin).
  rewrite Hc in Hc'. injection Hc' as <-. by apply elem_of_nil in Hin.
Qed.

(** ** The invariant at the start of a game *)

Lemma fresh_statuses_lookup (nms : list string) (name : string) :
  name ∈ nms → fresh_statuses nms !! name = Some (mkStatus false ∅ 0).
Proof.
  unfold fresh_statuses. induction nms as [|n nms IH]; [by intros ?%elem_of_nil|].
  intros Hin. rewrite fmap_cons, list_to_map_cons.
  destruct (decide (n = name)) as [->|Hne]; [by rewrite lookup_insert_eq|].
  rewrite lookup_insert_ne by done. apply IH.
  apply elem_of_cons in Hin as [->|]; done.
Qed.

Lemma set_union_star_Ok (sets : list (gset cell)) (u : gset cell) :
  set_union_star sets = Ok u → sets ≠ [] ∧ u = ⋃ sets.
Proof. destruct sets; [done|]. intros [= <-]. done. Qed.

Lemma insert_stable_perm {A} (before : A → A → bool) (x : A) (s : list A) :
  insert_stable before x s ≡ₚ x :: s.
Proof.
  induction s as [|y s IH]; simpl; [done|].
  destruct (before y x); [|done]. rewrite IH. apply Permutation_swap.
Qed.

Lemma sorted_stable_perm {A} (before : A → A → bool) (l : list A) :
  sorted_stable before l ≡ₚ l.
Proof.
  induction l as [|x l IH]; simpl; [done|].
  unfold sorted_stable in *. simpl. by rewrite insert_stable_perm, IH.
Qed.

Lemma start_inv (fuel : nat) (b : BattleshipBoard) (r r' : rng)
    (fleet : list (gset cell)) (eb : gset cell) (n target : Z) :
  board_wf b → fresh_catalog b → target = sum_values (shipLengths b) →
  draw_fleet fuel b r = Ok ((fleet, eb), r') →
  let p := mkPlayer b fleet eb (fresh_statuses (names b)) n ∅ ∅ [] (names b) target 0 0 in
  core_inv p ∧ catalog_inv p.
Proof.
  intros Hwf Hfresh Htarget Hdraw. rewrite draw_fleet_unfold in Hdraw.
  destruct (randomBoard fuel b true None 1 r) as [[fleets r1]| |] eqn:Hrun; [|done..].
  unfold layout in *.
  destruct (index fleets 0) as [fleet'| |] eqn:Hidx; [|done..].
  destruct (set_union_star fleet') as [eb'| |] eqn:Hu; [|done..].
  injection Hdraw as -> -> ->.
  apply set_union_star_Ok in Hu as [Hne ->].
  pose proof (fresh_fleets fuel b None 1 Hwf Hfresh _ _ _ Hrun) as Hall.
  rewrite Forall_forall in Hall.
  destruct (Hall fleet (index_elem_of _ _ _ Hidx)) as [Hcand Hpd].
  simpl. split; split; simpl; try done.
  - intros Hnil. rewrite Hnil in Hcand. by apply Forall2_nil_inv_l in Hcand.
  - intros name ship Hp. exists (mkStatus false ∅ 0). split; [|simpl; split; [set_solver|]].
    + apply fresh_statuses_lookup. by apply (paired_name _ _ _ Hp).
    + split.
      * replace (∅ ∩ ship) with (∅ : gset cell) by set_solver. by rewrite size_empty.
      * split; [done|lia].
  - intros _ t Ht. by apply elem_of_nil in Ht.
  - lia.
  - set_solver.
  - intros name confs conf st _ _ Hst.
    assert (st = mkStatus false ∅ 0) as ->; [|done].
    assert (name ∈ names b).
    { apply dec_stable. intros Hnot.
      assert (fresh_statuses (names b) !! name = None) as Hnone; [|congruence].
      apply not_elem_of_list_to_map.
      rewrite <- list_fmap_compose. simpl. by rewrite list_fmap_id. }
    rewrite fresh_statuses_lookup in Hst by done. congruence.
Qed.

Lemma init_inv (fuel : nat) (d : Z) (ships : list Z) (boards : Z) (r r' : rng)
    (p : BattleshipPlayer) :
  BattleshipPlayer_init fuel d ships boards r = Ok (p, r') →
  core_inv p ∧ catalog_inv p.
Proof.
  destruct (BattleshipBoard_init_spec d ships) as (b & Hb & Hd & Hn & Hs & Hfresh & Hwf).
  rewrite (BattleshipPlayer_init_unfold _ _ _ _ b) by done.
  destruct (draw_fleet fuel b r) as [[[fleet eb] r1]| |] eqn:Hdraw; [|done..].
  intros [= <- <-]. by eapply start_inv.
Qed.

Lemma reset_unfold (fuel : nat) (p : BattleshipPlayer) (b : BattleshipBoard) (r : rng) :
  generateComponentLayouts (board p) = Ok b →
  reset fuel p r =
  match draw_fleet fuel b r with
  | Ok ((fleet, eb), r') =>
      Ok (mkPlayer b fleet eb (fresh_statuses (names b)) (n_boards p) ∅ ∅ []
            (names b) (target_hits p) 0 0, r')
  | Raise e => Raise e
  | OutOfFuel => OutOfFuel
  end.
Proof.
  intros Hb. unfold reset, mbind, M_mbind, M_bind, liftR. rewrite Hb.
  by destruct (draw_fleet fuel b r) as [[[fleet eb] r']| |].
Qed.

Lemma reset_board (p : BattleshipPlayer) :
  board_wf (board p) →
  ∃ b, generateComponentLayouts (board p) = Ok b
    ∧ dim b = dim (board p) ∧ names b = names (board p)
    ∧ shipLengths b = shipLengths (board p)
    ∧ fresh_catalog b ∧ board_wf b.
Proof.
  intros Hwf.
  destruct (generateComponentLayouts_spec (board p) (wf_lengths _ Hwf))
    as (b & Hb & Hd & Hn & Hs & Hfresh & Hnum).
  exists b. do 5 (split; [done|]).
  apply fresh_catalog_wf; try done.
  - rewrite Hn. apply (wf_nodup _ Hwf).
  - rewrite Hn, Hs. apply (wf_lengths _ Hwf).
  - rewrite Hn, Hs. apply (wf_lengths_dom _ Hwf).
Qed.

Lemma reset_inv (fuel : nat) (p p' : BattleshipPlayer) (r r' : rng) :
  core_inv p → reset fuel p r = Ok (p', r') → core_inv p' ∧ catalog_inv p'.
Proof.
  intros Hinv.
  destruct (reset_board p (inv_board p Hinv)) as (b & Hb & Hd & Hn & Hs & Hfresh & Hwf).
  rewrite (reset_unfold _ _ b) by done.
  destruct (draw_fleet fuel b r) as [[[fleet eb] r1]| |] eqn:Hdraw; [|done..].
  intros [= <- <-]. eapply start_inv; [done..| |done].
  rewrite Hs. apply (inv_target p Hinv).
Qed.

(** ** Refreshing the population *)

(** The boards that survive the filter of [generate_random_boards]. *)
Definition kept_boards (p : BattleshipPlayer) : list (gset cell) :=
  if decide (last_move p = 1)
  then filter (λ b, b ∩ misses p = ∅) (random_boards p)
  else filter (λ b, hits p ∖ b = ∅) (random_boards p).

(** The ship names in the order [generate_random_boards] hands to the
    sampler: fewest candidates first. *)
Definition sorted_order (p : BattleshipPlayer) : list string :=
  sorted_stable
    (λ y x, key_lt (possShipsNumDict (board p) !! y) (possShipsNumDict (board p) !! x))
    (name_order p).

Lemma generate_random_boards_Ok (fuel : nat) (p p' : BattleshipPlayer) (r r' : rng) :
  generate_random_boards fuel p r = Ok (p', r') ↔
  ∃ fresh,
    randomBoard fuel (board p) false (Some (sorted_order p))
      (n_boards p - Z.of_nat (length (kept_boards p))) r = Ok (fresh, r')
    ∧ p' = mkPlayer (board p) (enemy_ships p) (enemy_board p) (enemy_ship_statuses p)
             (n_boards p) (hits p) (misses p) (kept_boards p ++ fresh) (sorted_order p)
             (target_hits p) (last_move p) (num_hits p).
Proof.
  unfold generate_random_boards. fold (kept_boards p). fold (sorted_order p).
  rewrite M_bind_Ok. split.
  - intros (fresh & r1 & Hrun & [-> ->]%M_ret_Ok). by exists fresh.
  - intros (fresh & Hrun & ->). exists fresh, r'. split; [done|]. by apply M_ret_Ok.
Qed.

Lemma kept_boards_subset (p : BattleshipPlayer) (t : gset cell) :
  t ∈ kept_boards p → t ∈ random_boards p.
Proof.
  unfold kept_boards. case_decide; by intros [_ ?]%list_elem_of_filter.
Qed.

Lemma kept_boards_length (p : BattleshipPlayer) :
  (length (kept_boards p) ≤ length (random_boards p))%nat.
Proof. unfold kept_boards. case_decide; apply length_filter. Qed.

Lemma sorted_order_perm (p : BattleshipPlayer) : sorted_order p ≡ₚ name_order p.
Proof. apply sorted_stable_perm. Qed.

Lemma chosen_sorted_order (p : BattleshipPlayer) :
  core_inv p → chosen_names (board p) false (Some (sorted_order p)) = sorted_order p.
Proof.
  intros Hinv. unfold chosen_names. simpl. rewrite bool_decide_eq_false_2; [done|].
  intros Hnil. apply (inv_names p Hinv).
  apply Permutation_nil_r. rewrite <- (inv_order p Hinv), <- sorted_order_perm.
  by rewrite Hnil.
Qed.

Lemma sorted_order_names (p : BattleshipPlayer) :
  core_inv p → sorted_order p ≡ₚ names (board p).
Proof. intros Hinv. rewrite sorted_order_perm. apply (inv_order p Hinv). Qed.

(** What the sampler returns on the board of a game in progress. *)
Lemma fresh_boards (fuel : nat) (p : BattleshipPlayer) (n : Z) :
  core_inv p →
  post (randomBoard fuel (board p) false (Some (sorted_order p)) n)
    (Forall (λ t, ∃ l, sample_ok (board p) (sorted_order p) l t)).
Proof.
  intros Hinv. eapply post_weaken.
  - apply randomBoard_post; [apply (inv_board p Hinv)|by apply core_fixed_disjoint|].
    rewrite chosen_sorted_order by done. rewrite sorted_order_names by done.
    apply (wf_nodup _ (inv_board p Hinv)).
  - intros boards Hall. eapply Forall_impl; [exact Hall|]. simpl.
    intros t ([l t'] & -> & Hok). rewrite chosen_sorted_order in Hok by done.
    by exists l.
Qed.

(** A sampled board holds every hit and no miss. *)
Lemma sample_consistent (p : BattleshipPlayer) (chosen : list string)
    (l : list (gset cell)) (t : gset cell) :
  core_inv p → catalog_inv p → chosen ≡ₚ names (board p) →
  sample_ok (board p) chosen l t → hits p ⊆ t ∧ t ∩ misses p = ∅.
Proof.
  intros Hinv Hcat Hperm (nms & Hnms & Hcand & Hpd & -> & _). split.
  - intros x Hx.
    destruct (enemy_board_paired p x Hinv (inv_hits p Hinv x Hx)) as (name & ship & Hp & Hxs).
    destruct (inv_status p Hinv name ship Hp) as (st & Hst & Hcp & Hhc & _).
    assert (Hin : name ∈ nms).
    { rewrite Hnms, Hperm. by eapply paired_name. }
    apply list_elem_of_lookup in Hin as [i Hi].
    destruct (Forall2_lookup_l _ _ _ _ _ Hcand Hi) as (k & Hk & confs & Hconfs & Hkc).
    assert (Hne : confirmed_pos st ≠ ∅) by (rewrite Hcp; set_solver).
    destruct (inv_explains p Hcat name confs k st Hconfs Hkc Hst Hne) as [Hsz _].
    assert (Heq : confirmed_pos st ∩ k = confirmed_pos st).
    { apply set_subseteq_size_eq; [set_solver|].
      rewrite Hhc, <- Hcp in Hsz. lia. }
    apply elem_of_union_list. exists k. split; [by eapply list_elem_of_lookup_2|].
    assert (x ∈ confirmed_pos st ∩ k) by (rewrite Heq, Hcp; set_solver).
    set_solver.
  - apply set_eq. intros x. split; [|set_solver].
    intros [Hxt Hxm]%elem_of_intersection.
    apply elem_of_union_list in Hxt as (k & Hk & Hxk).
    apply list_elem_of_lookup in Hk as [i Hi].
    destruct (Forall2_lookup_r _ _ _ _ _ Hcand Hi) as (name & _ & confs & Hconfs & Hkc).
    pose proof (inv_no_miss p Hcat name confs k Hconfs Hkc). set_solver.
Qed.

Lemma refresh_inv (fuel : nat) (p p' : BattleshipPlayer) (r r' : rng) :
  core_inv p → catalog_inv p →
  generate_random_boards fuel p r = Ok (p', r') →
  core_inv p' ∧ catalog_inv p'.
Proof.
  intros Hinv Hcat (fresh & Hrun & ->)%generate_random_boards_Ok.
  pose proof (randomBoard_length _ _ _ _ _ _ _ _ Hrun) as Hlen.
  pose proof (fresh_boards fuel p _ Hinv _ _ _ Hrun) as Hfresh.
  destruct Hinv as [Hwf Hnames Hfleet Hpd Heb Hhits Hmiss Hnum Hst Hord Htar Hboards Hpop].
  split; [split; simpl; try done|by destruct Hcat as [H1 H2]; split].
  - by rewrite sorted_order_perm.
  - intros Hnn t [Ht|Ht]%elem_of_app.
    + apply Hboards; [done|]. by apply kept_boards_subset.
    + rewrite Forall_forall in Hfresh. destruct (Hfresh t Ht) as [l Hok].
      rewrite Htar, (sum_values_names _ Hwf).
      rewrite (sample_ok_size (board p) (sorted_order p) l t); try done.
      * apply sum_lengths_perm. by rewrite sorted_order_perm.
      * apply Forall_forall. intros name Hin. by rewrite sorted_order_perm, Hord in Hin.
  - unfold layout in *. rewrite length_app, Hlen.
    pose proof (kept_boards_length p). lia.
Qed.

(** ** Pruning the catalog *)

Lemma for_each_total_prefix {A S} (P : list A → S → Prop) (xs : list A)
    (body : S → A → res S) (acc : S) :
  P [] acc →
  (∀ done x todo a, xs = done ++ x :: todo → P done a →
     ∃ a', body a x = Ok a' ∧ P (done ++ [x]) a') →
  ∃ acc', for_each xs body acc = Ok acc' ∧ P xs acc'.
Proof.
  intros H0 Hstep.
  assert (Hgen : ∀ todo done a, xs = done ++ todo → P done a →
            ∃ acc', for_each todo body a = Ok acc' ∧ P xs acc').
  { induction todo as [|x todo IH]; intros done a Heq HP.
    - rewrite app_nil_r in Heq. subst. simpl. eauto.
    - destruct (Hstep done x todo a Heq HP) as (a' & Hb & HP').
      simpl. rewrite Hb. simpl. apply (IH (done ++ [x])); [|done].
      by rewrite <- app_assoc. }
  apply (Hgen xs []); done.
Qed.

(** What [update_possible_ship_positions] leaves of the candidate list
    [confs] of the ship [name]: a list with a single entry is skipped, any
    other one is filtered by the rule for the last move. *)
Definition pruned (p : BattleshipPlayer) (name : string) (confs : list (gset cell))
  : list (gset cell) :=
  if decide (length confs = 1%nat) then confs
  else
    match enemy_ship_statuses p !! name with
    | None => confs
    | Some st =>
        if decide (confirmed_pos st ≠ ∅) then
          if decide (last_move p = 1)
          then filter (λ conf, conf ∩ misses p = ∅) confs
          else filter (λ conf,
                 Z.of_nat (size (confirmed_pos st ∩ conf)) = hit_count st
                 ∧ hit_count st = Z.of_nat (size (hits p ∩ conf))) confs
        else
          if decide (last_move p = 1)
          then filter (λ conf, conf ∩ misses p = ∅) confs
          else filter (λ conf, hits p ∩ conf = ∅) confs
    end.

Lemma pruned_subset (p : BattleshipPlayer) name confs conf :
  conf ∈ pruned p name confs → conf ∈ confs.
Proof.
  unfold pruned. repeat case_match; try done; by intros [_ ?]%list_elem_of_filter.
Qed.

Lemma pruned_length (p : BattleshipPlayer) name confs :
  (length (pruned p name confs) ≤ length confs)%nat.
Proof. unfold pruned. repeat case_match; try done; apply length_filter. Qed.

Lemma update_ship_spec (p : BattleshipPlayer) (b : BattleshipBoard) (name : string)
    (confs : list (gset cell)) :
  possShipsDict b !! name = Some confs →
  possShipsNumDict b !! name = Some (Z.of_nat (length confs)) →
  is_Some (enemy_ship_statuses p !! name) →
  ∃ b', update_ship p b name = Ok b'
    ∧ dim b' = dim b ∧ names b' = names b ∧ shipLengths b' = shipLengths b
    ∧ possShipsDict b' = <[name := pruned p name confs]> (possShipsDict b)
    ∧ possShipsNumDict b'
      = <[name := Z.of_nat (length (pruned p name confs))]> (possShipsNumDict b).
Proof.
  intros Hc Hn [st Hst]. unfold update_ship, pruned, getitem. rewrite Hc. simpl.
  case_decide as Hlen.
  - exists b. rewrite !insert_id by done. done.
  - rewrite Hst. simpl. eexists. split; [reflexivity|]. simpl.
    repeat case_decide; done.
Qed.

Lemma update_possible_spec (p : BattleshipPlayer) :
  board_wf (board p) →
  (∀ name, name ∈ names (board p) → is_Some (enemy_ship_statuses p !! name)) →
  ∃ b', update_possible_ship_positions p = Ok (set_board p b')
    ∧ dim b' = dim (board p) ∧ names b' = names (board p)
    ∧ shipLengths b' = shipLengths (board p)
    ∧ (∀ name, possShipsDict b' !! name = pruned p name <$> possShipsDict (board p) !! name)
    ∧ (∀ name, possShipsNumDict b' !! name
               = (λ confs, Z.of_nat (length confs)) <$> possShipsDict b' !! name).
Proof.
  intros Hwf Hsts. unfold update_possible_ship_positions.
  destruct (for_each_total_prefix
    (λ done acc, dim acc = dim (board p) ∧ names acc = names (board p)
       ∧ shipLengths acc = shipLengths (board p)
       ∧ (∀ name, possShipsDict acc !! name
            = if decide (name ∈ done)
              then pruned p name <$> possShipsDict (board p) !! name
              else possShipsDict (board p) !! name)
       ∧ (∀ name, possShipsNumDict acc !! name
            = (λ confs, Z.of_nat (length confs)) <$> possShipsDict acc !! name))
    (names (board p)) (update_ship p) (board p)) as (b' & Hrun & HP).
  - do 3 (split; [done|]). split; [done|]. apply (wf_num _ Hwf).
  - intros done x todo a Hsplit (Hd & Hn & Hs & Hdict & Hnum).
    assert (Hx : x ∈ names (board p)) by (rewrite Hsplit; set_solver).
    assert (Hnot : x ∉ done).
    { pose proof (wf_nodup _ Hwf) as Hnd. rewrite Hsplit in Hnd.
      apply NoDup_app in Hnd as (_ & Hnd & _). intros Hin. apply (Hnd x Hin). by left. }
    destruct (wf_dict _ Hwf x Hx) as [confs Hc].
    assert (Hca : possShipsDict a !! x = Some confs).
    { by rewrite Hdict, decide_False. }
    destruct (update_ship_spec p a x confs) as (a' & Ha' & Hd' & Hn' & Hs' & Hdict' & Hnum').
    { done. }
    { by rewrite Hnum, Hca. }
    { by apply Hsts. }
    exists a'. split; [done|]. split; [congruence|]. split; [congruence|].
    split; [congruence|]. split.
    + intros name. rewrite Hdict'. destruct (decide (x = name)) as [->|Hne].
      * rewrite lookup_insert_eq, decide_True by set_solver. by rewrite Hc.
      * rewrite lookup_insert_ne, Hdict by done.
        destruct (decide (name ∈ done)).
        -- by rewrite decide_True by set_solver.
        -- by rewrite decide_False by set_solver.
    + intros name. rewrite Hdict', Hnum'. destruct (decide (x = name)) as [->|Hne].
      * by rewrite !lookup_insert_eq.
      * by rewrite !lookup_insert_ne.
  - destruct HP as (Hd & Hn & Hs & Hdict & Hnum). rewrite Hrun. simpl.
    exists b'. do 4 (split; [done|]). split; [|done].
    intros name. rewrite Hdict. case_decide as Hin; [done|].
    destruct (possShipsDict (board p) !! name) eqn:Hc; [|done].
    exfalso. apply Hin, (wf_dict_dom _ Hwf). by eexists.
Qed.

Lemma pruned_board_wf (p : BattleshipPlayer) (b' : BattleshipBoard) :
  board_wf (board p) →
  dim b' = dim (board p) → names b' = names (board p) →
  shipLengths b' = shipLengths (board p) →
  (∀ name, possShipsDict b' !! name = pruned p name <$> possShipsDict (board p) !! name) →
  (∀ name, possShipsNumDict b' !! name
           = (λ confs, Z.of_nat (length confs)) <$> possShipsDict b' !! name) →
  board_wf b'.
Proof.
  intros Hwf Hd Hn Hs Hdict Hnum. split.
  - rewrite Hn. apply (wf_nodup _ Hwf).
  - rewrite Hn, Hs. apply (wf_lengths _ Hwf).
  - rewrite Hn, Hs. apply (wf_lengths_dom _ Hwf).
  - rewrite Hn. intros name Hin. rewrite Hdict.
    destruct (wf_dict _ Hwf name Hin) as [confs ->]. by eexists.
  - rewrite Hn. intros name [confs Hc]. rewrite Hdict in Hc.
    apply (wf_dict_dom _ Hwf). destruct (possShipsDict (board p) !! name); [by eexists|done].
  - done.
  - intros name confs len Hc Hlen. rewrite Hdict in Hc. rewrite Hs in Hlen. rewrite Hd.
    destruct (possShipsDict (board p) !! name) as [confs0|] eqn:Hc0; [|done].
    injection Hc as <-. intros conf Hconf%pruned_subset.
    by apply (wf_within _ Hwf name confs0 len).
Qed.

(** The secret placement of a ship passes every filter of the pruning. *)
Lemma pruned_keeps_ship (p : BattleshipPlayer) name ship confs :
  core_inv p → paired p name ship → ship ∈ confs → ship ∈ pruned p name confs.
Proof.
  intros Hinv Hp Hin. unfold pruned. case_decide; [done|].
  destruct (inv_status p Hinv name ship Hp) as (st & -> & Hcp & Hhc & _).
  assert (Hm : ship ∩ misses p = ∅).
  { pose proof (inv_misses p Hinv). pose proof (paired_subset p name ship Hinv Hp).
    set_solver. }
  repeat case_decide; apply list_elem_of_filter; (split; [|done]); try done.
  - rewrite Hcp, Hhc. split; [|done].
    by replace (hits p ∩ ship ∩ ship) with (hits p ∩ ship) by set_solver.
  - by rewrite <- Hcp.
Qed.

Lemma prune_inv (p1 p2 : BattleshipPlayer) :
  core_inv p1 →
  (last_move p1 ≠ 1 → ∀ name confs conf,
     possShipsDict (board p1) !! name = Some confs → conf ∈ confs →
     conf ∩ misses p1 = ∅) →
  (last_move p1 = 1 → ∀ name confs conf st,
     possShipsDict (board p1) !! name = Some confs → conf ∈ confs →
     enemy_ship_statuses p1 !! name = Some st → confirmed_pos st ≠ ∅ →
     Z.of_nat (size (confirmed_pos st ∩ conf)) = hit_count st
     ∧ hit_count st = Z.of_nat (size (hits p1 ∩ conf))) →
  update_possible_ship_positions p1 = Ok p2 →
  (∃ b', p2 = set_board p1 b'
     ∧ ∀ name, possShipsDict b' !! name
               = pruned p1 name <$> possShipsDict (board p1) !! name)
  ∧ core_inv p2 ∧ catalog_inv p2.
Proof.
  intros Hinv Hmiss Hexp Hrun.
  destruct (update_possible_spec p1 (inv_board p1 Hinv))
    as (b' & Hrun' & Hd & Hn & Hs & Hdict & Hnum).
  { intros name Hin. destruct (paired_of_name p1 name Hinv Hin) as [ship Hp].
    destruct (inv_status p1 Hinv name ship Hp) as (st & -> & _). by eexists. }
  rewrite Hrun in Hrun'. injection Hrun' as ->.
  split; [by exists b'|].
  pose proof (pruned_board_wf p1 b' (inv_board p1 Hinv) Hd Hn Hs Hdict Hnum) as Hwf'.
  assert (Hpaired : ∀ name ship, paired (set_board p1 b') name ship ↔ paired p1 name ship).
  { intros name ship. unfold paired. simpl. by rewrite Hn. }
  split; [split; simpl|split; simpl].
  - done.
  - rewrite Hn. apply (inv_names p1 Hinv).
  - rewrite Hn. eapply Forall2_impl.
    + apply (Forall2_same_length_lookup_2 (λ name ship, paired p1 name ship)).
      * by eapply Forall2_length, (inv_fleet p1 Hinv).
      * intros i name ship Hi Hsh. by exists i.
    + intros name ship Hp. destruct (paired_candidate p1 name ship Hinv Hp) as (confs & Hc & Hin).
      exists (pruned p1 name confs). split; [by rewrite Hdict, Hc|].
      by apply pruned_keeps_ship.
  - apply (inv_disjoint p1 Hinv).
  - apply (inv_enemy_board p1 Hinv).
  - apply (inv_hits p1 Hinv).
  - apply (inv_misses p1 Hinv).
  - apply (inv_num_hits p1 Hinv).
  - intros name ship Hp%Hpaired. apply (inv_status p1 Hinv name ship Hp).
  - rewrite Hn. apply (inv_order p1 Hinv).
  - rewrite Hs. apply (inv_target p1 Hinv).
  - intros Hnn. apply (inv_boards p1 Hinv). unfold lengths_nonneg in *. by rewrite <- Hs.
  - apply (inv_population p1 Hinv).
  - intros name confs conf Hc Hconf. rewrite Hdict in Hc.
    destruct (possShipsDict (board p1) !! name) as [confs0|] eqn:Hc0; [|done].
    injection Hc as <-.
    destruct (decide (last_move p1 = 1)) as [Hlm|Hlm].
    + assert (Hname : name ∈ names (board p1))
        by (apply (wf_dict_dom _ (inv_board p1 Hinv)); by eexists).
      destruct (paired_of_name p1 name Hinv Hname) as [ship Hp].
      destruct (inv_status p1 Hinv name ship Hp) as (st & Hst & _).
      revert Hconf. unfold pruned. rewrite Hst.
      case_decide as Hlen.
      * destruct confs0 as [|c0 [|c1 confs0]]; [done| |done].
        intros <-%list_elem_of_singleton.
        rewrite (single_candidate p1 name ship conf Hinv Hp Hc0).
        pose proof (inv_misses p1 Hinv). pose proof (paired_subset p1 name ship Hinv Hp).
        set_solver.
      * repeat case_decide; try done; by intros [? _]%list_elem_of_filter.
    + eapply Hmiss; [done|exact Hc0|]. by eapply pruned_subset.
  - intros name confs conf st Hc Hconf Hst Hne. rewrite Hdict in Hc.
    destruct (possShipsDict (board p1) !! name) as [confs0|] eqn:Hc0; [|done].
    injection Hc as <-.
    destruct (decide (last_move p1 = 1)) as [Hlm|Hlm].
    + eapply Hexp; [done|exact Hc0| |done..]. by eapply pruned_subset.
    + revert Hconf. unfold pruned. rewrite Hst. case_decide as Hlen.
      * destruct confs0 as [|c0 [|c1 confs0]]; [done| |done].
        intros <-%list_elem_of_singleton.
        assert (Hname : name ∈ names (board p1))
          by (apply (wf_dict_dom _ (inv_board p1 Hinv)); by eexists).
        destruct (paired_of_name p1 name Hinv Hname) as [ship Hp].
        rewrite (single_candidate p1 name ship conf Hinv Hp Hc0).
        destruct (inv_status p1 Hinv name ship Hp) as (st' & Hst' & Hcp & Hhc & _).
        rewrite Hst in Hst'. injection Hst' as <-.
        rewrite Hcp, Hhc. split; [|done].
        by replace (hits p1 ∩ ship ∩ ship) with (hits p1 ∩ ship) by set_solver.
      * rewrite decide_True by done. rewrite decide_False by done.
        by intros [? _]%list_elem_of_filter.
Qed.

(** ** Moves *)

Lemma elem_of_zip_paired (p : BattleshipPlayer) name ship :
  (name, ship) ∈ zip (names (board p)) (enemy_ships p) ↔ paired p name ship.
Proof.
  unfold paired. rewrite list_elem_of_lookup.
  by setoid_rewrite lookup_zip_Some.
Qed.

(** The status [update_game_state] writes for the ship that was hit. *)
Definition hit_status (st : status) (ship : gset cell) (coords : cell) : status :=
  mkStatus
    (if decide (hit_count st + 1 = Z.of_nat (size ship)) then true else sunk st)
    (confirmed_pos st ∪ {[coords]})
    (hit_count st + 1).

Lemma attribute_hit_first (coords : cell) (pairs : list (string * gset cell))
    (sts : gmap string status) :
  (∃ pr, pr ∈ pairs ∧ coords ∈ pr.2) →
  (∀ name ship, (name, ship) ∈ pairs → is_Some (sts !! name)) →
  ∃ name ship st,
    (name, ship) ∈ pairs ∧ coords ∈ ship ∧ sts !! name = Some st
    ∧ attribute_hit coords pairs sts = Ok (<[name := hit_status st ship coords]> sts).
Proof.
  induction pairs as [|[n s] pairs IH]; intros (pr & Hpr & Hc) Hsts.
  - by apply elem_of_nil in Hpr.
  - simpl. case_decide as Hin.
    + destruct (Hsts n s) as [st Hst]; [by left|].
      exists n, s, st. repeat split; [by left|done|done|].
      unfold getitem. rewrite Hst. done.
    + destruct IH as (name & ship & st & Hp & Hcs & Hst & Hrun).
      * apply elem_of_cons in Hpr as [->|Hpr]; [done|]. by exists pr.
      * intros name ship Hp. apply (Hsts name ship). by right.
      * exists name, ship, st. repeat split; [by right|done..].
Qed.

Lemma attribute_hit_none (coords : cell) (pairs : list (string * gset cell))
    (sts : gmap string status) :
  (∀ pr, pr ∈ pairs → coords ∉ pr.2) → attribute_hit coords pairs sts = Ok sts.
Proof.
  induction pairs as [|[n s] pairs IH]; intros Hno; [done|].
  simpl. rewrite decide_False; [|apply (Hno (n, s)); by left].
  apply IH. intros pr Hpr. apply Hno. by right.
Qed.

Lemma hit_inv (p : BattleshipPlayer) (coords : cell) :
  core_inv p → coords ∈ enemy_board p → coords ∉ hits p →
  ∃ name ship st,
    paired p name ship ∧ coords ∈ ship ∧ enemy_ship_statuses p !! name = Some st
    ∧ attribute_hit coords (zip (names (board p)) (enemy_ships p)) (enemy_ship_statuses p)
      = Ok (<[name := hit_status st ship coords]> (enemy_ship_statuses p))
    ∧ core_inv (mkPlayer (board p) (enemy_ships p) (enemy_board p)
                  (<[name := hit_status st ship coords]> (enemy_ship_statuses p))
                  (n_boards p) (hits p ∪ {[coords]}) (misses p) (random_boards p)
                  (name_order p) (target_hits p) 2 (num_hits p + 1)).
Proof.
  intros Hinv Heb Hnew.
  destruct (attribute_hit_first coords (zip (names (board p)) (enemy_ships p))
              (enemy_ship_statuses p)) as (name & ship & st & Hp & Hc & Hst & Hrun).
  { destruct (enemy_board_paired p coords Hinv Heb) as (name & ship & Hp & Hc).
    exists (name, ship). split; [by apply elem_of_zip_paired|done]. }
  { intros name ship Hp%elem_of_zip_paired.
    destruct (inv_status p Hinv name ship Hp) as (st & -> & _). by eexists. }
  apply elem_of_zip_paired in Hp.
  exists name, ship, st. do 4 (split; [done|]).
  destruct (inv_status p Hinv name ship Hp) as (st' & Hst' & Hcp & Hhc & Hsunk).
  rewrite Hst in Hst'. injection Hst' as <-.
  assert (Hsize : size ((hits p ∪ {[coords]}) ∩ ship) = S (size (hits p ∩ ship))).
  { replace ((hits p ∪ {[coords]}) ∩ ship) with ({[coords]} ∪ hits p ∩ ship) by set_solver.
    rewrite size_union by set_solver. by rewrite size_singleton. }
  assert (Hle : (size ((hits p ∪ {[coords]}) ∩ ship) ≤ size ship)%nat)
    by (apply subseteq_size; set_solver).
  destruct Hinv as [Hwf Hnames Hfleet Hpd Hebd Hhits Hmiss Hnum Hstatus Hord Htar Hboards Hpop].
  split; simpl; try done.
  - set_solver.
  - rewrite Hnum. rewrite size_union by set_solver. rewrite size_singleton. lia.
  - intros name' ship' Hp'.
    assert (Hp'' : paired p name' ship') by exact Hp'.
    destruct (decide (name = name')) as [<-|Hne].
    + assert (ship' = ship) as ->.
      { destruct Hp as (i & Hi & Hs), Hp'' as (j & Hj & Hs').
        assert (i = j) as -> by (eapply NoDup_lookup; [apply (wf_nodup _ Hwf)|done..]).
        congruence. }
      rewrite lookup_insert_eq. eexists. split; [done|]. unfold hit_status. simpl.
      split; [rewrite Hcp; set_solver|]. split; [rewrite Hhc, Hsize; lia|].
      rewrite Hhc. case_decide as Hfull.
      * split; [intros _; split; lia|done].
      * split; [|intros [_ ?]; lia].
        intros Hs%Hsunk. lia.
    + rewrite lookup_insert_ne by done.
      destruct (Hstatus name' ship' Hp'') as (st' & Hst' & Hcp' & Hhc' & Hsunk').
      exists st'. split; [done|].
      assert (Hdis : ship ## ship').
      { destruct Hp as (i & Hi & Hs), Hp'' as (j & Hj & Hs').
        eapply (proj1 (pairwise_disjoint_lookup _) Hpd i j); [|done..].
        intros ->. congruence. }
      replace ((hits p ∪ {[coords]}) ∩ ship') with (hits p ∩ ship') by set_solver.
      done.
Qed.

Lemma miss_inv (p : BattleshipPlayer) (coords : cell) :
  core_inv p → coords ∉ enemy_board p →
  core_inv (mkPlayer (board p) (enemy_ships p) (enemy_board p) (enemy_ship_statuses p)
              (n_boards p) (hits p) (misses p ∪ {[coords]}) (random_boards p)
              (name_order p) (target_hits p) 1 (num_hits p)).
Proof.
  intros [Hwf Hnames Hfleet Hpd Hebd Hhits Hmiss Hnum Hstatus Hord Htar Hboards Hpop] Hno.
  split; simpl; try done. set_solver.
Qed.

(** The three courses a call of [update_game_state] can take. *)
Inductive move_kind : Set := FreshHit | FreshMiss | Repeated.

Definition classify (p : BattleshipPlayer) (coords : cell) : move_kind :=
  if decide (coords ∈ enemy_board p) then
    if decide (coords ∉ hits p) then FreshHit else Repeated
  else if decide (coords ∉ misses p) then FreshMiss else Repeated.

Lemma move_inv (p : BattleshipPlayer) (x y : Z) :
  core_inv p → catalog_inv p →
  ∃ p', update_game_state p x y = Ok (PyNone, p') ∧ core_inv p' ∧ catalog_inv p'.
Proof.
  intros Hinv Hcat. unfold update_game_state.
  case_decide as Heb; [case_decide as Hh|case_decide as Hm].
  - destruct (hit_inv p (x, y) Hinv Heb Hh) as (name & ship & st & Hp & Hc & Hst & -> & Hinv1).
    simpl.
    match goal with |- context [update_possible_ship_positions ?q] => set (p1 := q) in * end.
    destruct (update_possible_spec p1 (inv_board p1 Hinv1)) as (b' & Hrun & _).
    { intros n Hin. destruct (paired_of_name p1 n Hinv1 Hin) as [s Hps].
      destruct (inv_status p1 Hinv1 n s Hps) as (st' & -> & _). by eexists. }
    rewrite Hrun. simpl. eexists. split; [done|].
    eapply prune_inv; [exact Hinv1| | |exact Hrun].
    + intros _ n confs conf. apply (inv_no_miss p Hcat).
    + by intros [=].
  - exists p. split; [done|]. by split.
  - pose proof (miss_inv p (x, y) Hinv Heb) as Hinv1.
    match goal with |- context [update_possible_ship_positions ?q] => set (p1 := q) in * end.
    destruct (update_possible_spec p1 (inv_board p1 Hinv1)) as (b' & Hrun & _).
    { intros n Hin. destruct (paired_of_name p1 n Hinv1 Hin) as [s Hps].
      destruct (inv_status p1 Hinv1 n s Hps) as (st' & -> & _). by eexists. }
    rewrite Hrun. simpl. eexists. split; [done|].
    eapply prune_inv; [exact Hinv1| | |exact Hrun].
    + by intros [].
    + intros _ n confs conf st. apply (inv_explains p Hcat).
  - exists p. split; [done|]. by split.
Qed.

Theorem reachable_inv (p : BattleshipPlayer) :
  reachable p → core_inv p ∧ catalog_inv p.
Proof.
  induction 1 as [fuel d ships boards rnd p rnd' Hinit
                 |fuel p rnd p' rnd' _ [Hinv Hcat] Hrun
                 |p x y v p' _ [Hinv Hcat] Hrun
                 |fuel p rnd p' rnd' _ [Hinv Hcat] Hrun].
  - by eapply init_inv.
  - by eapply refresh_inv.
  - destruct (move_inv p x y Hinv Hcat) as (p'' & Hrun' & Hinv' & Hcat').
    rewrite Hrun in Hrun'. by injection Hrun' as -> ->.
  - by eapply reset_inv.
Qed.

(** ** Properties of the states a game can reach *)

Lemma small_player_init :
  BattleshipPlayer_init 5 3 [2; 1] 3 small_tape
  = Ok (small_player, λ i, small_tape (S (S i))).
Proof. vm_compute. reflexivity. Qed.

Lemma small_player_hit_move :
  update_game_state small_player 0 0 = Ok (PyNone, small_player_hit).
Proof. vm_compute. reflexivity. Qed.

Lemma small_player_miss_move :
  update_game_state small_player_hit 1 1 = Ok (PyNone, small_player_miss).
Proof. vm_compute. reflexivity. Qed.

Lemma small_player_reachable : reachable small_player.
Proof. eapply reach_init. exact small_player_init. Qed.

Lemma small_player_hit_reachable : reachable small_player_hit.
Proof. eapply reach_move; [exact small_player_reachable|exact small_player_hit_move]. Qed.

Lemma small_player_miss_reachable : reachable small_player_miss.
Proof.
  eapply reach_move; [exact small_player_hit_reachable|exact small_player_miss_move].
Qed.

(** X1.  Pruning never discards the truth: in every state a game can
    reach, the secret placement of each ship is still among the
    candidates of that ship, so no candidate list is ever empty. *)
Theorem pruning_keeps_secret_fleet (p : BattleshipPlayer) :
  reachable p →
  Forall2 (λ name ship, ∃ confs, possShipsDict (board p) !! name = Some confs ∧ ship ∈ confs)
    (names (board p)) (enemy_ships p)
  ∧ ∀ name confs, possShipsDict (board p) !! name = Some confs → confs ≠ [].
Proof.
  intros [Hinv _]%reachable_inv. split; [apply (inv_fleet p Hinv)|].
  intros name confs Hc ->. by apply (core_no_empty_catalog p name Hinv).
Qed.

Lemma pruning_keeps_secret_fleet_witness :
  Forall2 (λ name ship,
      ∃ confs, possShipsDict (board small_player_miss) !! name = Some confs ∧ ship ∈ confs)
    (names (board small_player_miss)) (enemy_ships small_player_miss)
  ∧ ∀ name confs, possShipsDict (board small_player_miss) !! name = Some confs → confs ≠ [].
Proof. apply pruning_keeps_secret_fleet. exact small_player_miss_reachable. Defined.

(** X2.  In every reachable state each candidate placement agrees with
    the history: it holds no missed tile, and if its ship has confirmed
    hits it holds exactly [hit_count] of them and exactly [hit_count] of
    all hit tiles. *)
Theorem candidates_agree_with_history (p : BattleshipPlayer) (name : string)
    (confs : list (gset cell)) (conf : gset cell) :
  reachable p →
  possShipsDict (board p) !! name = Some confs → conf ∈ confs →
  conf ∩ misses p = ∅
  ∧ ∀ st, enemy_ship_statuses p !! name = Some st → confirmed_pos st ≠ ∅ →
      Z.of_nat (size (confirmed_pos st ∩ conf)) = hit_count st
      ∧ Z.of_nat (size (hits p ∩ conf)) = hit_count st.
Proof.
  intros [Hinv Hcat]%reachable_inv Hc Hconf. split; [by eapply (inv_no_miss p Hcat)|].
  intros st Hst Hne.
  destruct (inv_explains p Hcat name confs conf st Hc Hconf Hst Hne) as [H1 H2].
  by rewrite <- H2.
Qed.

Lemma candidates_agree_with_history_witness :
  {[ (0, 0); (0, 1) ]} ∩ misses small_player_miss = ∅
  ∧ ∀ st, enemy_ship_statuses small_player_miss !! "a"%string = Some st →
      confirmed_pos st ≠ ∅ →
      Z.of_nat (size (confirmed_pos st ∩ {[ (0, 0); (0, 1) ]})) = hit_count st
      ∧ Z.of_nat (size (hits small_player_miss ∩ {[ (0, 0); (0, 1) ]})) = hit_count st.
Proof.
  apply (candidates_agree_with_history small_player_miss "a"%string
           [ {[ (0, 0); (1, 0) ]}; {[ (0, 0); (0, 1) ]} ]).
  - exact small_player_miss_reachable.
  - vm_compute. reflexivity.
  - apply (bool_decide_unpack _). vm_compute. reflexivity.
Defined.

(** X3.  A move at a tile that is already in [hits] or in [misses]
    changes nothing: [update_game_state] returns [None] and leaves the
    whole state as it was. *)
Theorem repeated_move_changes_nothing (p : BattleshipPlayer) (x y : Z) :
  reachable p → (x, y) ∈ hits p ∪ misses p →
  update_game_state p x y = Ok (PyNone, p).
Proof.
  intros [Hinv _]%reachable_inv Hin. unfold update_game_state.
  pose proof (inv_hits p Hinv). pose proof (inv_misses p Hinv).
  apply elem_of_union in Hin as [Hh|Hm].
  - rewrite decide_True by set_solver. by rewrite decide_False by (intros Hn; by apply Hn).
  - rewrite decide_False by set_solver. by rewrite decide_False by (intros Hn; by apply Hn).
Qed.

Lemma repeated_move_changes_nothing_witness :
  update_game_state small_player_miss 0 0 = Ok (PyNone, small_player_miss)
  ∧ update_game_state small_player_miss 1 1 = Ok (PyNone, small_player_miss).
Proof.
  split; apply repeated_move_changes_nothing;
    try exact small_player_miss_reachable;
    apply (bool_decide_unpack _); vm_compute; reflexivity.
Defined.

(** The secret fleet covers as many tiles as the ship lengths add up
    to. *)
Lemma enemy_board_size (p : BattleshipPlayer) :
  core_inv p → lengths_nonneg (board p) →
  Z.of_nat (size (enemy_board p)) = target_hits p.
Proof.
  intros Hinv Hnn.
  rewrite (inv_enemy_board p Hinv), (inv_target p Hinv), (sum_values_names _ (inv_board p Hinv)).
  rewrite size_union_list by apply (inv_disjoint p Hinv).
  apply candidates_cells; [apply (inv_board p Hinv)|done| |apply (inv_fleet p Hinv)].
  by apply Forall_forall.
Qed.

(** X4.  With ship lengths that are not negative, [check_all_sunk]
    answers [True] exactly when every tile of the secret fleet has been
    hit; the number of hits never exceeds the target. *)
Theorem all_sunk_iff_fleet_hit (p : BattleshipPlayer) :
  reachable p → lengths_nonneg (board p) →
  (check_all_sunk p = true ↔ hits p = enemy_board p)
  ∧ 0 ≤ num_hits p ≤ target_hits p.
Proof.
  intros [Hinv _]%reachable_inv Hnn.
  pose proof (enemy_board_size p Hinv Hnn) as Hsize.
  pose proof (inv_num_hits p Hinv) as Hnum.
  pose proof (subseteq_size _ _ (inv_hits p Hinv)) as Hle.
  split; [|lia]. unfold check_all_sunk. rewrite bool_decide_eq_true. split.
  - intros Heq. apply set_subseteq_size_eq; [apply (inv_hits p Hinv)|lia].
  - intros Heq. rewrite Heq in Hnum. lia.
Qed.

Lemma all_sunk_iff_fleet_hit_witness :
  (check_all_sunk small_player_miss = true
   ↔ hits small_player_miss = enemy_board small_player_miss)
  ∧ 0 ≤ num_hits small_player_miss ≤ target_hits small_player_miss.
Proof.
  apply all_sunk_iff_fleet_hit; [exact small_player_miss_reachable|].
  apply (bool_decide_unpack _). vm_compute. reflexivity.
Defined.

(** X5.  In every reachable state no tile is both a hit and a miss,
    the hits lie on the secret fleet and the misses off it, and
    [num_hits] is the number of tiles in [hits]. *)
Theorem history_is_consistent (p : BattleshipPlayer) :
  reachable p →
  hits p ∩ misses p = ∅
  ∧ hits p ⊆ enemy_board p
  ∧ misses p ∩ enemy_board p = ∅
  ∧ enemy_board p = ⋃ enemy_ships p
  ∧ num_hits p = Z.of_nat (size (hits p)).
Proof.
  intros [Hinv _]%reachable_inv.
  pose proof (inv_hits p Hinv). pose proof (inv_misses p Hinv).
  repeat split; [set_solver|done|set_solver|apply (inv_enemy_board p Hinv)|
                 apply (inv_num_hits p Hinv)].
Qed.

Lemma history_is_consistent_witness :
  hits small_player_miss ∩ misses small_player_miss = ∅
  ∧ hits small_player_miss ⊆ enemy_board small_player_miss
  ∧ misses small_player_miss ∩ enemy_board small_player_miss = ∅
  ∧ enemy_board small_player_miss = ⋃ enemy_ships small_player_miss
  ∧ num_hits small_player_miss = Z.of_nat (size (hits small_player_miss)).
Proof. apply history_is_consistent. exact small_player_miss_reachable. Defined.

(** X6.  The status of each ship follows the hits on its secret
    placement: [confirmed_pos] is the set of hit tiles of the ship,
    [hit_count] their number, and [sunk] is set exactly when the ship
    has been hit and all its tiles are hit. *)
Theorem status_follows_hits (p : BattleshipPlayer) (name : string) (ship : gset cell) :
  reachable p → paired p name ship →
  ∃ st, enemy_ship_statuses p !! name = Some st
    ∧ confirmed_pos st = hits p ∩ ship
    ∧ hit_count st = Z.of_nat (size (hits p ∩ ship))
    ∧ (sunk st = true ↔ hits p ∩ ship ≠ ∅ ∧ ship ⊆ hits p).
Proof.
  intros [Hinv _]%reachable_inv Hp.
  destruct (inv_status p Hinv name ship Hp) as (st & Hst & Hcp & Hhc & Hsunk).
  exists st. do 3 (split; [done|]). rewrite Hsunk, Hhc.
  pose proof (subseteq_size (hits p ∩ ship) ship) as Hle.
  split.
  - intros [Hpos Hfull]. split.
    + intros Hempty. rewrite Hempty, size_empty in Hpos. lia.
    + assert (hits p ∩ ship = ship); [|set_solver].
      apply set_subseteq_size_eq; [set_solver|lia].
  - intros [Hne Hsub].
    assert (hits p ∩ ship = ship) as -> by set_solver.
    split; [|done].
    assert (size ship ≠ 0%nat); [|lia].
    intros Hz%size_empty_inv. apply Hne. set_solver.
Qed.

Lemma status_follows_hits_witness :
  ∃ st, enemy_ship_statuses small_player_miss !! "a"%string = Some st
    ∧ confirmed_pos st = hits small_player_miss ∩ {[ (0, 0); (1, 0) ]}
    ∧ hit_count st = Z.of_nat (size (hits small_player_miss ∩ {[ (0, 0); (1, 0) ]}))
    ∧ (sunk st = true ↔ hits small_player_miss ∩ {[ (0, 0); (1, 0) ]} ≠ ∅
                        ∧ {[ (0, 0); (1, 0) ]} ⊆ hits small_player_miss).
Proof.
  apply status_follows_hits; [exact small_player_miss_reachable|].
  exists 0%nat. split; vm_compute; reflexivity.
Defined.

Lemma pruned_sublist (p : BattleshipPlayer) name confs :
  pruned p name confs `sublist_of` confs.
Proof. unfold pruned. repeat case_match; try done; apply sublist_filter. Qed.

Ltac decide_all :=
  repeat first [ rewrite decide_True by tauto | rewrite decide_False by tauto ].

(** What a move does, in full. *)
Lemma move_effect (p : BattleshipPlayer) (x y : Z) :
  core_inv p → catalog_inv p →
  ∃ p', update_game_state p x y = Ok (PyNone, p')
    ∧ hits p' = (if decide ((x, y) ∈ enemy_board p) then hits p ∪ {[(x, y)]} else hits p)
    ∧ misses p' = (if decide ((x, y) ∈ enemy_board p) then misses p
                   else misses p ∪ {[(x, y)]})
    ∧ num_hits p' = (if decide ((x, y) ∈ enemy_board p ∧ (x, y) ∉ hits p)
                     then num_hits p + 1 else num_hits p)
    ∧ last_move p' = match classify p (x, y) with
                     | FreshHit => 2
                     | FreshMiss => 1
                     | Repeated => last_move p
                     end
    ∧ enemy_ships p' = enemy_ships p ∧ enemy_board p' = enemy_board p
    ∧ random_boards p' = random_boards p ∧ name_order p' = name_order p
    ∧ n_boards p' = n_boards p ∧ target_hits p' = target_hits p
    ∧ dim (board p') = dim (board p) ∧ names (board p') = names (board p)
    ∧ shipLengths (board p') = shipLengths (board p)
    ∧ (∀ name confs', possShipsDict (board p') !! name = Some confs' →
         ∃ confs, possShipsDict (board p) !! name = Some confs
           ∧ confs' `sublist_of` confs).
Proof.
  intros Hinv Hcat. unfold update_game_state, classify.
  pose proof (inv_hits p Hinv) as Hhits. pose proof (inv_misses p Hinv) as Hmiss.
  destruct (decide ((x, y) ∈ enemy_board p)) as [Heb|Heb];
    [destruct (decide ((x, y) ∈ hits p)) as [Hh|Hh]
    |destruct (decide ((x, y) ∈ misses p)) as [Hm|Hm]]; decide_all.
  - exists p. split; [done|].
    split; [set_solver|]. do 12 (split; [done|]). intros n confs' Hc'.
    exists confs'. by split.
  - destruct (hit_inv p (x, y) Hinv Heb Hh) as (name & ship & st & Hp & Hc & Hst & -> & Hinv1).
    simpl.
    match goal with |- context [update_possible_ship_positions ?q] => set (p1 := q) in * end.
    destruct (update_possible_spec p1 (inv_board p1 Hinv1))
      as (b' & Hrun & Hd & Hn & Hs & Hdict & _).
    { intros n Hin. destruct (paired_of_name p1 n Hinv1 Hin) as [s Hps].
      destruct (inv_status p1 Hinv1 n s Hps) as (st' & -> & _). by eexists. }
    rewrite Hrun. simpl. eexists. split; [done|]. simpl.
    do 13 (split; [done|]).
    intros n confs' Hc'. rewrite Hdict in Hc'. simpl in Hc'.
    destruct (possShipsDict (board p) !! n) as [confs|]; [|done].
    injection Hc' as <-. exists confs. split; [done|apply pruned_sublist].
  - exists p. split; [done|].
    split; [done|]. split; [set_solver|]. do 11 (split; [done|]).
    intros n confs' Hc'. exists confs'. by split.
  - pose proof (miss_inv p (x, y) Hinv Heb) as Hinv1.
    match goal with |- context [update_possible_ship_positions ?q] => set (p1 := q) in * end.
    destruct (update_possible_spec p1 (inv_board p1 Hinv1))
      as (b' & Hrun & Hd & Hn & Hs & Hdict & _).
    { intros n Hin. destruct (paired_of_name p1 n Hinv1 Hin) as [s Hps].
      destruct (inv_status p1 Hinv1 n s Hps) as (st' & -> & _). by eexists. }
    rewrite Hrun. simpl. eexists. split; [done|]. simpl.
    do 13 (split; [done|]).
    intros n confs' Hc'. rewrite Hdict in Hc'. simpl in Hc'.
    destruct (possShipsDict (board p) !! n) as [confs|]; [|done].
    injection Hc' as <-. exists confs. split; [done|apply pruned_sublist].
Qed.

(** X7.  [update_game_state] raises nothing in a reachable state and
    classifies the tile: a tile of the secret fleet ends up in [hits], any
    other tile in [misses]; [num_hits] grows by one for a tile of the fleet
    that was not hit before; the fleet, the population, the ship order and
    the configuration are left alone. *)
Theorem move_classifies_tile (p : BattleshipPlayer) (x y : Z) :
  reachable p →
  ∃ p', update_game_state p x y = Ok (PyNone, p')
    ∧ hits p' = (if decide ((x, y) ∈ enemy_board p) then hits p ∪ {[(x, y)]} else hits p)
    ∧ misses p' = (if decide ((x, y) ∈ enemy_board p) then misses p
                   else misses p ∪ {[(x, y)]})
    ∧ num_hits p' = (if decide ((x, y) ∈ enemy_board p ∧ (x, y) ∉ hits p)
                     then num_hits p + 1 else num_hits p)
    ∧ enemy_ships p' = enemy_ships p ∧ enemy_board p' = enemy_board p
    ∧ random_boards p' = random_boards p ∧ name_order p' = name_order p
    ∧ n_boards p' = n_boards p ∧ target_hits p' = target_hits p.
Proof.
  intros [Hinv Hcat]%reachable_inv.
  destruct (move_effect p x y Hinv Hcat)
    as (p' & Hrun & Hh & Hm & Hn & _ & Hes & Heb & Hrb & Hno & Hnb & Hth & _).
  exists p'. by repeat split.
Qed.

Lemma move_classifies_tile_witness :
  ∃ p', update_game_state small_player_hit 1 1 = Ok (PyNone, p')
    ∧ hits p' = (if decide ((1, 1) ∈ enemy_board small_player_hit)
                 then hits small_player_hit ∪ {[(1, 1)]} else hits small_player_hit)
    ∧ misses p' = (if decide ((1, 1) ∈ enemy_board small_player_hit)
                   then misses small_player_hit
                   else misses small_player_hit ∪ {[(1, 1)]})
    ∧ num_hits p' = (if decide ((1, 1) ∈ enemy_board small_player_hit
                                ∧ (1, 1) ∉ hits small_player_hit)
                     then num_hits small_player_hit + 1 else num_hits small_player_hit)
    ∧ enemy_ships p' = enemy_ships small_player_hit
    ∧ enemy_board p' = enemy_board small_player_hit
    ∧ random_boards p' = random_boards small_player_hit
    ∧ name_order p' = name_order small_player_hit
    ∧ n_boards p' = n_boards small_player_hit
    ∧ target_hits p' = target_hits small_player_hit.
Proof. apply move_classifies_tile. exact small_player_hit_reachable. Defined.

(** X8.  [last_move] agrees with the history in every reachable state:
    it is 0 only as long as no tile has been tried, 1 only when some tile
    has been missed, and 2 only when some tile has been hit; it takes no
    other value. *)
Theorem last_move_tracks_history (p : BattleshipPlayer) :
  reachable p →
  (last_move p = 0 ∧ hits p = ∅ ∧ misses p = ∅)
  ∨ (last_move p = 1 ∧ misses p ≠ ∅)
  ∨ (last_move p = 2 ∧ hits p ≠ ∅).
Proof.
  induction 1 as [fuel d ships boards rnd p rnd' Hrun
                 |fuel p rnd p' rnd' Hreach IH Hrun
                 |p x y v p' Hreach IH Hrun
                 |fuel p rnd p' rnd' Hreach IH Hrun].
  - destruct (BattleshipBoard_init_spec d ships) as (b & Hb & _).
    rewrite (BattleshipPlayer_init_unfold _ _ _ _ b) in Hrun by done.
    destruct (draw_fleet fuel b rnd) as [[[fleet eb] r1]| |]; [|done..].
    injection Hrun as <- <-. by left.
  - apply generate_random_boards_Ok in Hrun as (fresh & _ & ->). exact IH.
  - apply reachable_inv in Hreach as [Hinv Hcat].
    destruct (move_effect p x y Hinv Hcat) as (p'' & Hrun' & Hh & Hm & _ & Hlm & _).
    rewrite Hrun in Hrun'. injection Hrun' as -> ->.
    rewrite Hh, Hm, Hlm. unfold classify.
    destruct (decide ((x, y) ∈ enemy_board p)) as [Heb|Heb];
      [destruct (decide ((x, y) ∈ hits p)) as [Hin|Hin]
      |destruct (decide ((x, y) ∈ misses p)) as [Hin|Hin]]; decide_all.
    + by replace (hits p ∪ {[(x, y)]}) with (hits p) by set_solver.
    + right. right. split; [done|set_solver].
    + by replace (misses p ∪ {[(x, y)]}) with (misses p) by set_solver.
    + right. left. split; [done|set_solver].
  - apply reachable_inv in Hreach as [Hinv _].
    destruct (reset_board p (inv_board p Hinv)) as (b & Hb & _).
    rewrite (reset_unfold _ _ b) in Hrun by done.
    destruct (draw_fleet fuel b rnd) as [[[fleet eb] r1]| |]; [|done..].
    injection Hrun as <- <-. by left.
Qed.

Lemma last_move_tracks_history_witness :
  (last_move small_player_miss = 0 ∧ hits small_player_miss = ∅
   ∧ misses small_player_miss = ∅)
  ∨ (last_move small_player_miss = 1 ∧ misses small_player_miss ≠ ∅)
  ∨ (last_move small_player_miss = 2 ∧ hits small_player_miss ≠ ∅).
Proof. apply last_move_tracks_history. exact small_player_miss_reachable. Defined.

(** X9.  A move only narrows the catalog: the dimension, the ship names
    and the ship lengths stay, and the candidates a ship has after the
    move are a sublist, in the same order, of those it had before. *)
Theorem catalog_only_shrinks (p p' : BattleshipPlayer) (x y : Z) (v : returned) :
  reachable p → update_game_state p x y = Ok (v, p') →
  dim (board p') = dim (board p) ∧ names (board p') = names (board p)
  ∧ shipLengths (board p') = shipLengths (board p)
  ∧ ∀ name confs', possShipsDict (board p') !! name = Some confs' →
      ∃ confs, possShipsDict (board p) !! name = Some confs
        ∧ confs' `sublist_of` confs
        ∧ possShipsNumDict (board p') !! name = Some (Z.of_nat (length confs')).
Proof.
  intros Hreach Hrun.
  assert (Hreach' : reachable p') by (by eapply reach_move).
  apply reachable_inv in Hreach as [Hinv Hcat]. apply reachable_inv in Hreach' as [Hinv' _].
  destruct (move_effect p x y Hinv Hcat)
    as (p'' & Hrun' & _ & _ & _ & _ & _ & _ & _ & _ & _ & _ & Hd & Hn & Hs & Hsub).
  rewrite Hrun in Hrun'. injection Hrun' as -> ->.
  do 3 (split; [done|]). intros name confs' Hc'.
  destruct (Hsub name confs' Hc') as (confs & Hc & Hsl).
  exists confs. do 2 (split; [done|]).
  by rewrite (wf_num _ (inv_board _ Hinv')), Hc'.
Qed.

Lemma catalog_only_shrinks_witness :
  dim (board small_player_hit) = dim (board small_player)
  ∧ names (board small_player_hit) = names (board small_player)
  ∧ shipLengths (board small_player_hit) = shipLengths (board small_player)
  ∧ ∀ name confs', possShipsDict (board small_player_hit) !! name = Some confs' →
      ∃ confs, possShipsDict (board small_player) !! name = Some confs
        ∧ confs' `sublist_of` confs
        ∧ possShipsNumDict (board small_player_hit) !! name
          = Some (Z.of_nat (length confs')).
Proof.
  apply (catalog_only_shrinks small_player small_player_hit 0 0 PyNone).
  - exact small_player_reachable.
  - exact small_player_hit_move.
Defined.

(** ** The population of candidate boards *)

(** Every board of the population holds all hits and no miss. *)
Definition consistent (p : BattleshipPlayer) : Prop :=
  ∀ t, t ∈ random_boards p → hits p ⊆ t ∧ t ∩ misses p = ∅.

(** What [generate_random_boards] relies on: the boards were consistent
    before the last move, so that filtering by the kind of the last move
    is enough. *)
Definition refreshable (p : BattleshipPlayer) : Prop :=
  (last_move p ≠ 1 → ∀ t, t ∈ random_boards p → t ∩ misses p = ∅)
  ∧ (last_move p = 1 → ∀ t, t ∈ random_boards p → hits p ⊆ t).

Lemma consistent_refreshable (p : BattleshipPlayer) : consistent p → refreshable p.
Proof. intros Hc. split; intros _ t Ht; by destruct (Hc t Ht). Qed.

Lemma refresh_consistent (fuel : nat) (p p' : BattleshipPlayer) (r r' : rng) :
  core_inv p → catalog_inv p → refreshable p →
  generate_random_boards fuel p r = Ok (p', r') → consistent p'.
Proof.
  intros Hinv Hcat [Hm Hh] (fresh & Hrun & ->)%generate_random_boards_Ok.
  pose proof (fresh_boards fuel p _ Hinv _ _ _ Hrun) as Hfresh.
  intros t. simpl. intros [Ht|Ht]%elem_of_app.
  - unfold kept_boards in Ht. case_decide as Hlm.
    + apply list_elem_of_filter in Ht as [Hmiss Ht]. split; [by apply Hh|done].
    + apply list_elem_of_filter in Ht as [Hhit Ht]. split; [set_solver|by apply Hm].
  - rewrite Forall_forall in Hfresh. destruct (Hfresh t Ht) as [l Hok].
    apply (sample_consistent p (sorted_order p) l t Hinv Hcat); [|exact Hok].
    by apply sorted_order_names.
Qed.

Lemma move_refreshable (p p' : BattleshipPlayer) (x y : Z) (v : returned) :
  core_inv p → catalog_inv p → consistent p →
  update_game_state p x y = Ok (v, p') → refreshable p'.
Proof.
  intros Hinv Hcat Hc Hrun.
  destruct (move_effect p x y Hinv Hcat)
    as (p'' & Hrun' & Hh & Hm & _ & Hlm & _ & _ & Hrb & _).
  rewrite Hrun in Hrun'. injection Hrun' as -> ->.
  unfold refreshable. rewrite Hh, Hm, Hlm, Hrb. unfold classify.
  destruct (decide ((x, y) ∈ enemy_board p)) as [Heb|Heb];
    [destruct (decide ((x, y) ∈ hits p)) as [Hin|Hin]
    |destruct (decide ((x, y) ∈ misses p)) as [Hin|Hin]]; decide_all.
  - split; intros _ t Ht; destruct (Hc t Ht); [done|set_solver].
  - split; [|done]. intros _ t Ht. by destruct (Hc t Ht).
  - split; intros _ t Ht; destruct (Hc t Ht); [set_solver|done].
  - split; [done|]. intros _ t Ht. by destruct (Hc t Ht).
Qed.

(** X10.  [generate_random_boards] refills the population to exactly
    [n_boards] boards (to none when [n_boards] is negative), keeps the
    ship order a permutation of the ship names, and touches nothing else:
    board, fleet, statuses, hits, misses and counters stay as they
    were. *)
Theorem refresh_refills_population (fuel : nat) (p p' : BattleshipPlayer) (rnd rnd' : rng) :
  reachable p → generate_random_boards fuel p rnd = Ok (p', rnd') →
  length (random_boards p') = Z.to_nat (n_boards p)
  ∧ name_order p' ≡ₚ names (board p)
  ∧ board p' = board p ∧ enemy_ships p' = enemy_ships p
  ∧ enemy_board p' = enemy_board p
  ∧ enemy_ship_statuses p' = enemy_ship_statuses p
  ∧ hits p' = hits p ∧ misses p' = misses p
  ∧ n_boards p' = n_boards p ∧ target_hits p' = target_hits p
  ∧ last_move p' = last_move p ∧ num_hits p' = num_hits p.
Proof.
  intros [Hinv _]%reachable_inv Hrun.
  pose proof Hrun as (fresh & Hfresh & ->)%generate_random_boards_Ok. simpl.
  pose proof (randomBoard_length _ _ _ _ _ _ _ _ Hfresh) as Hlen. simpl in Hlen.
  split; [|split; [by apply sorted_order_names|done]].
  unfold layout in *. rewrite length_app, Hlen.
  pose proof (kept_boards_length p). pose proof (inv_population p Hinv). lia.
Qed.

(** X11.  If, before a move, every board of the population held all hits
    and no miss, then after the move and the next call of
    [generate_random_boards] this is true again: the turn cycle of the
    application keeps the population consistent with the history. *)
Theorem turn_cycle_keeps_population_consistent (fuel : nat) (p p1 p2 : BattleshipPlayer)
    (x y : Z) (v : returned) (rnd rnd' : rng) :
  reachable p →
  (∀ t, t ∈ random_boards p → hits p ⊆ t ∧ t ∩ misses p = ∅) →
  update_game_state p x y = Ok (v, p1) →
  generate_random_boards fuel p1 rnd = Ok (p2, rnd') →
  ∀ t, t ∈ random_boards p2 → hits p2 ⊆ t ∧ t ∩ misses p2 = ∅.
Proof.
  intros Hreach Hc Hmove Hrefresh.
  assert (Hreach1 : reachable p1) by (by eapply reach_move).
  apply reachable_inv in Hreach as [Hinv Hcat].
  apply reachable_inv in Hreach1 as [Hinv1 Hcat1].
  apply (refresh_consistent fuel p1 p2 rnd rnd' Hinv1 Hcat1); [|exact Hrefresh].
  by apply (move_refreshable p p1 x y v).
Qed.

(** X12.  Every board that [generate_random_boards] adds holds all hits
    and no miss, whatever the population was before; and with ship lengths
    that are not negative every board of the population has as many tiles
    as the ship lengths add up to. *)
Theorem new_boards_fit_history (fuel : nat) (p p' : BattleshipPlayer) (rnd rnd' : rng) :
  reachable p → generate_random_boards fuel p rnd = Ok (p', rnd') →
  ∃ fresh, random_boards p' = kept_boards p ++ fresh
    ∧ (∀ t, t ∈ fresh → hits p ⊆ t ∧ t ∩ misses p = ∅)
    ∧ (lengths_nonneg (board p) →
       ∀ t, t ∈ random_boards p' → Z.of_nat (size t) = target_hits p).
Proof.
  intros Hreach Hrun.
  assert (Hreach' : reachable p') by (by eapply reach_refresh).
  apply reachable_inv in Hreach as [Hinv Hcat].
  apply reachable_inv in Hreach' as [Hinv' _].
  pose proof Hrun as (fresh & Hfresh & Hp')%generate_random_boards_Ok.
  exists fresh. split; [by rewrite Hp'|]. split.
  - intros t Ht.
    pose proof (fresh_boards fuel p _ Hinv _ _ _ Hfresh) as Hall.
    rewrite Forall_forall in Hall. destruct (Hall t Ht) as [l Hok].
    apply (sample_consistent p (sorted_order p) l t Hinv Hcat); [|exact Hok].
    by apply sorted_order_names.
  - intros Hnn t Ht. rewrite (inv_boards p' Hinv'); subst p'; done.
Qed.

Lemma sample_never_raises (fuel : nat) (p : BattleshipPlayer) (n : Z) (r : rng) (e : exn) :
  core_inv p →
  randomBoard fuel (board p) false (Some (sorted_order p)) n r ≠ Raise e.
Proof.
  intros Hinv Hsample. apply randomBoard_raises in Hsample.
  - rewrite chosen_sorted_order in Hsample by done.
    destruct Hsample as [[_ Hnil]|[_ (name & _ & Hempty)]].
    + apply (inv_names p Hinv). apply Permutation_nil_r.
      rewrite <- (sorted_order_names p Hinv). by rewrite Hnil.
    + by apply (core_no_empty_catalog p name Hinv).
  - apply (inv_board p Hinv).
  - rewrite chosen_sorted_order by done. apply Forall_forall. intros name Hin.
    by rewrite (sorted_order_names p Hinv) in Hin.
Qed.

(** X13.  [generate_random_boards] raises nothing in a reachable state:
    every dictionary key it looks up is present and no candidate list it
    draws from is empty.  It returns, unless the sampler is still
    retrying. *)
Theorem refresh_never_raises (fuel : nat) (p : BattleshipPlayer) (rnd : rng) :
  reachable p →
  (∃ p' rnd', generate_random_boards fuel p rnd = Ok (p', rnd'))
  ∨ generate_random_boards fuel p rnd = OutOfFuel.
Proof.
  intros [Hinv _]%reachable_inv.
  destruct (generate_random_boards fuel p rnd) as [[p' rnd']|e|] eqn:Hrun; [by left; eauto| |by right].
  exfalso. unfold generate_random_boards in Hrun.
  fold (kept_boards p) in Hrun. fold (sorted_order p) in Hrun.
  unfold mbind, M_mbind, M_bind in Hrun.
  destruct (randomBoard fuel (board p) false (Some (sorted_order p))
              (n_boards p - Z.of_nat (length (kept_boards p))) rnd)
    as [[fresh r1]|e'|] eqn:Hsample; [done| |done].
  by apply sample_never_raises in Hsample.
Qed.

Lemma small_pop_refresh :
  generate_random_boards 5 small_player cycle_tape
  = Ok (small_pop, λ i, cycle_tape (S (S (S (S (S (S i))))))).
Proof. vm_compute. reflexivity. Qed.

Lemma small_pop_boards :
  random_boards small_pop
  = [ {[ (0, 0); (1, 0); (2, 2) ]}; {[ (0, 1); (1, 1); (2, 2) ]};
      {[ (0, 0); (1, 0); (1, 2) ]} ].
Proof. vm_compute. reflexivity. Qed.

Lemma small_pop_hit_move :
  update_game_state small_pop 0 0 = Ok (PyNone, small_pop_hit).
Proof. vm_compute. reflexivity. Qed.

Lemma small_pop_next_refresh :
  generate_random_boards 5 small_pop_hit (tape [])
  = Ok (small_pop_next, λ _, mkDraw 0 0).
Proof. vm_compute. reflexivity. Qed.

Lemma small_pop_next_boards :
  random_boards small_pop_next
  = [ {[ (0, 0); (1, 0); (2, 2) ]}; {[ (0, 0); (1, 0); (1, 2) ]};
      {[ (0, 0); (1, 0); (0, 1) ]} ].
Proof. vm_compute. reflexivity. Qed.

Lemma small_pop_reachable : reachable small_pop.
Proof. eapply reach_refresh; [exact small_player_reachable|exact small_pop_refresh]. Qed.

Lemma small_pop_hit_reachable : reachable small_pop_hit.
Proof. eapply reach_move; [exact small_pop_reachable|exact small_pop_hit_move]. Qed.

Lemma small_pop_next_reachable : reachable small_pop_next.
Proof.
  eapply reach_refresh; [exact small_pop_hit_reachable|exact small_pop_next_refresh].
Qed.

Lemma refresh_refills_population_witness :
  length (random_boards small_pop_next) = Z.to_nat (n_boards small_pop_hit)
  ∧ name_order small_pop_next ≡ₚ names (board small_pop_hit)
  ∧ board small_pop_next = board small_pop_hit
  ∧ enemy_ships small_pop_next = enemy_ships small_pop_hit
  ∧ enemy_board small_pop_next = enemy_board small_pop_hit
  ∧ enemy_ship_statuses small_pop_next = enemy_ship_statuses small_pop_hit
  ∧ hits small_pop_next = hits small_pop_hit
  ∧ misses small_pop_next = misses small_pop_hit
  ∧ n_boards small_pop_next = n_boards small_pop_hit
  ∧ target_hits small_pop_next = target_hits small_pop_hit
  ∧ last_move small_pop_next = last_move small_pop_hit
  ∧ num_hits small_pop_next = num_hits small_pop_hit.
Proof.
  apply (refresh_refills_population 5 small_pop_hit small_pop_next (tape []) (λ _, mkDraw 0 0)).
  - exact small_pop_hit_reachable.
  - exact small_pop_next_refresh.
Defined.

Lemma small_pop_consistent :
  ∀ t, t ∈ random_boards small_pop → hits small_pop ⊆ t ∧ t ∩ misses small_pop = ∅.
Proof.
  intros t Ht. change (hits small_pop) with (∅ : gset cell).
  change (misses small_pop) with (∅ : gset cell). set_solver.
Qed.

Lemma turn_cycle_keeps_population_consistent_witness :
  Forall (λ t, hits small_pop_next ⊆ t ∧ t ∩ misses small_pop_next = ∅)
    (random_boards small_pop_next).
Proof.
  apply Forall_forall.
  apply (turn_cycle_keeps_population_consistent 5 small_pop small_pop_hit small_pop_next
           0 0 PyNone (tape []) (λ _, mkDraw 0 0)).
  - exact small_pop_reachable.
  - exact small_pop_consistent.
  - exact small_pop_hit_move.
  - exact small_pop_next_refresh.
Defined.

Lemma new_boards_fit_history_witness :
  ∃ fresh, random_boards small_pop_next = kept_boards small_pop_hit ++ fresh
    ∧ (∀ t, t ∈ fresh → hits small_pop_hit ⊆ t ∧ t ∩ misses small_pop_hit = ∅)
    ∧ (lengths_nonneg (board small_pop_hit) →
       ∀ t, t ∈ random_boards small_pop_next →
         Z.of_nat (size t) = target_hits small_pop_hit).
Proof.
  apply (new_boards_fit_history 5 small_pop_hit small_pop_next (tape []) (λ _, mkDraw 0 0)).
  - exact small_pop_hit_reachable.
  - exact small_pop_next_refresh.
Defined.

Lemma refresh_never_raises_witness :
  (∃ p' rnd', generate_random_boards 5 small_pop_hit (tape []) = Ok (p', rnd'))
  ∨ generate_random_boards 5 small_pop_hit (tape []) = OutOfFuel.
Proof. apply refresh_never_raises. exact small_pop_hit_reachable. Defined.

(** ** Starting over *)

(** X14.  [reset] undoes all pruning and forgets the history: the
    catalog is the full enumeration again, hits, misses and population are
    empty, every status is fresh, and dimension, ships, [n_boards] and
    [target_hits] are the ones the player was built with. *)
Theorem reset_starts_over (fuel : nat) (p p' : BattleshipPlayer) (rnd rnd' : rng) :
  reachable p → reset fuel p rnd = Ok (p', rnd') →
  dim (board p') = dim (board p) ∧ names (board p') = names (board p)
  ∧ shipLengths (board p') = shipLengths (board p)
  ∧ (∀ name len, shipLengths (board p) !! name = Some len →
       possShipsDict (board p') !! name = Some (layouts (dim (board p)) len))
  ∧ (∀ name, name ∈ names (board p) →
       enemy_ship_statuses p' !! name = Some (mkStatus false ∅ 0))
  ∧ hits p' = ∅ ∧ misses p' = ∅ ∧ random_boards p' = []
  ∧ num_hits p' = 0 ∧ last_move p' = 0
  ∧ name_order p' = names (board p)
  ∧ n_boards p' = n_boards p ∧ target_hits p' = target_hits p.
Proof.
  intros [Hinv _]%reachable_inv.
  destruct (reset_board p (inv_board p Hinv)) as (b & Hb & Hd & Hn & Hs & Hfresh & Hwf).
  rewrite (reset_unfold _ _ b) by done.
  destruct (draw_fleet fuel b rnd) as [[[fleet eb] r1]| |] eqn:Hdraw; [|done..].
  intros [= <- <-]. simpl. rewrite Hn. do 3 (split; [done|]). split; [|split; [|done]].
  - intros name len Hlen. rewrite Hfresh, decide_True, Hs, Hlen, Hd; [done|].
    rewrite Hn. apply (wf_lengths_dom _ (inv_board p Hinv)). by eexists.
  - intros name Hin. by apply fresh_statuses_lookup.
Qed.

Lemma small_reset_run :
  reset 5 small_pop_next small_tape = Ok (small_reset, λ i, small_tape (S (S i))).
Proof. vm_compute. reflexivity. Qed.

Lemma reset_starts_over_witness :
  dim (board small_reset) = dim (board small_pop_next)
  ∧ names (board small_reset) = names (board small_pop_next)
  ∧ shipLengths (board small_reset) = shipLengths (board small_pop_next)
  ∧ (∀ name len, shipLengths (board small_pop_next) !! name = Some len →
       possShipsDict (board small_reset) !! name
       = Some (layouts (dim (board small_pop_next)) len))
  ∧ (∀ name, name ∈ names (board small_pop_next) →
       enemy_ship_statuses small_reset !! name = Some (mkStatus false ∅ 0))
  ∧ hits small_reset = ∅ ∧ misses small_reset = ∅ ∧ random_boards small_reset = []
  ∧ num_hits small_reset = 0 ∧ last_move small_reset = 0
  ∧ name_order small_reset = names (board small_pop_next)
  ∧ n_boards small_reset = n_boards small_pop_next
  ∧ target_hits small_reset = target_hits small_pop_next.
Proof.
  apply (reset_starts_over 5 small_pop_next small_reset small_tape (λ i, small_tape (S (S i)))).
  - exact small_pop_next_reachable.
  - exact small_reset_run.
Defined.

(** ** More on the board *)

Lemma zip_take_r_long {A B} (k : nat) (l : list A) (m : list B) :
  (length l ≤ k)%nat → zip l m = zip l (take k m).
Proof.
  revert l m. induction k as [|k IH]; intros l m Hlen.
  - destruct l; [done|simpl in Hlen; lia].
  - destruct l as [|a l], m as [|c m]; try done.
    simpl. f_equal. apply IH. simpl in Hlen. lia.
Qed.

(** X15.  Ship names are letters of the alphabet, so only the first 26
    ship lengths count: the board built from a longer list is the board
    built from its first 26 entries. *)
Theorem ships_beyond_alphabet_dropped (d : Z) (ships : list Z) :
  BattleshipBoard_init d ships = BattleshipBoard_init d (take 26 ships).
Proof.
  unfold BattleshipBoard_init.
  assert (Hnames : take (length (take 26 ships)) ascii_lowercase
                   = take (length ships) ascii_lowercase).
  { rewrite length_take. destruct (decide (length ships ≤ 26)%nat).
    - by rewrite Nat.min_r by lia.
    - rewrite Nat.min_l by lia. rewrite !take_ge; [done|simpl; lia|simpl; lia]. }
  rewrite Hnames. do 3 f_equal.
  apply zip_take_r_long. rewrite length_take. simpl. lia.
Qed.
(** ** Choosing a tile *)

(** *** The stable sort sorts *)

Lemma insert_stable_sorted {A} (before : A → A → bool) (x : A) (s : list A) :
  (∀ a c, before a c = true → before c a = false) →
  (∀ a c e, before a c = false → before c e = false → before a e = false) →
  StronglySorted (λ a c, before c a = false) s →
  StronglySorted (λ a c, before c a = false) (insert_stable before x s).
Proof.
  intros Hasym Htrans. induction 1 as [|y s Hs IH Hy]; simpl.
  - repeat constructor.
  - destruct (before y x) eqn:Hyx.
    + constructor; [done|]. rewrite insert_stable_perm. constructor; [by apply Hasym|done].
    + constructor; [by constructor|]. constructor; [done|].
      eapply Forall_impl; [exact Hy|]. intros z Hz. simpl in Hz. by eapply Htrans.
Qed.

Lemma sorted_stable_sorted {A} (before : A → A → bool) (l : list A) :
  (∀ a c, before a c = true → before c a = false) →
  (∀ a c e, before a c = false → before c e = false → before a e = false) →
  StronglySorted (λ a c, before c a = false) (sorted_stable before l).
Proof.
  intros Hasym Htrans. induction l as [|x l IH]; [constructor|].
  by apply insert_stable_sorted.
Qed.

Lemma StronglySorted_weaken {A} (R1 R2 : A → A → Prop) (l : list A) :
  (∀ a c, R1 a c → R2 a c) → StronglySorted R1 l → StronglySorted R2 l.
Proof.
  intros HR. induction 1 as [|a l Hl IH Ha]; constructor; [done|].
  eapply Forall_impl; [exact Ha|]. intros c. apply HR.
Qed.

(** *** What [Counter] counts *)

(** How often [c] stands in [xs]. *)
Definition occurrences (c : cell) (xs : list cell) : Z :=
  Z.of_nat (length (filter (λ x, x = c) xs)).

(** The number of boards of the population that hold the tile [c]. *)
Definition count_in (boards : list (gset cell)) (c : cell) : Z :=
  Z.of_nat (length (filter (λ b, c ∈ b) boards)).

Lemma occurrences_snoc (c x : cell) (xs : list cell) :
  occurrences c (xs ++ [x]) = occurrences c xs + (if decide (x = c) then 1 else 0).
Proof.
  unfold occurrences. rewrite filter_app, length_app.
  rewrite filter_cons, filter_nil. destruct (decide (x = c)); simpl; lia.
Qed.

Lemma occurrences_app (c : cell) (xs ys : list cell) :
  occurrences c (xs ++ ys) = occurrences c xs + occurrences c ys.
Proof. unfold occurrences. rewrite filter_app, length_app. lia. Qed.

Lemma occurrences_absent (c : cell) (xs : list cell) : c ∉ xs → occurrences c xs = 0.
Proof.
  intros Hc. unfold occurrences.
  destruct (filter (λ x, x = c) xs) as [|z l] eqn:Hf; [done|].
  assert (Hz : z ∈ filter (λ x, x = c) xs) by (rewrite Hf; left).
  apply list_elem_of_filter in Hz as [-> Hz]. done.
Qed.

Lemma occurrences_present (c : cell) (xs : list cell) : c ∈ xs → 0 < occurrences c xs.
Proof.
  intros Hc. unfold occurrences.
  assert (Hz : c ∈ filter (λ x, x = c) xs) by (by apply list_elem_of_filter).
  destruct (filter (λ x, x = c) xs); [by apply elem_of_nil in Hz|simpl; lia].
Qed.

Lemma occurrences_NoDup (c : cell) (xs : list cell) :
  NoDup xs → occurrences c xs = if decide (c ∈ xs) then 1 else 0.
Proof.
  induction 1 as [|x xs Hx Hnd IH].
  - rewrite decide_False; [done|apply not_elem_of_nil].
  - change (x :: xs) with ([x] ++ xs). rewrite occurrences_app, IH.
    unfold occurrences at 1. rewrite filter_cons, filter_nil.
    destruct (decide (x = c)) as [->|Hne]; simpl.
    + rewrite (decide_False (P := c ∈ xs)) by done. rewrite decide_True; [done|left].
    + destruct (decide (c ∈ xs)) as [Hin|Hin].
      * rewrite decide_True; [done|by right].
      * rewrite decide_False; [done|]. rewrite elem_of_cons. naive_solver.
Qed.

Lemma occurrences_perm (c : cell) (xs ys : list cell) :
  xs ≡ₚ ys → occurrences c xs = occurrences c ys.
Proof. intros Hp. unfold occurrences. by rewrite Hp. Qed.

Lemma counter_incr_keys (c : cell) (cnt : list (cell * Z)) :
  (counter_incr c cnt).*1 = if decide (c ∈ cnt.*1) then cnt.*1 else cnt.*1 ++ [c].
Proof.
  induction cnt as [|[c' n] cnt IH].
  - rewrite decide_False; [done|apply not_elem_of_nil].
  - csimpl. destruct (decide (c' = c)) as [->|Hne]; csimpl.
    + rewrite decide_True; [done|left].
    + rewrite IH. destruct (decide (c ∈ cnt.*1)) as [Hin|Hin].
      * rewrite decide_True; [done|by right].
      * rewrite decide_False; [done|]. rewrite elem_of_cons. naive_solver.
Qed.

Lemma counter_incr_elem (c : cell) (cnt : list (cell * Z)) (c' : cell) (n : Z) :
  NoDup cnt.*1 →
  (c', n) ∈ counter_incr c cnt ↔
    (c' ≠ c ∧ (c', n) ∈ cnt)
    ∨ (c' = c ∧ ((c, n - 1) ∈ cnt ∨ (c ∉ cnt.*1 ∧ n = 1))).
Proof.
  induction cnt as [|[a m] cnt IH]; csimpl; intros Hnd.
  - rewrite list_elem_of_singleton. split.
    + intros [= -> ->]. right. split; [done|]. right. split; [apply not_elem_of_nil|done].
    + intros [[_ []%elem_of_nil]|[-> [[]%elem_of_nil|[_ ->]]]]. done.
  - apply NoDup_cons in Hnd as [Ha Hnd].
    assert (Hnot : ∀ k, (a, k) ∉ cnt).
    { intros k Hk. apply Ha. apply list_elem_of_fmap. by exists (a, k). }
    destruct (decide (a = c)) as [->|Hne].
    + rewrite !elem_of_cons. split.
      * intros [[= -> ->]|Hin].
        -- right. split; [done|]. left. left. f_equal. lia.
        -- left. split; [|by right]. intros ->. by eapply Hnot.
      * intros [[Hne [[= ? ?]|Hin]]|[-> [[[= ?]|Hin]|[Hc _]]]].
        -- done.
        -- by right.
        -- left. f_equal. lia.
        -- by apply Hnot in Hin.
        -- exfalso. apply Hc. by left.
    + rewrite !elem_of_cons, (IH Hnd). split.
      * intros [[= -> ->]|[[Hc Hin]|[-> [Hin|[Hc ->]]]]].
        -- left. split; [done|by left].
        -- left. split; [done|by right].
        -- right. split; [done|]. left. by right.
        -- right. split; [done|]. right. split; [|done]. naive_solver.
      * intros [[Hc [[= -> ->]|Hin]]|[-> [[[= ? ?]|Hin]|[Hc ->]]]].
        -- by left.
        -- right. left. done.
        -- done.
        -- right. right. split; [done|]. by left.
        -- right. right. split; [done|]. right. split; [|done].
           intros Hin. apply Hc. by right.
Qed.

Lemma Counter_snoc (xs : list cell) (x : cell) :
  Counter (xs ++ [x]) = counter_incr x (Counter xs).
Proof. unfold Counter. by rewrite foldl_app. Qed.

(** [Counter(xs)] has one entry for each element of [xs], with the number
    of times the element stands in [xs]. *)
Lemma Counter_spec (xs : list cell) :
  NoDup (Counter xs).*1
  ∧ ∀ c n, (c, n) ∈ Counter xs ↔ c ∈ xs ∧ n = occurrences c xs.
Proof.
  induction xs as [|x xs [Hnd IH]] using rev_ind.
  - split; [constructor|]. intros c n. cbn. rewrite !elem_of_nil. naive_solver.
  - assert (Hkeys : ∀ c, c ∈ (Counter xs).*1 ↔ c ∈ xs).
    { intros c. rewrite list_elem_of_fmap. split.
      - intros ([c' n] & -> & Hin). by apply IH in Hin as [? _].
      - intros Hin. exists (c, occurrences c xs). split; [done|]. by apply IH. }
    rewrite Counter_snoc. split.
    + rewrite counter_incr_keys. case_decide as Hin; [done|].
      apply NoDup_app. split; [done|]. split; [|apply NoDup_singleton].
      intros c Hc ->%list_elem_of_singleton. done.
    + intros c n. rewrite (counter_incr_elem _ _ _ _ Hnd), !IH, Hkeys.
      rewrite occurrences_snoc, elem_of_app, list_elem_of_singleton.
      destruct (decide (x = c)) as [->|Hne].
      * destruct (decide (c ∈ xs)) as [Hin|Hin].
        -- split; [|intros [_ ->]; right; split; [done|]; left; split; [done|lia]].
           intros [[? _]|[_ [[_ ?]|[? _]]]]; [done| |done]. split; [by left|lia].
        -- rewrite (occurrences_absent c xs Hin).
           split; [|intros [_ ->]; right; split; [done|]; right; done].
           intros [[? _]|[_ [[? _]|[_ ->]]]]; [done|done|]. split; [by right|done].
      * split.
        -- intros [[_ [Hin ->]]|[-> _]]; [|done]. split; [by left|lia].
        -- intros [[Hin| ->] ->]; [|done]. left. split; [done|]. split; [done|lia].
Qed.

(** *** The tiles of the population *)

Section TargetingFacts.
Variable set_iter : gset cell → list cell.
(** Iterating over a set hands out each of its elements once. *)
Hypothesis set_iter_elements : ∀ s, set_iter s ≡ₚ elements s.

Lemma elem_of_set_iter (s : gset cell) (c : cell) : c ∈ set_iter s ↔ c ∈ s.
Proof. by rewrite set_iter_elements, elem_of_elements. Qed.

Lemma elem_of_chain (boards : list (gset cell)) (c : cell) :
  c ∈ chain_from_iterable set_iter boards ↔ ∃ t, t ∈ boards ∧ c ∈ t.
Proof.
  unfold chain_from_iterable. rewrite list_elem_of_bind. split.
  - intros (t & Hc & Ht). exists t. by rewrite <- elem_of_set_iter.
  - intros (t & Ht & Hc). exists t. by rewrite elem_of_set_iter.
Qed.

Lemma occurrences_chain (boards : list (gset cell)) (c : cell) :
  occurrences c (chain_from_iterable set_iter boards) = count_in boards c.
Proof.
  unfold chain_from_iterable, count_in. induction boards as [|t boards IH]; [done|].
  rewrite bind_cons, occurrences_app, IH, filter_cons.
  rewrite (occurrences_perm _ _ _ (set_iter_elements t)).
  rewrite occurrences_NoDup by apply NoDup_elements.
  destruct (decide (c ∈ t)) as [Hin|Hin].
  - rewrite decide_True by (by apply elem_of_elements). simpl length. lia.
  - rewrite decide_False by (by rewrite elem_of_elements). lia.
Qed.

Lemma count_in_bounds (boards : list (gset cell)) (c : cell) :
  0 ≤ count_in boards c ≤ Z.of_nat (length boards).
Proof. unfold count_in. pose proof (length_filter (λ b, c ∈ b) boards). lia. Qed.

Lemma count_in_all (boards : list (gset cell)) (c : cell) :
  (∀ t, t ∈ boards → c ∈ t) → count_in boards c = Z.of_nat (length boards).
Proof.
  intros Hall. unfold count_in. f_equal. f_equal.
  induction boards as [|t boards IH]; [done|].
  rewrite filter_cons, decide_True by (apply Hall; left).
  f_equal. apply IH. intros t' Ht'. apply Hall. by right.
Qed.

Lemma count_in_none (boards : list (gset cell)) (c : cell) :
  (∀ t, t ∈ boards → c ∉ t) → count_in boards c = 0.
Proof.
  intros Hnone. unfold count_in.
  destruct (filter (λ b, c ∈ b) boards) as [|t l] eqn:Hf; [done|].
  assert (Ht : t ∈ filter (λ b, c ∈ b) boards) by (rewrite Hf; left).
  apply list_elem_of_filter in Ht as [Hc Ht]. by apply Hnone in Ht.
Qed.

(** The counter of [take_turn], sorted: one entry for every tile that
    stands on some board, with the number of boards that hold it, in
    decreasing order of that number. *)
Definition ranking (boards : list (gset cell)) : list (cell * Z) :=
  sorted_stable (λ y x, bool_decide (x.2 < y.2))
    (Counter (chain_from_iterable set_iter boards)).

Lemma ranking_spec (boards : list (gset cell)) :
  NoDup (ranking boards).*1
  ∧ StronglySorted (λ a c, c.2 ≤ a.2) (ranking boards)
  ∧ ∀ c n, (c, n) ∈ ranking boards ↔ (∃ t, t ∈ boards ∧ c ∈ t) ∧ n = count_in boards c.
Proof.
  unfold ranking.
  destruct (Counter_spec (chain_from_iterable set_iter boards)) as [Hnd Hel].
  split; [|split].
  - by rewrite sorted_stable_perm.
  - eapply StronglySorted_weaken; [|apply sorted_stable_sorted].
    + intros a c Hac. apply bool_decide_eq_false in Hac. lia.
    + intros a c Hac. apply bool_decide_eq_true in Hac.
      apply bool_decide_eq_false. lia.
    + intros a c e Hac Hce. apply bool_decide_eq_false in Hac, Hce.
      apply bool_decide_eq_false. lia.
  - intros c n. by rewrite sorted_stable_perm, Hel, elem_of_chain, occurrences_chain.
Qed.

Lemma choose_tile_last (p : BattleshipPlayer) :
  choose_tile set_iter p
  = last (filter (λ tile, tile ∉ hits p)
            (take (S (size (hits p))) (ranking (random_boards p))).*1).
Proof.
  unfold choose_tile, first_untried, most_common. fold (ranking (random_boards p)).
  rewrite fmap_reverse, filter_reverse, head_reverse.
  by replace (Z.to_nat (Z.of_nat (size (hits p)) + 1)) with (S (size (hits p))) by lia.
Qed.
End TargetingFacts.

(** *** The window [take_turn] looks at *)

Lemma window_none (H : gset cell) (rk : list (cell * Z)) :
  NoDup rk.*1 →
  last (filter (λ tile, tile ∉ H) (take (S (size H)) rk).*1) = None →
  ∀ e, e ∈ rk → e.1 ∈ H.
Proof.
  intros Hnd Hlast. apply last_None in Hlast.
  assert (Hall : ∀ c, c ∈ (take (S (size H)) rk).*1 → c ∈ H).
  { intros c Hc. destruct (decide (c ∈ H)) as [|Hn]; [done|].
    assert (Hin : c ∈ filter (λ tile, tile ∉ H) (take (S (size H)) rk).*1)
      by (by apply list_elem_of_filter).
    rewrite Hlast in Hin. by apply elem_of_nil in Hin. }
  assert (Hnd' : NoDup (take (S (size H)) rk).*1).
  { rewrite fmap_take. eapply sublist_NoDup; [|apply sublist_take]. done. }
  assert (Hlen : (length (take (S (size H)) rk) ≤ size H)%nat).
  { rewrite <- (length_fmap fst), <- (size_list_to_set (C := gset cell)) by done.
    apply subseteq_size. intros c Hc. apply elem_of_list_to_set in Hc. by apply Hall. }
  rewrite length_take in Hlen.
  rewrite take_ge in Hall by lia.
  intros e He. apply Hall. apply list_elem_of_fmap. by exists e.
Qed.

Lemma window_some (H : gset cell) (rk : list (cell * Z)) (c : cell) :
  last (filter (λ tile, tile ∉ H) (take (S (size H)) rk).*1) = Some c →
  c ∉ H ∧ ∃ w1 k w2,
    take (S (size H)) rk = w1 ++ (c, k) :: w2 ∧ ∀ e, e ∈ w2 → e.1 ∈ H.
Proof.
  intros Hlast.
  assert (Hc : c ∈ filter (λ tile, tile ∉ H) (take (S (size H)) rk).*1).
  { apply last_Some in Hlast as [l' ->]. apply elem_of_app. right. left. }
  apply list_elem_of_filter in Hc as [Hc _]. split; [done|].
  apply last_filter_Some in Hlast as (l1 & l2 & Heq & Hl2).
  apply fmap_app_inv in Heq as (w1 & w' & -> & Hw' & Heq).
  symmetry in Hw'. apply fmap_cons_inv in Hw' as ([c' k] & w2 & Hc' & -> & ->).
  simpl in Hc'. subst c'. exists w1, k, w2. split; [done|].
  intros e He. rewrite Forall_forall in Hl2.
  destruct (decide (e.1 ∈ H)) as [|Hn]; [done|].
  exfalso. apply (Hl2 e.1); [|done]. apply list_elem_of_fmap. by exists e.
Qed.

Lemma window_best (H : gset cell) (rk : list (cell * Z)) (N : Z) (c : cell) :
  NoDup rk.*1 → StronglySorted (λ a e, e.2 ≤ a.2) rk →
  (∀ e, e ∈ rk → e.2 ≤ N) →
  (∀ h, h ∈ H → (h, N) ∈ rk) →
  last (filter (λ tile, tile ∉ H) (take (S (size H)) rk).*1) = Some c →
  ∃ k, (c, k) ∈ rk ∧ ∀ d m, (d, m) ∈ rk → d ∉ H → m ≤ k.
Proof.
  intros Hnd Hsorted Hle Hhits (Hc & w1 & k & w2 & Hw & Hw2)%window_some.
  assert (Hrk : rk = w1 ++ (c, k) :: (w2 ++ drop (S (size H)) rk)).
  { rewrite <- (take_drop (S (size H)) rk) at 1. rewrite Hw, <- app_assoc. done. }
  assert (Hlen : (length w1 ≤ size H)%nat).
  { assert (Ht : length (take (S (size H)) rk) = (S (size H) `min` length rk)%nat)
      by apply length_take.
    rewrite Hw, length_app in Ht. cbn [length] in Ht. lia. }
  set (tl := w2 ++ drop (S (size H)) rk) in *.
  assert (Htl : ∀ e, e ∈ tl → e.2 ≤ k).
  { rewrite Hrk in Hsorted. apply StronglySorted_app_1_r in Hsorted.
    apply StronglySorted_inv in Hsorted as [_ Hall]. rewrite Forall_forall in Hall.
    intros e He. by apply Hall in He. }
  exists k. split; [rewrite Hrk; apply elem_of_app; right; left|].
  intros d m Hd HdH. assert (Hd' := Hd). rewrite Hrk in Hd'.
  apply elem_of_app in Hd' as [Hd'|Hd']; [|apply elem_of_cons in Hd' as [[= -> ->]|Hd']].
  - destruct (decide (set_Forall (λ h, h ∈ w1.*1) H)) as [Hall|Hex].
    + exfalso.
      assert (Hnd1 : NoDup w1.*1).
      { rewrite Hrk, fmap_app in Hnd. by apply NoDup_app in Hnd as [? _]. }
      assert (Hsub : H ∪ {[d]} ⊆ list_to_set (C := gset cell) w1.*1).
      { intros x [Hx| ->%elem_of_singleton]%elem_of_union; apply elem_of_list_to_set.
        - by apply Hall.
        - apply list_elem_of_fmap. by exists (d, m). }
      apply subseteq_size in Hsub.
      rewrite size_list_to_set, length_fmap in Hsub by done.
      rewrite size_union, size_singleton in Hsub by set_solver. lia.
    + apply not_set_Forall_Exists in Hex as (h & Hh & Hhw); [|apply _]. simpl in Hhw.
      assert (HhN := Hhits h Hh). rewrite Hrk in HhN.
      apply elem_of_app in HhN as [HhN|HhN];
        [|apply elem_of_cons in HhN as [[= -> ->]|HhN]].
      * exfalso. apply Hhw. apply list_elem_of_fmap. by exists (h, N).
      * done.
      * apply Htl in HhN. apply Hle in Hd. simpl in *. lia.
  - lia.
  - by apply Htl in Hd'.
Qed.

(** *** Boards lie in the grid *)

Lemma layouts_in_grid (d len : Z) (conf : gset cell) (c : cell) :
  conf ∈ layouts d len → c ∈ conf → in_grid d c.
Proof.
  intros (i & j & Hi & Hj & [-> | ->])%elem_of_layouts
         (t & -> & Ht%elem_of_range)%elem_of_list_to_set%list_elem_of_fmap;
    unfold in_grid; simpl; lia.
Qed.

Lemma sample_in_grid (b : BattleshipBoard) (chosen : list string)
    (l : list (gset cell)) (t : gset cell) (c : cell) :
  board_wf b → sample_ok b chosen l t → c ∈ t → in_grid (dim b) c.
Proof.
  intros Hwf (nms & _ & Hcand & _ & -> & _) (k & Hk & Hc)%elem_of_union_list.
  apply list_elem_of_lookup in Hk as [i Hi].
  destruct (Forall2_lookup_r _ _ _ _ _ Hcand Hi) as (name & _ & confs & Hconfs & Hin).
  assert (Hname : name ∈ names b) by (apply (wf_dict_dom _ Hwf); by eexists).
  destruct (wf_lengths _ Hwf name Hname) as [len Hlen].
  eapply layouts_in_grid; [|exact Hc].
  by apply (wf_within _ Hwf name confs len).
Qed.

Lemma population_in_grid (p : BattleshipPlayer) :
  reachable p → ∀ t c, t ∈ random_boards p → c ∈ t → in_grid (dim (board p)) c.
Proof.
  induction 1 as [fuel d ships boards rnd p rnd' Hrun
                 |fuel p rnd p' rnd' Hreach IH Hrun
                 |p x y v p' Hreach IH Hrun
                 |fuel p rnd p' rnd' Hreach IH Hrun].
  - destruct (BattleshipBoard_init_spec d ships) as (b & Hb & _).
    rewrite (BattleshipPlayer_init_unfold _ _ _ _ b) in Hrun by done.
    destruct (draw_fleet fuel b rnd) as [[[fleet eb] r1]| |]; [|done..].
    injection Hrun as <- <-. intros t c Ht. by apply elem_of_nil in Ht.
  - apply reachable_inv in Hreach as [Hinv _].
    apply generate_random_boards_Ok in Hrun as (fresh & Hfresh & ->). simpl.
    intros t c [Ht|Ht]%elem_of_app Hc.
    + apply (IH t c); [by apply kept_boards_subset|done].
    + pose proof (fresh_boards fuel p _ Hinv _ _ _ Hfresh) as Hall.
      rewrite Forall_forall in Hall. destruct (Hall t Ht) as [l Hok].
      by apply (sample_in_grid _ _ _ _ _ (inv_board p Hinv) Hok).
  - apply reachable_inv in Hreach as [Hinv Hcat].
    destruct (move_effect p x y Hinv Hcat)
      as (p'' & Hrun' & _ & _ & _ & _ & _ & _ & Hrb & _ & _ & _ & Hd & _).
    rewrite Hrun in Hrun'. injection Hrun' as -> ->. rewrite Hrb, Hd. exact IH.
  - apply reachable_inv in Hreach as [Hinv _].
    destruct (reset_board p (inv_board p Hinv)) as (b & Hb & _).
    rewrite (reset_unfold _ _ b) in Hrun by done.
    destruct (draw_fleet fuel b rnd) as [[[fleet eb] r1]| |]; [|done..].
    injection Hrun as <- <-. intros t c Ht. by apply elem_of_nil in Ht.
Qed.

(** *** What [take_turn] returns *)

Lemma take_turn_Ok (set_iter : gset cell → list cell) (fuel : nat)
    (p p' : BattleshipPlayer) (o : option cell) (r r' : rng) :
  take_turn set_iter fuel p r = Ok ((o, p'), r') ↔
  generate_random_boards fuel p r = Ok (p', r') ∧ o = choose_tile set_iter p'.
Proof.
  unfold take_turn. rewrite M_bind_Ok. split.
  - by intros (q & r1 & Hrun & [[= -> ->] ->]%M_ret_Ok).
  - intros [Hrun ->]. exists p', r'. split; [done|]. by apply M_ret_Ok.
Qed.

Lemma elem_of_take_elem {A} (n : nat) (l : list A) (x : A) : x ∈ take n l → x ∈ l.
Proof. intros Hx. rewrite <- (take_drop n l). apply elem_of_app. by left. Qed.

Lemma choose_tile_Some (set_iter : gset cell → list cell) (p : BattleshipPlayer) (c : cell) :
  (∀ s, set_iter s ≡ₚ elements s) →
  choose_tile set_iter p = Some c →
  c ∉ hits p ∧ ∃ t, t ∈ random_boards p ∧ c ∈ t.
Proof.
  intros Hiter. rewrite choose_tile_last.
  intros (Hc & w1 & k & w2 & Hw & _)%window_some. split; [done|].
  destruct (ranking_spec set_iter Hiter (random_boards p)) as (_ & _ & Hel).
  apply (Hel c k). apply (elem_of_take_elem (S (size (hits p)))).
  rewrite Hw. apply elem_of_app. right. left.
Qed.

Lemma choose_tile_None (set_iter : gset cell → list cell) (p : BattleshipPlayer) :
  (∀ s, set_iter s ≡ₚ elements s) →
  choose_tile set_iter p = None ↔ ∀ t, t ∈ random_boards p → t ⊆ hits p.
Proof.
  intros Hiter. split.
  - rewrite choose_tile_last. intros Hnone t Ht c Hc.
    destruct (ranking_spec set_iter Hiter (random_boards p)) as (Hnd & _ & Hel).
    apply (window_none _ _ Hnd Hnone (c, count_in (random_boards p) c)).
    apply Hel. split; [by exists t|done].
  - intros Hall. destruct (choose_tile set_iter p) as [c|] eqn:Hch; [|done].
    apply choose_tile_Some in Hch as (Hc & t & Ht & Hct); [|done].
    exfalso. apply Hc. by apply (Hall t).
Qed.

Lemma choose_tile_most_frequent (set_iter : gset cell → list cell)
    (p : BattleshipPlayer) (c : cell) :
  (∀ s, set_iter s ≡ₚ elements s) →
  (∀ t, t ∈ random_boards p → hits p ⊆ t) →
  choose_tile set_iter p = Some c →
  ∀ d, d ∉ hits p → count_in (random_boards p) d ≤ count_in (random_boards p) c.
Proof.
  intros Hiter Hcons Hch.
  destruct (choose_tile_Some _ _ _ Hiter Hch) as (_ & t0 & Ht0 & _).
  rewrite choose_tile_last in Hch.
  destruct (ranking_spec set_iter Hiter (random_boards p)) as (Hnd & Hsorted & Hel).
  destruct (window_best (hits p) _ (Z.of_nat (length (random_boards p))) c Hnd Hsorted)
    as (k & Hk & Hbest); [| |done|].
  - intros [e n] [_ ->]%Hel. apply count_in_bounds.
  - intros h Hh. apply Hel. split.
    + exists t0. split; [done|]. by apply (Hcons t0).
    + symmetry. apply count_in_all. intros t Ht. by apply (Hcons t).
  - apply Hel in Hk as [_ ->]. intros d Hd.
    destruct (decide (Exists (λ t, d ∈ t) (random_boards p))) as [Hex|Hno].
    + apply (Hbest d); [|done]. apply Hel. by apply Exists_exists in Hex.
    + rewrite (count_in_none _ d); [apply count_in_bounds|].
      intros t Ht Hdt. apply Hno. apply Exists_exists. by exists t.
Qed.

Lemma refresh_effect (fuel : nat) (p p' : BattleshipPlayer) (r r' : rng) :
  core_inv p → generate_random_boards fuel p r = Ok (p', r') →
  length (random_boards p') = Z.to_nat (n_boards p)
  ∧ board p' = board p ∧ hits p' = hits p
  ∧ target_hits p' = target_hits p ∧ num_hits p' = num_hits p.
Proof.
  intros Hinv (fresh & Hfresh & ->)%generate_random_boards_Ok. simpl.
  pose proof (randomBoard_length _ _ _ _ _ _ _ _ Hfresh) as Hlen. simpl in Hlen.
  split; [|done]. unfold layout in *. rewrite length_app, Hlen.
  pose proof (kept_boards_length p). pose proof (inv_population p Hinv). lia.
Qed.

(** X16.  [take_turn] returns [None] exactly when every tile of every
    board of the refreshed population is already a hit (so also when the
    population is empty); a tile it returns is never a hit and always
    lies on some board of the population.  This holds from any state. *)
Theorem turn_returns_tile_of_population (set_iter : gset cell → list cell) (fuel : nat)
    (p p' : BattleshipPlayer) (o : option cell) (rnd rnd' : rng) :
  (∀ s, set_iter s ≡ₚ elements s) →
  take_turn set_iter fuel p rnd = Ok ((o, p'), rnd') →
  (o = None ↔ ∀ t, t ∈ random_boards p' → t ⊆ hits p')
  ∧ ∀ c, o = Some c → c ∉ hits p' ∧ ∃ t, t ∈ random_boards p' ∧ c ∈ t.
Proof.
  intros Hiter [_ ->]%take_turn_Ok. split.
  - by apply choose_tile_None.
  - intros c. by apply choose_tile_Some.
Qed.

(** X17.  When the population was consistent before the last move (or is
    still empty), the tile [take_turn] returns is new, lies in the grid,
    and among all tiles that are not hits it lies on the largest number
    of boards of the refreshed population. *)
Theorem turn_suggests_most_frequent_new_tile (set_iter : gset cell → list cell)
    (fuel : nat) (p p' : BattleshipPlayer) (c : cell) (rnd rnd' : rng) :
  (∀ s, set_iter s ≡ₚ elements s) →
  reachable p → refreshable p →
  take_turn set_iter fuel p rnd = Ok ((Some c, p'), rnd') →
  c ∉ hits p ∧ c ∉ misses p ∧ in_grid (dim (board p)) c
  ∧ ∀ d, d ∉ hits p → count_in (random_boards p') d ≤ count_in (random_boards p') c.
Proof.
  intros Hiter Hreach Hfresh [Hrun Hch]%take_turn_Ok. symmetry in Hch.
  assert (Hreach' : reachable p') by (by eapply reach_refresh).
  pose proof Hreach as [Hinv Hcat]%reachable_inv.
  pose proof (refresh_consistent fuel p p' rnd rnd' Hinv Hcat Hfresh Hrun) as Hcons.
  assert (Hsame : hits p' = hits p ∧ misses p' = misses p ∧ board p' = board p).
  { apply generate_random_boards_Ok in Hrun as (fresh & _ & ->). done. }
  destruct Hsame as (Hh & Hm & Hb).
  destruct (choose_tile_Some _ _ _ Hiter Hch) as (Hc & t & Ht & Hct).
  rewrite <- Hh, <- Hm, <- Hb. split; [done|]. split; [|split].
  - destruct (Hcons t Ht) as [_ Hdisj]. set_solver.
  - by apply (population_in_grid p' Hreach' t c).
  - apply (choose_tile_most_frequent set_iter p' c Hiter); [|done].
    intros t' Ht'. by destruct (Hcons t' Ht').
Qed.

(** X18.  When the population was consistent before the last move (or is
    still empty) and no ship length is negative, [take_turn] returns
    [None] exactly when no boards are asked for or all ships are sunk:
    while the game is on and [n_boards] is positive it always names a
    tile. *)
Theorem turn_names_a_tile_until_won (set_iter : gset cell → list cell)
    (fuel : nat) (p p' : BattleshipPlayer) (o : option cell) (rnd rnd' : rng) :
  (∀ s, set_iter s ≡ₚ elements s) →
  reachable p → refreshable p → lengths_nonneg (board p) →
  take_turn set_iter fuel p rnd = Ok ((o, p'), rnd') →
  (o = None ↔ n_boards p ≤ 0 ∨ check_all_sunk p = true).
Proof.
  intros Hiter Hreach Hfresh Hnn [Hrun ->]%take_turn_Ok.
  assert (Hreach' : reachable p') by (by eapply reach_refresh).
  pose proof Hreach as [Hinv Hcat]%reachable_inv.
  pose proof Hreach' as [Hinv' _]%reachable_inv.
  pose proof (refresh_consistent fuel p p' rnd rnd' Hinv Hcat Hfresh Hrun) as Hcons.
  destruct (refresh_effect fuel p p' rnd rnd' Hinv Hrun)
    as (Hlen & Hb & Hh & Hth & Hnh).
  assert (Hnn' : lengths_nonneg (board p')) by (by rewrite Hb).
  pose proof (inv_boards p' Hinv' Hnn') as Hsize.
  pose proof (inv_num_hits p' Hinv') as Hnum.
  rewrite choose_tile_None by done.
  unfold check_all_sunk. rewrite bool_decide_eq_true, <- Hnh, <- Hth, Hnum.
  split.
  - intros Hall. destruct (decide (n_boards p ≤ 0)) as [|Hpos]; [by left|right].
    destruct (random_boards p') as [|t l] eqn:Hrb; [simpl in Hlen; lia|].
    assert (Ht : t ∈ t :: l) by left.
    rewrite <- (Hsize t Ht). f_equal. f_equal. apply set_eq. intros x. split.
    + destruct (Hcons t) as [Hsub _]; [by rewrite Hrb|]. apply Hsub.
    + apply (Hall t Ht).
  - intros [Hle|Heq] t Ht.
    + destruct (random_boards p'); [by apply elem_of_nil in Ht|simpl in Hlen; lia].
    + destruct (Hcons t Ht) as [Hsub _].
      assert (Heq' : size t = size (hits p')) by (apply Hsize in Ht; lia).
      assert (Heqs : hits p' = t) by (apply set_subseteq_size_eq; [done|lia]).
      by rewrite Heqs.
Qed.

Lemma small_turn :
  take_turn elements 5 small_pop_hit (tape [])
  = Ok ((Some (1, 0), small_pop_next), λ _, mkDraw 0 0).
Proof.
  apply take_turn_Ok. split; [exact small_pop_next_refresh|]. vm_compute. reflexivity.
Qed.

Lemma small_pop_hit_refreshable : refreshable small_pop_hit.
Proof.
  destruct (reachable_inv small_pop small_pop_reachable) as [Hinv Hcat].
  exact (move_refreshable small_pop small_pop_hit 0 0 PyNone Hinv Hcat
           small_pop_consistent small_pop_hit_move).
Qed.

Lemma elements_once (s : gset cell) : elements s ≡ₚ elements s.
Proof. reflexivity. Qed.

Lemma turn_returns_tile_of_population_witness :
  (Some (1, 0) = None ↔ ∀ t, t ∈ random_boards small_pop_next → t ⊆ hits small_pop_next)
  ∧ ∀ c, Some (1, 0) = Some c →
      c ∉ hits small_pop_next ∧ ∃ t, t ∈ random_boards small_pop_next ∧ c ∈ t.
Proof.
  apply (turn_returns_tile_of_population elements 5 small_pop_hit small_pop_next
           (Some (1, 0)) (tape []) (λ _, mkDraw 0 0)).
  - exact elements_once.
  - exact small_turn.
Defined.

Lemma turn_suggests_most_frequent_new_tile_witness :
  (1, 0) ∉ hits small_pop_hit ∧ (1, 0) ∉ misses small_pop_hit
  ∧ in_grid (dim (board small_pop_hit)) (1, 0)
  ∧ ∀ d, d ∉ hits small_pop_hit →
      count_in (random_boards small_pop_next) d
      ≤ count_in (random_boards small_pop_next) (1, 0).
Proof.
  apply (turn_suggests_most_frequent_new_tile elements 5 small_pop_hit small_pop_next
           (1, 0) (tape []) (λ _, mkDraw 0 0)).
  - exact elements_once.
  - exact small_pop_hit_reachable.
  - exact small_pop_hit_refreshable.
  - exact small_turn.
Defined.

Lemma turn_names_a_tile_until_won_witness :
  Some (1, 0) = None
  ↔ n_boards small_pop_hit ≤ 0 ∨ check_all_sunk small_pop_hit = true.
Proof.
  apply (turn_names_a_tile_until_won elements 5 small_pop_hit small_pop_next
           (Some (1, 0)) (tape []) (λ _, mkDraw 0 0)).
  - exact elements_once.
  - exact small_pop_hit_reachable.
  - exact small_pop_hit_refreshable.
  - apply (bool_decide_unpack _). vm_compute. reflexivity.
  - exact small_turn.
Defined.

(** ** The order of the ships *)

Lemma StronglySorted_lookup_lt {A} (R : A → A → Prop) (l : list A) (i j : nat) (a c : A) :
  StronglySorted R l → (i < j)%nat → l !! i = Some a → l !! j = Some c → R a c.
Proof.
  intros Hs. revert i j. induction Hs as [|x l Hs IH Hx]; intros i j Hij Hi Hj; [done|].
  destruct j as [|j]; [lia|]. destruct i as [|i]; simpl in *.
  - injection Hi as ->. rewrite Forall_forall in Hx. apply Hx.
    by eapply list_elem_of_lookup_2.
  - apply (IH i j); [lia|done..].
Qed.

Lemma key_lt_asym (k1 k2 : option Z) : key_lt k1 k2 = true → key_lt k2 k1 = false.
Proof.
  destruct k1, k2; simpl; try done.
  intros ?%bool_decide_eq_true. apply bool_decide_eq_false. lia.
Qed.

Lemma key_lt_negtrans (k1 k2 k3 : option Z) :
  key_lt k1 k2 = false → key_lt k2 k3 = false → key_lt k1 k3 = false.
Proof.
  destruct k1, k2, k3; simpl; try done.
  intros ?%bool_decide_eq_false ?%bool_decide_eq_false. apply bool_decide_eq_false. lia.
Qed.

(** X19.  After [generate_random_boards] the ships stand in [name_order]
    by the number of placements still possible, fewest first: a ship never
    stands behind one with more candidate placements. *)
Theorem refresh_puts_constrained_ships_first (fuel : nat) (p p' : BattleshipPlayer)
    (rnd rnd' : rng) (i j : nat) (n1 n2 : string) (c1 c2 : list (gset cell)) :
  reachable p → generate_random_boards fuel p rnd = Ok (p', rnd') →
  (i < j)%nat →
  name_order p' !! i = Some n1 → name_order p' !! j = Some n2 →
  possShipsDict (board p') !! n1 = Some c1 →
  possShipsDict (board p') !! n2 = Some c2 →
  (length c1 ≤ length c2)%nat.
Proof.
  intros [Hinv _]%reachable_inv (fresh & _ & ->)%generate_random_boards_Ok. simpl.
  intros Hij Hi Hj Hc1 Hc2.
  assert (Hs : StronglySorted
    (λ a c, key_lt (possShipsNumDict (board p) !! c) (possShipsNumDict (board p) !! a) = false)
    (sorted_order p)).
  { unfold sorted_order.
    apply (sorted_stable_sorted
      (λ y x, key_lt (possShipsNumDict (board p) !! y) (possShipsNumDict (board p) !! x))).
    - intros a c. apply key_lt_asym.
    - intros a c e. apply key_lt_negtrans. }
  pose proof (StronglySorted_lookup_lt _ _ i j n1 n2 Hs Hij Hi Hj) as Hle.
  simpl in Hle. rewrite !(wf_num _ (inv_board p Hinv)), Hc1, Hc2 in Hle. simpl in Hle.
  apply bool_decide_eq_false in Hle. lia.
Qed.

Lemma refresh_puts_constrained_ships_first_witness :
  (length (default [] (possShipsDict (board small_pop_next) !! "a"))
   ≤ length (default [] (possShipsDict (board small_pop_next) !! "b")))%nat.
Proof.
  apply (refresh_puts_constrained_ships_first 5 small_pop_hit small_pop_next
           (tape []) (λ _, mkDraw 0 0) 0 1 "a" "b").
  - exact small_pop_hit_reachable.
  - exact small_pop_next_refresh.
  - lia.
  - vm_compute. reflexivity.
  - vm_compute. reflexivity.
  - vm_compute. reflexivity.
  - vm_compute. reflexivity.
Defined.

(** ** Turns without a move in between *)

Lemma getitem_fuel {V} (d : gmap string V) (k : string) : getitem d k ≠ OutOfFuel.
Proof. unfold getitem. by destruct (d !! k). Qed.

Lemma randomBoard_nothing_to_draw (fuel : nat) (b : BattleshipBoard) (initial : bool)
    (names_arg : option (list string)) (batch_size : Z) (r : rng) :
  batch_size ≤ 0 →
  match randomBoard fuel b initial names_arg batch_size r with
  | Ok (v, r') => v = [] ∧ r' = r
  | Raise _ => True
  | OutOfFuel => False
  end.
Proof.
  intros Hbs. unfold randomBoard. rewrite randomBoard_preamble.
  replace (Z.to_nat batch_size) with 0%nat by lia.
  unfold mbind at 1, M_mbind at 1, M_bind at 1, liftR at 1.
  destruct (chosen_names b initial names_arg) as [|first rest]; [done|].
  unfold mbind at 1, M_mbind at 1, M_bind at 1, liftR at 1.
  pose proof (getitem_fuel (possShipsNumDict b) first) as Hf.
  destruct (getitem (possShipsNumDict b) first) as [n| |]; [|done..].
  case_decide; [|done].
  unfold mbind at 1, M_mbind at 1, M_bind at 1, liftR at 1.
  match goal with |- context [comprehension ?xs ?body] =>
    pose proof (comprehension_fuel xs body) as Hc1;
    destruct (comprehension xs body) as [start_l| |] end; [|done|].
  2: { apply Hc1; [|done]. intros name.
       pose proof (getitem_fuel (possShipsNumDict b) name).
       destruct (getitem (possShipsNumDict b) name) as [m| |]; [|done..]. simpl.
       case_decide; [|done].
       pose proof (getitem_fuel (possShipsDict b) name).
       destruct (getitem (possShipsDict b) name) as [confs| |]; [|done..]. simpl.
       unfold index. repeat case_decide; try done; by destruct (_ !! _). }
  unfold mbind at 1, M_mbind at 1, M_bind at 1, liftR at 1.
  match goal with |- context [comprehension ?xs ?body] =>
    pose proof (comprehension_fuel xs body) as Hc2;
    destruct (comprehension xs body) as [rest'| |] end; [|done|].
  2: { apply Hc2; [|done]. intros name.
       pose proof (getitem_fuel (possShipsNumDict b) name).
       by destruct (getitem (possShipsNumDict b) name) as [m| |]. }
  unfold mbind at 1, M_mbind at 1, M_bind at 1, liftR at 1.
  destruct start_l; simpl; done.
Qed.

Lemma sorted_stable_fixed {A} (before : A → A → bool) (l : list A) :
  StronglySorted (λ a c, before c a = false) l → sorted_stable before l = l.
Proof.
  induction 1 as [|x l Hs IH Hx]; [done|].
  unfold sorted_stable in *. simpl. rewrite IH.
  destruct l as [|y l]; [done|]. simpl.
  apply Forall_cons in Hx as [Hy _]. by rewrite Hy.
Qed.

Lemma filter_all {A} (P : A → Prop) `{!∀ x, Decision (P x)} (l : list A) :
  (∀ x, x ∈ l → P x) → filter P l = l.
Proof.
  induction l as [|x l IH]; intros Hall; [done|].
  rewrite filter_cons, decide_True by (apply Hall; left).
  f_equal. apply IH. intros y Hy. apply Hall. by right.
Qed.

Lemma sorted_order_sorted (p : BattleshipPlayer) :
  StronglySorted
    (λ a c, key_lt (possShipsNumDict (board p) !! c) (possShipsNumDict (board p) !! a) = false)
    (sorted_order p).
Proof.
  unfold sorted_order.
  apply (sorted_stable_sorted
    (λ y x, key_lt (possShipsNumDict (board p) !! y) (possShipsNumDict (board p) !! x))).
  - intros a c. apply key_lt_asym.
  - intros a c e. apply key_lt_negtrans.
Qed.

Lemma refresh_again (fuel fuel' : nat) (p p' : BattleshipPlayer) (rnd rnd' rnd2 : rng) :
  reachable p → refreshable p →
  generate_random_boards fuel p rnd = Ok (p', rnd') →
  generate_random_boards fuel' p' rnd2 = Ok (p', rnd2).
Proof.
  intros Hreach Hfresh Hrun.
  assert (Hreach' : reachable p') by (by eapply reach_refresh).
  pose proof Hreach as [Hinv Hcat]%reachable_inv.
  pose proof Hreach' as [Hinv' _]%reachable_inv.
  pose proof (refresh_consistent fuel p p' rnd rnd' Hinv Hcat Hfresh Hrun) as Hcons.
  destruct (refresh_effect fuel p p' rnd rnd' Hinv Hrun) as (Hlen & Hb & _).
  assert (Hn : n_boards p' = n_boards p ∧ name_order p' = sorted_order p).
  { apply generate_random_boards_Ok in Hrun as (fresh & _ & ->). done. }
  destruct Hn as [Hn Hord].
  assert (Hkept : kept_boards p' = random_boards p').
  { unfold kept_boards. case_decide; apply filter_all; intros t Ht;
      destruct (Hcons t Ht) as [Hh Hm]; [done|set_solver]. }
  assert (Hsorted : sorted_order p' = name_order p').
  { unfold sorted_order at 1. apply sorted_stable_fixed.
    rewrite Hord, Hb. apply sorted_order_sorted. }
  apply generate_random_boards_Ok. exists []. rewrite Hkept, Hsorted, app_nil_r.
  split; [|by destruct p'].
  pose proof (randomBoard_nothing_to_draw fuel' (board p') false (Some (name_order p'))
                (n_boards p' - Z.of_nat (length (random_boards p'))) rnd2) as Hzero.
  pose proof (sample_never_raises fuel' p'
                (n_boards p' - Z.of_nat (length (random_boards p'))) rnd2) as Hno.
  rewrite Hsorted in Hno.
  destruct (randomBoard fuel' (board p') false (Some (name_order p'))
              (n_boards p' - Z.of_nat (length (random_boards p'))) rnd2)
    as [[v r2]|e|].
  - destruct Hzero as [-> ->]; [rewrite Hlen, Hn; lia|done].
  - by destruct (Hno e Hinv').
  - exfalso. apply Hzero. rewrite Hlen, Hn. lia.
Qed.

(** X20.  A turn right after a turn changes nothing: when [take_turn]
    has returned and is called again with no move in between, it returns
    the same tile, leaves the whole player state as it is and draws no
    random number. *)
Theorem repeated_turn_is_stable (set_iter : gset cell → list cell) (fuel fuel' : nat)
    (p p' : BattleshipPlayer) (o : option cell) (rnd rnd' rnd2 : rng) :
  reachable p → refreshable p →
  take_turn set_iter fuel p rnd = Ok ((o, p'), rnd') →
  take_turn set_iter fuel' p' rnd2 = Ok ((o, p'), rnd2).
Proof.
  intros Hreach Hfresh [Hrun ->]%take_turn_Ok. apply take_turn_Ok. split; [|done].
  by apply (refresh_again fuel fuel' p p' rnd rnd' rnd2).
Qed.

Lemma repeated_turn_is_stable_witness :
  take_turn elements 0 small_pop_next small_tape
  = Ok ((Some (1, 0), small_pop_next), small_tape).
Proof.
  apply (repeated_turn_is_stable elements 5 0 small_pop_hit small_pop_next (Some (1, 0))
           (tape []) (λ _, mkDraw 0 0) small_tape).
  - exact small_pop_hit_reachable.
  - exact small_pop_hit_refreshable.
  - exact small_turn.
Defined.

(** ** Coordinates are not checked *)

Lemma fleet_in_grid (p : BattleshipPlayer) (c : cell) :
  core_inv p → c ∈ enemy_board p → in_grid (dim (board p)) c.
Proof.
  intros Hinv. rewrite (inv_enemy_board p Hinv).
  intros (ship & Hship & Hc)%elem_of_union_list.
  apply list_elem_of_lookup in Hship as [i Hi].
  destruct (Forall2_lookup_r _ _ _ _ _ (inv_fleet p Hinv) Hi)
    as (name & Hname & confs & Hconfs & Hin).
  assert (Hn : name ∈ names (board p)) by (by eapply list_elem_of_lookup_2).
  destruct (wf_lengths _ (inv_board p Hinv) name Hn) as [len Hlen].
  eapply layouts_in_grid; [|exact Hc].
  by apply (wf_within _ (inv_board p Hinv) name confs len).
Qed.

(** X21.  The secret fleet lies inside the grid, and [update_game_state]
    does not check its coordinates: a move at a tile outside the grid
    raises nothing and is recorded as a miss, as if the tile were water. *)
Theorem move_off_grid_is_a_miss (p : BattleshipPlayer) (x y : Z) :
  reachable p → ¬ in_grid (dim (board p)) (x, y) →
  (∀ c, c ∈ enemy_board p → in_grid (dim (board p)) c)
  ∧ ∃ p', update_game_state p x y = Ok (PyNone, p')
      ∧ misses p' = misses p ∪ {[(x, y)]} ∧ hits p' = hits p
      ∧ num_hits p' = num_hits p.
Proof.
  intros [Hinv Hcat]%reachable_inv Hout.
  split; [intros c; by apply fleet_in_grid|].
  assert (Hno : (x, y) ∉ enemy_board p).
  { intros Hin. by apply Hout, fleet_in_grid. }
  destruct (move_effect p x y Hinv Hcat) as (p' & Hrun & Hh & Hm & Hn & _).
  exists p'. split; [done|].
  rewrite decide_False in Hh, Hm by done. rewrite decide_False in Hn by tauto. done.
Qed.

Lemma move_off_grid_is_a_miss_witness :
  (∀ c, c ∈ enemy_board small_pop_next → in_grid (dim (board small_pop_next)) c)
  ∧ ∃ p', update_game_state small_pop_next 3 (-1) = Ok (PyNone, p')
      ∧ misses p' = misses small_pop_next ∪ {[(3, -1)]}
      ∧ hits p' = hits small_pop_next
      ∧ num_hits p' = num_hits small_pop_next.
Proof.
  apply (move_off_grid_is_a_miss small_pop_next 3 (-1)).
  - exact small_pop_next_reachable.
  - unfold in_grid. vm_compute. intros [[_ H] _]. discriminate H.
Defined.

(** ** Ships that do not fit *)

(** X22.  On the board [BattleshipBoard.__init__] builds, a ship has no
    candidate placement exactly when it is longer than the board or the
    board has no tile, and its count is then 0; every placement of a ship
    whose length is zero or negative is the empty set. *)
Theorem ship_without_placement (d : Z) (ships : list Z) (b : BattleshipBoard)
    (name : string) (len : Z) :
  BattleshipBoard_init d ships = Ok b → shipLengths b !! name = Some len →
  ∃ confs, possShipsDict b !! name = Some confs
    ∧ possShipsNumDict b !! name = Some (Z.of_nat (length confs))
    ∧ (confs = [] ↔ d < len ∨ d ≤ 0)
    ∧ (len ≤ 0 → ∀ conf, conf ∈ confs → conf = ∅).
Proof.
  intros Hb Hlen.
  destruct (BattleshipBoard_init_spec d ships) as (b' & Hb' & Hd & Hn & Hs & Hfresh & Hwf).
  rewrite Hb in Hb'. injection Hb' as <-.
  assert (Hin : name ∈ names b) by (apply (wf_lengths_dom b Hwf); by eexists).
  assert (Hc : possShipsDict b !! name = Some (layouts d len)).
  { by rewrite Hfresh, decide_True, Hlen, Hd. }
  exists (layouts d len). split; [done|]. split; [by rewrite (wf_num b Hwf), Hc|]. split.
  - rewrite <- length_zero_iff_nil, length_layouts, !Nat.mul_eq_0. lia.
  - intros Hle conf (i & j & _ & _ & Hconf)%elem_of_layouts.
    assert (Hr : range len = []).
    { apply length_zero_iff_nil. rewrite length_range. lia. }
    rewrite Hr in Hconf. by destruct Hconf as [-> | ->].
Qed.

Lemma ship_without_placement_witness :
  ∃ confs, possShipsDict small_board !! "a" = Some confs
    ∧ possShipsNumDict small_board !! "a" = Some (Z.of_nat (length confs))
    ∧ (confs = [] ↔ 3 < 2 ∨ 3 ≤ 0)
    ∧ (2 ≤ 0 → ∀ conf, conf ∈ confs → conf = ∅).
Proof.
  apply (ship_without_placement 3 [2; 1] small_board "a" 2).
  - exact small_board_init.
  - vm_compute. reflexivity.
Defined.
